(** * View synthesis and photometric losses of the VODE model

    A shallow embedding of [model/synthesize_batch.py],
    [model/loss_and_metric/losses.py], the factory of
    [model/build_model/model_factory.py] and the saving of the weights of
    [model/model_main.py].

    Dictionaries are stdpp's [gmap] with string keys; a call that can raise
    returns a sum, the exception on the left.

    Numbers.  The tensors of the program hold [float32] values.  They are
    embedded as exact rationals ([Q], compared with [==]); rounding,
    infinities and NaN are outside the model.  [tf.floor] is [Qfloor],
    [tf.equal] is [Qeq_bool].

    Tensors.  A tensor is a nested list, outermost axis first.  The last
    axis of an image (the three colour channels) is the record [pixel]; the
    trailing axis of size one of a depth map is dropped.  Element access is
    stdpp's lookup [!!], so that an index out of range is [None]. *)

From Stdlib Require Import QArith Qround Qminmax Qabs Qfield Qpower Lqa.
From stdpp Require Import base list option strings gmap.

Local Open Scope Q_scope.

(** ** Tensors *)

Abbreviation tensor1 := (list Q).
Abbreviation tensor2 := (list (list Q)).
Abbreviation tensor3 := (list (list (list Q))).
Abbreviation tensor4 := (list (list (list (list Q)))).

Record pixel : Type := Px { ch0 : Q; ch1 : Q; ch2 : Q }.

(** An image is [height] rows of [width] pixels. *)
Abbreviation image := (list (list pixel)).

Definition px_zero : pixel := Px 0 0 0.
Definition px_map (f : Q -> Q) (p : pixel) : pixel :=
  Px (f (ch0 p)) (f (ch1 p)) (f (ch2 p)).
Definition px_map2 (f : Q -> Q -> Q) (p q : pixel) : pixel :=
  Px (f (ch0 p) (ch0 q)) (f (ch1 p) (ch1 q)) (f (ch2 p) (ch2 q)).
Definition px_add : pixel -> pixel -> pixel := px_map2 Qplus.
Definition px_scale (p : pixel) (w : Q) : pixel := px_map (fun x => x * w) p.

(** The channels of a pixel, by index. *)
Inductive channel : Type := C0 | C1 | C2.
Definition chan (k : channel) (p : pixel) : Q :=
  match k with C0 => ch0 p | C1 => ch1 p | C2 => ch2 p end.

(** Equality of pixels as values. *)
Definition px_eq (p q : pixel) : Prop :=
  ch0 p == ch0 q /\ ch1 p == ch1 q /\ ch2 p == ch2 q.

(** Nested element access. *)
Definition at2 {A} (t : list (list A)) (i j : nat) : option A :=
  t !! i ≫= (.!! j).
Definition at3 {A} (t : list (list (list A))) (i j k : nat) : option A :=
  at2 t i j ≫= (.!! k).
Definition at4 {A} (t : list (list (list (list A)))) (i j k l : nat) : option A :=
  at3 t i j k ≫= (.!! l).

(** The two leading axes [batch, num_src] are mapped over. *)
Definition per_view {A B} (f : A -> B) (t : list (list A)) : list (list B) :=
  (fun views : list A => f <$> views) <$> t.
Definition per_view2 {A B C} (f : A -> B -> C)
    : list (list A) -> list (list B) -> list (list C) :=
  zip_with (zip_with f).
Definition per_view3 {A B C D} (f : A -> B -> C -> D)
    (a : list (list A)) (b : list (list B)) (c : list (list C)) : list (list D) :=
  per_view2 (fun g x => g x) (per_view2 f a b) c.

(** [tf.slice] of one row along the axis of the 3 or 4 coordinate rows. *)
Definition slice_row (i : nat) (t : tensor2) : tensor1 := default [] (t !! i).

(** Shapes. *)
Definition shape2 {A} (n0 n1 : nat) (t : list (list A)) : Prop :=
  length t = n0 /\ Forall (fun r => length r = n1) t.
Definition shape3 {A} (n0 n1 n2 : nat) (t : list (list (list A))) : Prop :=
  length t = n0 /\ Forall (shape2 n1 n2) t.
Definition shape4 {A} (n0 n1 n2 n3 : nat) (t : list (list (list (list A)))) : Prop :=
  length t = n0 /\ Forall (shape3 n1 n2 n3) t.

(** ** Elementwise operations of the framework *)

Definition tf_floor (x : Q) : Q := inject_Z (Qfloor x).

(** [tf.clip_by_value t lo hi] is [maximum (minimum t hi) lo]. *)
Definition clip_by_value (x lo hi : Q) : Q := Qmax (Qmin x hi) lo.

(** [tf.cast] of a boolean to [float32]. *)
Definition cast_float (b : bool) : Q := if b then 1 else 0.

(** [tf.cast] of a float to [int32] truncates towards zero. *)
Definition cast_int32 (x : Q) : Z := Z.quot (Qnum x) (Zpos (Qden x)).

(** [tf.equal]. *)
Definition tf_equal (x y : Q) : bool := Qeq_bool x y.

(** Python's [n - 1] on an integer dimension, as a float bound. *)
Definition dim_minus_1 (n : nat) : Q := inject_Z (Z.of_nat n - 1).

(** ** synthesize_batch.py: the bilinear resampler *)

(** [neighbor_int_pixels] on one view: rows [(u_floor, u_ceil, v_floor, v_ceil)]. *)
Definition neighbor_int_pixels1 (height width : nat) (pixel_coords : tensor2) : tensor2 :=
  let u := slice_row 0 pixel_coords in
  let u_floor := tf_floor <$> u in
  let u_ceil := (fun x => clip_by_value (x + 1) 0 (dim_minus_1 width)) <$> u_floor in
  let u_floor := (fun x => clip_by_value x 0 (dim_minus_1 width)) <$> u_floor in
  let v := slice_row 1 pixel_coords in
  let v_floor := tf_floor <$> v in
  let v_ceil := (fun x => clip_by_value (x + 1) 0 (dim_minus_1 height)) <$> v_floor in
  let v_floor := (fun x => clip_by_value x 0 (dim_minus_1 height)) <$> v_floor in
  [u_floor; u_ceil; v_floor; v_ceil].

Definition neighbor_int_pixels (pixel_coords : tensor4) (height width : nat) : tensor4 :=
  per_view (neighbor_int_pixels1 height width) pixel_coords.

(** [make_valid_mask] on one view: one row of 0/1 values. *)
Definition make_valid_mask1 (pixel_floorceil : tensor2) : tensor2 :=
  let uf := slice_row 0 pixel_floorceil in
  let uc := slice_row 1 pixel_floorceil in
  let vf := slice_row 2 pixel_floorceil in
  let vc := slice_row 3 pixel_floorceil in
  let mask := zip_with tf_equal ((fun x => x + 1) <$> uf) uc in
  let mask := zip_with andb mask (zip_with tf_equal ((fun x => x + 1) <$> vf) vc) in
  [cast_float <$> mask].

Definition make_valid_mask (pixel_floorceil : tensor4) : tensor4 :=
  per_view make_valid_mask1 pixel_floorceil.

(** [calc_neighbor_weights] on one view: rows
    [(w_uf_vf, w_uf_vc, w_uc_vf, w_uc_vc)], each multiplied by the mask. *)
Definition calc_neighbor_weights1
    (pixel_coords pixel_floorceil valid_mask : tensor2) : tensor2 :=
  let '(ui, vi) := (0, 1)%nat in
  let '(uf, uc, vf, vc) := (0, 1, 2, 3)%nat in
  let w_uf := zip_with Qminus (slice_row uc pixel_floorceil) (slice_row ui pixel_coords) in
  let w_uc := zip_with Qminus (slice_row ui pixel_coords) (slice_row uf pixel_floorceil) in
  let w_vf := zip_with Qminus (slice_row vc pixel_floorceil) (slice_row vi pixel_coords) in
  let w_vc := zip_with Qminus (slice_row vi pixel_coords) (slice_row vf pixel_floorceil) in
  let w_ufvf := zip_with Qmult w_uf w_vf in
  let w_ufvc := zip_with Qmult w_uf w_vc in
  let w_ucvf := zip_with Qmult w_uc w_vf in
  let w_ucvc := zip_with Qmult w_uc w_vc in
  let weights := [w_ufvf; w_ufvc; w_ucvf; w_ucvc] in
  (fun w => zip_with Qmult w (slice_row 0 valid_mask)) <$> weights.

Definition calc_neighbor_weights (pixel_coords pixel_floorceil valid_mask : tensor4)
    : tensor4 :=
  per_view3 calc_neighbor_weights1 pixel_coords pixel_floorceil valid_mask.

(** [tf.gather_nd] of pixels at index pairs [[v, u]].  An index outside the
    image (an error on one device, zeros on another) reads as black. *)
Definition lookupZ {A} (l : list A) (z : Z) : option A :=
  if (z <? 0)%Z then None else l !! Z.to_nat z.

Definition gather_nd (source_image : image) (vs us : list Z) : list pixel :=
  zip_with (fun v u => default px_zero (lookupZ source_image v ≫= (fun row => lookupZ row u)))
           vs us.

(** [sample_neighbor_images] on one view: the four rows
    [(im_uf_vf, im_uf_vc, im_uc_vf, im_uc_vc)] of flattened samples. *)
Definition sample_neighbor_images1 (source_image : image) (pixel_floorceil : tensor2)
    : list (list pixel) :=
  let uf := cast_int32 <$> slice_row 0 pixel_floorceil in
  let uc := cast_int32 <$> slice_row 1 pixel_floorceil in
  let vf := cast_int32 <$> slice_row 2 pixel_floorceil in
  let vc := cast_int32 <$> slice_row 3 pixel_floorceil in
  let imflat_ufvf := gather_nd source_image vf uf in
  let imflat_ufvc := gather_nd source_image vc uf in
  let imflat_ucvf := gather_nd source_image vf uc in
  let imflat_ucvc := gather_nd source_image vc uc in
  [imflat_ufvf; imflat_ufvc; imflat_ucvf; imflat_ucvc].

Definition sample_neighbor_images (source_image : list (list image))
    (pixel_floorceil : tensor4) : list (list (list (list pixel))) :=
  per_view2 sample_neighbor_images1 source_image pixel_floorceil.

(** [tf.reduce_sum] over the axis of the four neighbours. *)
Definition reduce_sum_rows (rows : list (list pixel)) : list pixel :=
  match rows with
  | [] => []
  | r :: rs => foldl (zip_with px_add) r rs
  end.

Definition merge_images1 (sampled_images : list (list pixel)) (weights : tensor2)
    : list pixel :=
  let weighted_image := zip_with (zip_with px_scale) sampled_images weights in
  reduce_sum_rows weighted_image.

Definition merge_images (sampled_images : list (list (list (list pixel))))
    (weights : tensor4) : list (list (list pixel)) :=
  per_view2 merge_images1 sampled_images weights.

(** [erase_invalid_pixels]: the depth is flattened row by row and its zero
    mask is broadcast over the source frames and the channels. *)
Definition erase_invalid_pixels (flat_image : list (list (list pixel)))
    (depth : tensor3) : list (list (list pixel)) :=
  let depth_vec : tensor2 := (fun d : tensor2 => mjoin d) <$> depth in
  let depth_invalid_mask : list (list bool) :=
    (fun dv : tensor1 => (fun d => tf_equal d 0) <$> dv) <$> depth_vec in
  zip_with (fun (mask : list bool) (views : list (list pixel)) =>
              (fun view : list pixel =>
                 zip_with (fun (m : bool) px => if m then px_zero else px) mask view)
              <$> views)
           depth_invalid_mask flat_image.

(** The static shape [height, width] of an image batch. *)
Definition image_hw (img : list (list image)) : nat * nat :=
  let view := default [] (at2 img 0 0) in
  (length view, length (default [] (view !! 0%nat))).

Definition reshape_hw (height width : nat) (flat : list pixel) : image :=
  reshape (replicate height width) flat.

(** The resampler before depth masking: the flat interpolated image. *)
Definition interp_flat (pixel_coords : tensor4) (img : list (list image))
    : list (list (list pixel)) :=
  let '(height, width) := image_hw img in
  let pixel_floorceil := neighbor_int_pixels pixel_coords height width in
  let valid_mask := make_valid_mask pixel_floorceil in
  let weights := calc_neighbor_weights pixel_coords pixel_floorceil valid_mask in
  let sampled_images := sample_neighbor_images img pixel_floorceil in
  merge_images sampled_images weights.

Definition reconstruct_bilinear_interp (pixel_coords : tensor4)
    (img : list (list image)) (depth : tensor3) : list (list image) :=
  let '(height, width) := image_hw img in
  let flat_image := interp_flat pixel_coords img in
  let flat_image := erase_invalid_pixels flat_image depth in
  per_view (reshape_hw height width) flat_image.

(** ** synthesize_batch.py: the projective warp *)

(** [np.linspace start stop num]. *)
Definition linspace (start stop : Q) (num : nat) : tensor1 :=
  match num with
  | O => []
  | S O => [start]
  | _ => let step := (stop - start) / inject_Z (Z.of_nat (num - 1)) in
         (fun i : nat => start + inject_Z (Z.of_nat i) * step) <$> seq 0 num
  end.

(** [pixel_meshgrid]: rows [(u, v, 1)] of the flattened target grid.
    [tf.meshgrid u v] repeats [u] along the rows and [v] along the columns. *)
Definition pixel_meshgrid (height width stride : nat) : tensor2 :=
  let v := linspace 0 (inject_Z (Z.of_nat height - Z.of_nat stride)) (height / stride) in
  let u := linspace 0 (inject_Z (Z.of_nat width - Z.of_nat stride)) (width / stride) in
  let ugrid : tensor2 := (fun _ : Q => u) <$> v in
  let vgrid : tensor2 := (fun y : Q => (fun _ : Q => y) <$> u) <$> v in
  let uv : tensor2 := [mjoin ugrid; mjoin vgrid] in
  let num_pts := length (mjoin ugrid) in
  uv ++ [replicate num_pts 1].

(** Matrix product, entry [(i, k)] being row [i] dot column [k]. *)
Definition dot (x y : tensor1) : Q := foldr Qplus 0 (zip_with Qmult x y).
Definition column (j : nat) (m : tensor2) : tensor1 :=
  (fun row : tensor1 => default 0 (row !! j)) <$> m.
Definition num_cols (m : tensor2) : nat := length (default [] (m !! 0%nat)).
Definition matmul (a b : tensor2) : tensor2 :=
  (fun row : tensor1 => (fun j : nat => dot row (column j b)) <$> seq 0 (num_cols b)) <$> a.

(** [tf.linalg.inv] of a 3x3 matrix: the adjugate over the determinant.
    A singular matrix (or another shape) is an error. *)
Definition det3 (m : tensor2) : Q :=
  match m with
  | [[a; b; c]; [d; e; f]; [g; h; i]] =>
      a * (e * i - f * h) - b * (d * i - f * g) + c * (d * h - e * g)
  | _ => 0
  end.

Definition linalg_inv (m : tensor2) : option tensor2 :=
  match m with
  | [[a; b; c]; [d; e; f]; [g; h; i]] =>
      let dt := det3 m in
      if Qeq_bool dt 0 then None
      else Some [[(e * i - f * h) / dt; (c * h - b * i) / dt; (b * f - c * e) / dt];
                 [(f * g - d * i) / dt; (a * i - c * g) / dt; (c * d - a * f) / dt];
                 [(d * h - e * g) / dt; (b * g - a * h) / dt; (a * e - b * d) / dt]]
  | _ => None
  end.

(** [pixel2cam]: back-projection of the grid, scaled by the depth and made
    homogeneous. *)
Definition pixel2cam (pixel_coords : tensor2) (depth : tensor3) (intrinsic : tensor3)
    : option tensor3 :=
  let depth : tensor2 := (fun d : tensor2 => mjoin d) <$> depth in
  inv ← mapM linalg_inv intrinsic;
  let cam_coords : tensor3 := (fun kinv : tensor2 => matmul kinv pixel_coords) <$> inv in
  let cam_coords : tensor3 :=
    zip_with (fun (cc : tensor2) (d : tensor1) =>
                (fun row : tensor1 => zip_with Qmult row d) <$> cc) cam_coords depth in
  let num_pts := num_cols pixel_coords in
  Some ((fun cc : tensor2 => cc ++ [replicate num_pts 1]) <$> cam_coords).

(** [transform_to_source]: the target points are tiled over the source
    frames and multiplied by each pose. *)
Definition transform_to_source (tgt_coords : tensor3) (t2s_pose : tensor4) : tensor4 :=
  zip_with (fun (tgt : tensor2) (poses : tensor3) =>
              (fun pose : tensor2 => matmul pose tgt) <$> poses)
           tgt_coords t2s_pose.

(** The guard added to the divisor of the perspective divide. *)
Definition scale_eps : Q := 1e-10.

(** [cam2pixel]: projection and perspective divide. *)
Definition cam2pixel (cam_coords : tensor4) (intrinsic : tensor3) : tensor4 :=
  zip_with (fun (views : tensor3) (k : tensor2) =>
              (fun cc : tensor2 =>
                 let point_coords := take 3 cc in
                 let pixel_coords := matmul k point_coords in
                 let pixel_scales := slice_row 2 pixel_coords in
                 (fun row : tensor1 =>
                    zip_with (fun x s => x / (s + scale_eps)) row pixel_scales)
                 <$> pixel_coords) <$> views)
           cam_coords intrinsic.

Definition warp_pixel_coords (tgt_depth : tensor3) (pose : tensor4) (intrinsic : tensor3)
    (height width : nat) : option tensor4 :=
  let tgt_pixel_coords := pixel_meshgrid height width 1 in
  tgt_cam_coords ← pixel2cam tgt_pixel_coords tgt_depth intrinsic;
  let src_cam_coords := transform_to_source tgt_cam_coords pose in
  Some (cam2pixel src_cam_coords intrinsic).

(** [synthesize_batch_view]: warp, then resample. *)
Definition synthesize_batch_view (src_image : list (list image)) (tgt_depth : tensor3)
    (pose : tensor4) (intrinsic : tensor3) : option (list (list image)) :=
  let '(height, width) := image_hw src_image in
  src_pixel_coords ← warp_pixel_coords tgt_depth pose intrinsic height width;
  Some (reconstruct_bilinear_interp src_pixel_coords src_image tgt_depth).

(** [scale_intrinsic]: the first two rows over [scale], then the row [0 0 1]. *)
Definition scale_intrinsic (intrinsic : tensor3) (scale : nat) : tensor3 :=
  let scaled_part : tensor3 := (fun k : tensor2 => take 2 k) <$> intrinsic in
  let scaled_part : tensor3 :=
    (fun k : tensor2 =>
       (fun row : tensor1 => (fun x => x / inject_Z (Z.of_nat scale)) <$> row) <$> k)
    <$> scaled_part in
  let const_part : tensor3 := replicate (length intrinsic) [[0; 0; 1]] in
  zip_with app scaled_part const_part.

(** ** losses.py: photometric losses *)

Definition img_map (f : Q -> Q) (x : image) : image :=
  (fun row : list pixel => px_map f <$> row) <$> x.
Definition img_map2 (f : Q -> Q -> Q) (x y : image) : image :=
  zip_with (zip_with (px_map2 f)) x y.

(** [tf.reduce_mean] over the channel axis, and its comparison with zero:
    the mask of the black region. *)
Definition reduce_mean_channels (p : pixel) : Q := (ch0 p + ch1 p + ch2 p) / 3.
Definition error_mask_of (synt_target : image) : list (list bool) :=
  (fun row : list pixel =>
     (fun p => tf_equal (reduce_mean_channels p) 0) <$> row) <$> synt_target.

(** [tf.where mask 0 x], the mask being broadcast over the channels. *)
Definition where_zero (mask : list (list bool)) (x : image) : image :=
  zip_with (zip_with (fun (m : bool) p => if m then px_zero else p)) mask x.

(** [tf.reduce_mean] over the axes (h, w, c): the sum of all elements over
    their number. *)
Definition Qsum (l : list Q) : Q := foldr Qplus 0 l.
Definition px_total (p : pixel) : Q := ch0 p + ch1 p + ch2 p.
Definition num_elements (x : image) : nat := (length (mjoin x) * 3)%nat.
Definition reduce_mean_hwc (x : image) : Q :=
  Qsum (px_total <$> mjoin x) / inject_Z (Z.of_nat (num_elements x)).

Definition photometric_loss_l1_view (synt_target orig_target : image) : Q :=
  let error_mask := error_mask_of synt_target in
  let photo_error := img_map2 (fun a b => Qabs (a - b)) synt_target orig_target in
  let photo_error := where_zero error_mask photo_error in
  reduce_mean_hwc photo_error.

(** [photometric_loss_l1]: the original target is broadcast over the source
    frames. *)
Definition photometric_loss_l1 (synt_target : list (list image))
    (orig_target : list image) : tensor2 :=
  zip_with (fun (views : list image) (orig : image) =>
              (fun synt : image => photometric_loss_l1_view synt orig) <$> views)
           synt_target orig_target.

(** [AveragePooling3D] with pool size (1, 3, 3), stride 1 and SAME padding:
    the mean of the 3x3 window around a pixel, cut at the image border. *)
Definition window1 {A} (i : nat) (l : list A) : list A :=
  take (match i with O => 2 | _ => 3 end) (drop (i - 1) l).
Definition px_sum (l : list pixel) : pixel := foldr px_add px_zero l.
Definition px_mean (l : list pixel) : pixel :=
  px_map (fun x => x / inject_Z (Z.of_nat (length l))) (px_sum l).
Definition window (x : image) (r c : nat) : list pixel :=
  mjoin ((fun w : list pixel => window1 c w) <$> window1 r x).
Definition average_pool (x : image) : image :=
  imap (fun (r : nat) (row : list pixel) =>
          imap (fun (c : nat) (_ : pixel) => px_mean (window x r c)) row)
       x.

Definition ssim_c1 : Q := 0.01 ^ 2.
Definition ssim_c2 : Q := 0.03 ^ 2.

Definition photometric_loss_ssim_view (synt_target orig_target : image) : Q :=
  let error_mask := error_mask_of synt_target in
  let x := orig_target in
  let y := synt_target in
  let c1 := ssim_c1 in
  let c2 := ssim_c2 in
  let mu_x := average_pool x in
  let mu_y := average_pool y in
  let sq := fun a : Q => a ^ 2 in
  let sigma_x := img_map2 Qminus (average_pool (img_map sq x)) (img_map sq mu_x) in
  let sigma_y := img_map2 Qminus (average_pool (img_map sq y)) (img_map sq mu_y) in
  let sigma_xy := img_map2 Qminus (average_pool (img_map2 Qmult x y))
                                  (img_map2 Qmult mu_x mu_y) in
  let ssim_n := img_map2 Qmult
                  (img_map2 (fun mx my => 2 * mx * my + c1) mu_x mu_y)
                  (img_map (fun s => 2 * s + c2) sigma_xy) in
  let ssim_d := img_map2 Qmult
                  (img_map2 (fun mx my => mx ^ 2 + my ^ 2 + c1) mu_x mu_y)
                  (img_map2 (fun sx sy => sx + sy + c2) sigma_x sigma_y) in
  let ssim := img_map2 Qdiv ssim_n ssim_d in
  let ssim := img_map (fun s => clip_by_value ((1 - s) / 2) 0 1) ssim in
  let ssim := where_zero error_mask ssim in
  reduce_mean_hwc ssim.

(** [photometric_loss_ssim]: the original target is tiled over the source
    frames. *)
Definition photometric_loss_ssim (synt_target : list (list image))
    (orig_target : list image) : tensor2 :=
  zip_with (fun (views : list image) (orig : image) =>
              (fun synt : image => photometric_loss_ssim_view synt orig) <$> views)
           synt_target orig_target.

(** The mean absolute difference over the non-masked pixels only, as the
    specification words the L1 loss: its divisor counts the elements of the
    pixels that are not masked. *)
Definition count_unmasked (mask : list (list bool)) : nat :=
  length (filter (fun m : bool => m = false) (mjoin mask)).
Definition l1_mean_over_unmasked (synt_target orig_target : image) : Q :=
  let error_mask := error_mask_of synt_target in
  let photo_error := img_map2 (fun a b => Qabs (a - b)) synt_target orig_target in
  let photo_error := where_zero error_mask photo_error in
  Qsum (px_total <$> mjoin photo_error)
  / inject_Z (Z.of_nat (count_unmasked error_mask * 3)).

(** ** Construction of the loss evaluators and of the activation *)

Inductive exception : Type :=
  | WrongInputException (msg : string).

(** The outcome of a Python call: an exception raised, or a value returned. *)
Inductive outcome (A : Type) : Type :=
  | Raised (e : exception)
  | Returned (a : A).
Arguments Raised {A} e.
Arguments Returned {A} a.

Abbreviation photometric_loss_fn := (list (list image) -> list image -> tensor2).

Record PhotometricLossMultiScale : Type := {
  pl_photometric_loss : photometric_loss_fn;
  pl_key_suffix : string
}.

Definition PhotometricLossMultiScale_init (method key_suffix : string)
    : outcome PhotometricLossMultiScale :=
  if String.eqb method "L1" then
    Returned {| pl_photometric_loss := photometric_loss_l1; pl_key_suffix := key_suffix |}
  else if String.eqb method "SSIM" then
    Returned {| pl_photometric_loss := photometric_loss_ssim; pl_key_suffix := key_suffix |}
  else Raised (WrongInputException ("Wrong photometric loss name: " +:+ method)).

Record StereoDepthLoss : Type := {
  sd_photometric_loss : photometric_loss_fn
}.

Definition StereoDepthLoss_init (method : string) : outcome StereoDepthLoss :=
  if String.eqb method "L1" then
    Returned {| sd_photometric_loss := photometric_loss_l1 |}
  else if String.eqb method "SSIM" then
    Returned {| sd_photometric_loss := photometric_loss_ssim |}
  else Raised (WrongInputException ("Wrong photometric loss name: " +:+ method)).

Inductive activation : Type :=
  | InverseSigmoidActivation
  | ExponentialActivation.

(** [ModelFactory.activation_factory].  Its last branch builds the exception
    object as an expression statement and does not raise it: the method runs
    to its end and returns [None]. *)
Definition activation_factory (activ_name : string) : outcome (option activation) :=
  if String.eqb activ_name "InverseSigmoid" then Returned (Some InverseSigmoidActivation)
  else if String.eqb activ_name "Exponential" then Returned (Some ExponentialActivation)
  else
    let _ := WrongInputException ("[activation_factory] wrong activation name: " +:+ activ_name) in
    Returned None.

(** ** The resampler at one coordinate

    The value that each tensor of the resampler holds at one flat position,
    as a function of the warp coordinate [(u, v)] found there. *)

Definition floor_clip (n : nat) (x : Q) : Q :=
  clip_by_value (tf_floor x) 0 (dim_minus_1 n).
Definition ceil_clip (n : nat) (x : Q) : Q :=
  clip_by_value (tf_floor x + 1) 0 (dim_minus_1 n).

Definition valid_at (height width : nat) (u v : Q) : bool :=
  tf_equal (floor_clip width u + 1) (ceil_clip width u)
  && tf_equal (floor_clip height v + 1) (ceil_clip height v).

(** The four weights, in the order [(uf vf, uf vc, uc vf, uc vc)]. *)
Definition weight_at (height width : nat) (u v : Q) (j : nat) : Q :=
  let w_uf := ceil_clip width u - u in
  let w_uc := u - floor_clip width u in
  let w_vf := ceil_clip height v - v in
  let w_vc := v - floor_clip height v in
  let m := cast_float (valid_at height width u v) in
  match j with
  | 0%nat => w_uf * w_vf * m
  | 1%nat => w_uf * w_vc * m
  | 2%nat => w_uc * w_vf * m
  | _ => w_uc * w_vc * m
  end.

Definition gather_px (source_image : image) (v u : Q) : pixel :=
  default px_zero (lookupZ source_image (cast_int32 v)
                     ≫= (fun row => lookupZ row (cast_int32 u))).

Definition interp_at (source_image : image) (height width : nat) (u v : Q) : pixel :=
  let uf := floor_clip width u in
  let uc := ceil_clip width u in
  let vf := floor_clip height v in
  let vc := ceil_clip height v in
  px_add (px_add (px_add
    (px_scale (gather_px source_image vf uf) (weight_at height width u v 0))
    (px_scale (gather_px source_image vc uf) (weight_at height width u v 1)))
    (px_scale (gather_px source_image vf uc) (weight_at height width u v 2)))
    (px_scale (gather_px source_image vc uc) (weight_at height width u v 3)).

(** The bilinear blend of four neighbours for the fractional offsets
    [(fu, fv)], the neighbours being given in the order of the weights. *)
Definition bilinear_blend (p_ff p_fc p_cf p_cc : pixel) (fu fv : Q) : pixel :=
  px_add (px_add (px_add
    (px_scale p_ff ((1 - fu) * (1 - fv)))
    (px_scale p_fc ((1 - fu) * fv)))
    (px_scale p_cf (fu * (1 - fv))))
    (px_scale p_cc (fu * fv)).

(** The average of four pixels. *)
Definition px_average4 (p0 p1 p2 p3 : pixel) : pixel :=
  px_map (fun x => x / 4) (px_add (px_add (px_add p0 p1) p2) p3).

(** The absolute error of one pixel, zero where the synthesized pixel is
    masked: the term that one pixel adds to the sum of the L1 loss. *)
Definition masked_abs_error (synt orig : pixel) : Q :=
  if tf_equal (reduce_mean_channels synt) 0 then 0
  else Qabs (ch0 synt - ch0 orig) + Qabs (ch1 synt - ch1 orig)
       + Qabs (ch2 synt - ch2 orig).

(** The loss of one pixel and channel in the SSIM variant, from the local
    means, second moments and mixed moment. *)
Definition ssim_loss_at (mu_x mu_y ex2 ey2 exy : Q) : Q :=
  let sigma_x := ex2 - mu_x ^ 2 in
  let sigma_y := ey2 - mu_y ^ 2 in
  let sigma_xy := exy - mu_x * mu_y in
  let ssim_n := (2 * mu_x * mu_y + ssim_c1) * (2 * sigma_xy + ssim_c2) in
  let ssim_d := (mu_x ^ 2 + mu_y ^ 2 + ssim_c1) * (sigma_x + sigma_y + ssim_c2) in
  clip_by_value ((1 - ssim_n / ssim_d) / 2) 0 1.

(** ** The warp of one view

    What [warp_pixel_coords] computes for one batch element and one source
    frame, from the intrinsic matrix, its inverse, the pose, the flattened
    depth and the pixel grid. *)
Definition warp_view (k kinv pose : tensor2) (depth_flat : tensor1) (grid : tensor2)
    : tensor2 :=
  let cam_coords : tensor2 :=
    ((fun row : tensor1 => zip_with Qmult row depth_flat) <$> matmul kinv grid)
    ++ [replicate (num_cols grid) 1] in
  let src_coords := matmul pose cam_coords in
  let point_coords := take 3 src_coords in
  let pixel_coords := matmul k point_coords in
  let pixel_scales := slice_row 2 pixel_coords in
  (fun row : tensor1 => zip_with (fun x s => x / (s + scale_eps)) row pixel_scales)
  <$> pixel_coords.

(** Column [k] of a matrix, every row reaching that far. *)
Definition has_col (m : tensor2) (k : nat) (vals : tensor1) : Prop :=
  Forall2 (fun (row : tensor1) (v : Q) => row !! k = Some v) m vals.

(** The identity pose. *)
Definition pose_identity : tensor2 :=
  [[1; 0; 0; 0]; [0; 1; 0; 0]; [0; 0; 1; 0]; [0; 0; 0; 1]].

(** ** Example inputs *)

Definition demo_coords : tensor4 := [[ [[0; 1; 0; 1]; [0; 0; 1; 1]; [1; 1; 1; 1]] ]].
Definition demo_view : image := [[Px 1 2 3; Px 4 5 6]; [Px 7 8 9; Px 10 11 12]].
Definition demo_img : list (list image) := [[demo_view]].

(** A synthesized frame with one masked pixel, and its target. *)
Definition demo_synt : image := [[Px 0 0 0; Px 1 1 1]].
Definition demo_orig : image := [[Px 5 5 5; Px 3 3 3]].
Definition demo_depth : tensor3 := [[ [0; 5]; [5; 5] ]].

(** A 3x3 source frame, a constant depth, the identity pose for its one
    source frame and an intrinsic with focal length 2 and principal point
    (1, 1). *)
Definition demo3_view : image :=
  [[Px 1 1 1; Px 2 2 2; Px 3 3 3];
   [Px 4 4 4; Px 5 5 5; Px 6 6 6];
   [Px 7 7 7; Px 8 8 8; Px 9 9 9]].
Definition demo3_src : list (list image) := [[demo3_view]].
Definition demo3_depth (d : Q) : tensor3 := [[[d; d; d]; [d; d; d]; [d; d; d]]].
Definition demo3_pose : tensor4 := [[pose_identity]].
Definition demo3_intrinsic : tensor3 := [[[2; 0; 1]; [0; 2; 1]; [0; 0; 1]]].

(** ** losses.py: the loss evaluators *)

(** The values of the dictionary of augmented data: a list over the scales
    of target frames [batch] or of synthesized frames [batch, num_src]. *)
Inductive augm_value : Type :=
  | TargetList (v : list (list image))
  | SynthList (v : list (list (list image))).

(** The errors of a call: a missing dictionary key, a value of the wrong
    kind under a key, and [tf.stack] refusing its operands (no tensor, or
    tensors of different shapes). *)
Inductive call_error : Type :=
  | KeyError (key : string)
  | TypeError (key : string)
  | StackError.

(** [augm_data.update(other)]: the entries of [other] are written over
    those of [augm_data]. *)
Definition dict_update {V} (augm_data other : gmap string V) : gmap string V :=
  other ∪ augm_data.

(** [tf.stack data axis=2] of tensors [batch, num_src], one more tensor
    adding one entry at the end of the last axis. *)
Definition row_lengths (t : tensor2) : list nat :=
  (fun row : tensor1 => length row) <$> t.
Definition stack_axis2 (data : list tensor2) : call_error + tensor3 :=
  match data with
  | [] => inl StackError
  | l0 :: _ =>
      if bool_decide (Forall (fun l : tensor2 => row_lengths l = row_lengths l0) data) then
        inr (foldr (zip_with (zip_with cons))
                   ((fun row : tensor1 => (fun _ : Q => @nil Q) <$> row) <$> l0) data)
      else inl StackError
  end.

(** [tf.reduce_sum t axis=[1, 2]]. *)
Definition reduce_sum_axes12 (t : tensor3) : tensor1 :=
  (fun m : tensor2 => Qsum ((fun row : tensor1 => Qsum row) <$> m)) <$> t.

(** [PhotometricLossMultiScale.__call__]: the photometric loss of every
    scale, summed over the scales and the source frames. *)
Definition PhotometricLossMultiScale_call {F P : Type} (self : PhotometricLossMultiScale)
    (features : F) (predictions : P) (augm_data : gmap string augm_value)
    : call_error + tensor1 :=
  let target_key := "target_ms" +:+ pl_key_suffix self in
  let synth_key := "synth_target_ms" +:+ pl_key_suffix self in
  match augm_data !! target_key with
  | None => inl (KeyError target_key)
  | Some original_target_ms =>
      match augm_data !! synth_key with
      | None => inl (KeyError synth_key)
      | Some synth_target_ms =>
          match synth_target_ms, original_target_ms with
          | SynthList synth_target_ms, TargetList original_target_ms =>
              let losses :=
                zip_with (fun synt_target orig_target =>
                            pl_photometric_loss self synt_target orig_target)
                         synth_target_ms original_target_ms in
              match stack_axis2 losses with
              | inl e => inl e
              | inr stacked => inr (reduce_sum_axes12 stacked)
              end
          | SynthList _, _ => inl (TypeError target_key)
          | _, _ => inl (TypeError synth_key)
          end
      end
  end.

(** A dictionary as [TotalLoss.augment_data] fills it for one scale, one
    batch element and one source frame. *)
Definition demo_augm : gmap string augm_value :=
  <["synth_target_ms" := SynthList [[[demo_synt]]]]>
    (<["target_ms" := TargetList [[demo_orig]]]> ∅).
Definition demo_augm_equal : gmap string augm_value :=
  <["synth_target_ms" := SynthList [[[demo_orig]]]]>
    (<["target_ms" := TargetList [[demo_orig]]]> ∅).
Definition demo_augm_R : gmap string augm_value :=
  <["synth_target_ms_R" := SynthList [[[demo_orig]]]]>
    (<["target_ms_R" := TargetList [[demo_synt]]]> ∅).

(** ** model_main.py: saving the weights

    The state that [save_model] works on: the function attribute
    [save_model.best], absent before the first call, and the weights written
    under the checkpoint directory, by their suffix. *)
Record checkpoints (M : Type) : Type := {
  best : option Q;
  saved : gmap string M
}.
Arguments best {M} _.
Arguments saved {M} _.

Definition no_checkpoints {M} : checkpoints M := {| best := None; saved := ∅ |}.

(** [save_model_weights]: the file of the suffix is written over. *)
Definition save_model_weights {M} (st : checkpoints M) (model : M) (weights_suffix : string)
    : checkpoints M :=
  {| best := best st; saved := <[weights_suffix := model]> (saved st) |}.

Definition save_model {M} (st : checkpoints M) (model : M) (val_loss : Q) : checkpoints M :=
  let st := save_model_weights st model "latest" in
  let st := {| best := Some (default 10000 (best st)); saved := saved st |} in
  if Qlt_le_dec val_loss (default 10000 (best st)) then
    let st := save_model_weights st model "best" in
    {| best := Some val_loss; saved := saved st |}
  else st.

(** The calls of [save_model] over the epochs of [train], each with the
    model and the validation loss of its epoch. *)
Definition save_models {M} (st : checkpoints M) (epochs : list (M * Q)) : checkpoints M :=
  foldl (fun st (e : M * Q) => save_model st e.1 e.2) st epochs.

(** ** model_factory.py: the factory of the networks *)

(** The values of the convolution arguments in the configuration. *)
Inductive arg_value : Type :=
  | ArgStr (s : string)
  | ArgNum (x : Q).

Definition arg_is (v : arg_value) (s : string) : bool :=
  match v with
  | ArgStr t => String.eqb t s
  | ArgNum _ => false
  end.

(** The objects that [conv2d_factory] puts in the place of the strings. *)
Inductive conv_arg : Type :=
  | LeakyReLU (alpha : arg_value)
  | ReLU
  | TruncatedNormal (stddev : arg_value)
  | GlorotUniform.

(** The layer that [mu.CustomConv2D] builds from the keyword arguments
    [dst_args], as these arguments. *)
Abbreviation CustomConv2D := (gmap string conv_arg).

Definition conv2d_factory (src_args : gmap string arg_value) : call_error + CustomConv2D :=
  let dst_args : gmap string conv_arg := ∅ in
  let key := "activation" in
  let dst_args : call_error + gmap string conv_arg :=
    match src_args !! key with
    | Some v =>
        if arg_is v "leaky_relu" then
          match src_args !! (key +:+ "_param") with
          | Some param => inr (<[key := LeakyReLU param]> dst_args)
          | None => inl (KeyError (key +:+ "_param"))
          end
        else inr (<[key := ReLU]> dst_args)
    | None => inr dst_args
    end in
  match dst_args with
  | inl e => inl e
  | inr dst_args =>
      let key := "kernel_initializer" in
      match src_args !! key with
      | Some v =>
          if arg_is v "truncated_normal" then
            match src_args !! (key +:+ "_param") with
            | Some param => inr (<[key := TruncatedNormal param]> dst_args)
            | None => inl (KeyError (key +:+ "_param"))
            end
          else inr (<[key := GlorotUniform]> dst_args)
      | None => inr dst_args
      end
  end.

Definition PRETRAINED_MODELS : list string :=
  ["MobileNetV2"; "NASNetMobile"; "DenseNet121"; "VGG16"; "Xception"; "ResNet50V2";
   "NASNetLarge"].

(** The networks, as the constructor calls that build them. *)
Inductive network : Type :=
  | DepthNetBasic (input_shape : list nat) (conv2d : CustomConv2D)
      (pred_activ : option activation) (upsample_interp : string)
  | DepthNetNoResize (input_shape : list nat) (conv2d : CustomConv2D)
      (pred_activ : option activation) (upsample_interp : string)
  | DepthNetFromPretrained (input_shape : list nat) (conv2d : CustomConv2D)
      (pred_activ : option activation) (upsample_interp : string)
      (net_name : string) (pretrained_weight : bool)
  | PoseNet (input_shape : list nat) (conv2d : CustomConv2D)
  | PWCNet (input_shape : list nat) (conv2d : CustomConv2D).

Inductive model_wrapper : Type :=
  | StereoPoseModelWrapper (models : gmap string network)
  | StereoModelWrapper (models : gmap string network)
  | ModelWrapper (models : gmap string network).

Definition wrapped_models (w : model_wrapper) : gmap string network :=
  match w with
  | StereoPoseModelWrapper models | StereoModelWrapper models | ModelWrapper models => models
  end.

(** The entries of the configuration that the factory reads. *)
Record options : Type := {
  DEPTH_CONV_ARGS : gmap string arg_value;
  POSE_CONV_ARGS : gmap string arg_value;
  FLOW_CONV_ARGS : gmap string arg_value;
  DEPTH_UPSAMPLE_INTERP : string
}.

Record ModelFactory : Type := {
  mf_input_shape : list nat;
  mf_net_names : gmap string string;
  mf_activation : string;
  mf_pretrained_weight : bool;
  mf_stereo : bool;
  mf_stereo_extrinsic : bool
}.

(** What a method of the factory raises: a [KeyError] of a dictionary or a
    [WrongInputException]. *)
Inductive factory_error : Type :=
  | DictError (e : call_error)
  | WrongInput (e : exception).

Definition depth_net_factory (self : ModelFactory) (net_name : string)
    (conv2d_d : CustomConv2D) (pred_activ : option activation) (upsample_interp : string)
    : factory_error + network :=
  if String.eqb net_name "DepthNetBasic" then
    inr (DepthNetBasic (mf_input_shape self) conv2d_d pred_activ upsample_interp)
  else if String.eqb net_name "DepthNetNoResize" then
    inr (DepthNetNoResize (mf_input_shape self) conv2d_d pred_activ upsample_interp)
  else if bool_decide (net_name ∈ PRETRAINED_MODELS) then
    inr (DepthNetFromPretrained (mf_input_shape self) conv2d_d pred_activ upsample_interp
           net_name (mf_pretrained_weight self))
  else
    inl (WrongInput (WrongInputException
                       ("[depth_net_factory] wrong depth net name: " +:+ net_name))).

Definition pose_net_factory (self : ModelFactory) (net_name : string)
    (conv2d_p : CustomConv2D) : factory_error + network :=
  if String.eqb net_name "PoseNet" then inr (PoseNet (mf_input_shape self) conv2d_p)
  else
    inl (WrongInput (WrongInputException
                       ("[pose_net_factory] wrong pose net name: " +:+ net_name))).

Definition flow_net_factory (self : ModelFactory) (net_name : string)
    (conv2d_f : CustomConv2D) : factory_error + network :=
  if String.eqb net_name "PWCNet" then inr (PWCNet (mf_input_shape self) conv2d_f)
  else
    inl (WrongInput (WrongInputException
                       ("[flow_net_factory] wrong flow net name: " +:+ net_name))).

#[global] Instance factory_bind : MBind (sum factory_error) :=
  fun A B f r => match r with inl e => inl e | inr a => f a end.

Definition lift_outcome {A} (o : outcome A) : factory_error + A :=
  match o with
  | Raised e => inl (WrongInput e)
  | Returned a => inr a
  end.
Definition lift_call {A} (r : call_error + A) : factory_error + A :=
  match r with
  | inl e => inl (DictError e)
  | inr a => inr a
  end.

Definition get_model (opts : options) (self : ModelFactory) : factory_error + model_wrapper :=
  let models : gmap string network := ∅ in
  let models : factory_error + gmap string network :=
    match mf_net_names self !! "depth" with
    | Some net_name =>
        depth_activation ← lift_outcome (activation_factory (mf_activation self));
        conv_depth ← lift_call (conv2d_factory (DEPTH_CONV_ARGS opts));
        let upsample_interp_d := DEPTH_UPSAMPLE_INTERP opts in
        depthnet ← depth_net_factory self net_name conv_depth depth_activation
                     upsample_interp_d;
        inr (<["depthnet" := depthnet]> models)
    | None => inr models
    end in
  models ← models;
  models ←
    match mf_net_names self !! "camera" with
    | Some net_name =>
        conv_pose ← lift_call (conv2d_factory (POSE_CONV_ARGS opts));
        posenet ← pose_net_factory self net_name conv_pose;
        inr (<["posenet" := posenet]> models)
    | None => inr models
    end;
  models ←
    match mf_net_names self !! "flow" with
    | Some net_name =>
        conv_flow ← lift_call (conv2d_factory (FLOW_CONV_ARGS opts));
        flownet ← flow_net_factory self net_name conv_flow;
        inr (<["flownet" := flownet]> models)
    | None => inr models
    end;
  inr (if mf_stereo_extrinsic self then StereoPoseModelWrapper models
       else if mf_stereo self then StereoModelWrapper models
       else ModelWrapper models).

(** A configuration and a factory for the depth and the pose network. *)
Definition demo_options : options :=
  {| DEPTH_CONV_ARGS :=
       <["activation" := ArgStr "leaky_relu"]>
         (<["activation_param" := ArgNum 0.1]>
            (<["kernel_initializer" := ArgStr "glorot_uniform"]> ∅));
     POSE_CONV_ARGS := <["activation" := ArgStr "relu"]> ∅;
     FLOW_CONV_ARGS := ∅;
     DEPTH_UPSAMPLE_INTERP := "nearest" |}.
Definition demo_factory : ModelFactory :=
  {| mf_input_shape := [8; 5; 128; 384; 3]%nat;
     mf_net_names := <["depth" := "DepthNetBasic"]> (<["camera" := "PoseNet"]> ∅);
     mf_activation := "Linear";
     mf_pretrained_weight := false;
     mf_stereo := true;
     mf_stereo_extrinsic := false |}.

(** ** losses.py: the smoothness loss

    [tf.exp] is a function of the framework from numbers to numbers; the
    loss is modelled for any such function. *)
Section smootheness.
Variable tf_exp : Q -> Q.

(** [img[:, :, :-1, :] - img[:, :, 1:, :]] and
    [img[:, :-1, :, :] - img[:, 1:, :, :]], for one element of the batch. *)
Definition gradient_x {A} (sub : A -> A -> A) (img : list (list A)) : list (list A) :=
  (fun row : list A => zip_with sub (take (length row - 1) row) (drop 1 row)) <$> img.
Definition gradient_y {A} (sub : A -> A -> A) (img : list (list A)) : list (list A) :=
  zip_with (zip_with sub) (take (length img - 1) img) (drop 1 img).

(** [tf.reduce_mean] over the axes (h, w, 1) of one element of the batch. *)
Definition reduce_mean_hw (x : tensor2) : Q :=
  Qsum (mjoin x) / inject_Z (Z.of_nat (length (mjoin x))).

Definition edge_weights (image_gradients : image) : tensor2 :=
  (fun row : list pixel =>
     (fun p : pixel => tf_exp (- reduce_mean_channels (px_map Qabs p))) <$> row)
  <$> image_gradients.

Definition smootheness_loss_view (disp : tensor2) (image : image) : Q :=
  let disp_gradients_x := gradient_x Qminus disp in
  let disp_gradients_y := gradient_y Qminus disp in
  let image_gradients_x := gradient_x (px_map2 Qminus) image in
  let image_gradients_y := gradient_y (px_map2 Qminus) image in
  let weights_x := edge_weights image_gradients_x in
  let weights_y := edge_weights image_gradients_y in
  let smoothness_x := zip_with (zip_with Qmult) disp_gradients_x weights_x in
  let smoothness_y := zip_with (zip_with Qmult) disp_gradients_y weights_y in
  let smoothness_x :=
    0.5 * reduce_mean_hw ((fun row : tensor1 => Qabs <$> row) <$> smoothness_x) in
  let smoothness_y :=
    0.5 * reduce_mean_hw ((fun row : tensor1 => Qabs <$> row) <$> smoothness_y) in
  smoothness_x + smoothness_y.

(** [SmoothenessLossMultiScale.smootheness_loss], over the batch. *)
Definition smootheness_loss (disp : tensor3) (image : list image) : tensor1 :=
  zip_with smootheness_loss_view disp image.
End smootheness.

(** A disparity map of 2 x 2 and a function in the place of [tf.exp]. *)
Definition demo_disp : tensor2 := [[1; 3]; [2; 2]].
Definition demo_frame : image := [[Px 0 0 0; Px 1 1 1]; [Px 5 5 5; Px 3 3 3]].
Definition demo_exp (x : Q) : Q := 1 / (1 - x).

(** ** The arithmetic of [float32]

    The numbers of a tensor are the binary32 numbers of IEEE 754: the
    rationals [m * 2 ^ k] with [|m| < 2 ^ 24] and [-149 <= k <= 104], the two
    infinities and NaN.  An elementwise operation of the framework returns
    the exact result rounded to the nearest of them, ties to the even
    mantissa.  The sign of zero is not modelled. *)
Inductive float32 : Type :=
  | F32 (x : Q)
  | F32_inf (negative : bool)
  | F32_nan.

(** The exponent [e] of a positive rational: [2 ^ e <= x < 2 ^ (e + 1)]. *)
Definition ilog2 (x : Q) : Z :=
  let k := (Z.log2 (Qnum x) - Z.log2 (Zpos (Qden x)))%Z in
  if Qle_bool (2 ^ k) x then k else (k - 1)%Z.

(** The distance of neighbouring binary32 numbers around [x]: 24 bits of
    mantissa, and [2 ^ -149] below the least normal number [2 ^ -126]. *)
Definition f32_quantum (x : Q) : Q := 2 ^ (Z.max (ilog2 (Qabs x)) (-126) - 23).

(** The nearest integer, a tie going to the even one. *)
Definition round_half_even (x : Q) : Z :=
  let f := Qfloor x in
  match Qcompare (x - inject_Z f) (1 # 2) with
  | Lt => f
  | Gt => (f + 1)%Z
  | Eq => if Z.even f then f else (f + 1)%Z
  end.

(** From this magnitude on, halfway between the largest binary32 number and
    [2 ^ 128], a result rounds to infinity. *)
Definition f32_overflow : Q := 2 ^ 128 - 2 ^ 103.

(** The relative error of a rounding, and its absolute error below the
    normal numbers. *)
Definition f32_eps : Q := 2 ^ (-24).
Definition f32_eta : Q := 2 ^ (-150).

(** A bound of the rounding error of a result between 0 and 4. *)
Definition f32_tol : Q := 1 # 4000000.

Definition f32_round (x : Q) : float32 :=
  if Qeq_bool x 0 then F32 0
  else if Qle_bool f32_overflow (Qabs x) then F32_inf (negb (Qle_bool 0 x))
  else F32 (inject_Z (round_half_even (x / f32_quantum x)) * f32_quantum x).

Definition f32_neg (a : float32) : float32 :=
  match a with
  | F32 x => F32 (- x)
  | F32_inf s => F32_inf (negb s)
  | F32_nan => F32_nan
  end.

Definition f32_add (a b : float32) : float32 :=
  match a, b with
  | F32 x, F32 y => f32_round (x + y)
  | F32_nan, _ | _, F32_nan => F32_nan
  | F32_inf s, F32_inf t => if Bool.eqb s t then F32_inf s else F32_nan
  | F32_inf s, F32 _ | F32 _, F32_inf s => F32_inf s
  end.

Definition f32_sub (a b : float32) : float32 := f32_add a (f32_neg b).

Definition f32_mul (a b : float32) : float32 :=
  match a, b with
  | F32 x, F32 y => f32_round (x * y)
  | F32_nan, _ | _, F32_nan => F32_nan
  | F32_inf s, F32_inf t => F32_inf (xorb s t)
  | F32_inf s, F32 y | F32 y, F32_inf s =>
      if Qeq_bool y 0 then F32_nan else F32_inf (xorb s (negb (Qle_bool 0 y)))
  end.

(** A division by zero gives an infinity of the sign of the dividend. *)
Definition f32_div (a b : float32) : float32 :=
  match a, b with
  | F32 x, F32 y =>
      if Qeq_bool y 0 then
        if Qeq_bool x 0 then F32_nan else F32_inf (negb (Qle_bool 0 x))
      else f32_round (x / y)
  | F32_nan, _ | _, F32_nan => F32_nan
  | F32_inf _, F32_inf _ => F32_nan
  | F32_inf s, F32 y => F32_inf (xorb s (negb (Qle_bool 0 y)))
  | F32 _, F32_inf _ => F32 0
  end.

Definition f32_floor (a : float32) : float32 :=
  match a with
  | F32 x => f32_round (inject_Z (Qfloor x))
  | _ => a
  end.

(** [tf.equal]: NaN equals nothing. *)
Definition f32_equal (a b : float32) : bool :=
  match a, b with
  | F32 x, F32 y => Qeq_bool x y
  | F32_inf s, F32_inf t => Bool.eqb s t
  | _, _ => false
  end.

(** [tf.maximum] and [tf.minimum]: NaN goes through. *)
Definition f32_le (a b : float32) : bool :=
  match a, b with
  | F32 x, F32 y => Qle_bool x y
  | F32_inf s, F32_inf t => implb t s
  | F32_inf s, F32 _ => s
  | F32 _, F32_inf t => negb t
  | _, _ => false
  end.
Definition f32_maximum (a b : float32) : float32 :=
  match a, b with
  | F32_nan, _ | _, F32_nan => F32_nan
  | _, _ => if f32_le a b then b else a
  end.
Definition f32_minimum (a b : float32) : float32 :=
  match a, b with
  | F32_nan, _ | _, F32_nan => F32_nan
  | _, _ => if f32_le a b then a else b
  end.
Definition f32_clip_by_value (x lo hi : float32) : float32 :=
  f32_maximum (f32_minimum x hi) lo.

(** Equality of [float32] values as numbers. *)
Definition f32_eq (a b : float32) : Prop :=
  match a, b with
  | F32 x, F32 y => x == y
  | F32_inf s, F32_inf t => s = t
  | F32_nan, F32_nan => True
  | _, _ => False
  end.

(** *** The neighbour weights in [float32]

    What [neighbor_int_pixels], [make_valid_mask] and [calc_neighbor_weights]
    hold at one flat position, for the warp coordinate [(u, v)] found
    there. *)
Definition f32_dim_minus_1 (n : nat) : float32 := f32_round (dim_minus_1 n).
Definition floor_clip32 (n : nat) (x : float32) : float32 :=
  f32_clip_by_value (f32_floor x) (F32 0) (f32_dim_minus_1 n).
Definition ceil_clip32 (n : nat) (x : float32) : float32 :=
  f32_clip_by_value (f32_add (f32_floor x) (F32 1)) (F32 0) (f32_dim_minus_1 n).

Definition valid_at32 (height width : nat) (u v : float32) : bool :=
  f32_equal (f32_add (floor_clip32 width u) (F32 1)) (ceil_clip32 width u)
  && f32_equal (f32_add (floor_clip32 height v) (F32 1)) (ceil_clip32 height v).

Definition f32_cast (b : bool) : float32 := if b then F32 1 else F32 0.

Definition weight_at32 (height width : nat) (u v : float32) (j : nat) : float32 :=
  let w_uf := f32_sub (ceil_clip32 width u) u in
  let w_uc := f32_sub u (floor_clip32 width u) in
  let w_vf := f32_sub (ceil_clip32 height v) v in
  let w_vc := f32_sub v (floor_clip32 height v) in
  let valid_mask := f32_cast (valid_at32 height width u v) in
  match j with
  | 0%nat => f32_mul (f32_mul w_uf w_vf) valid_mask
  | 1%nat => f32_mul (f32_mul w_uf w_vc) valid_mask
  | 2%nat => f32_mul (f32_mul w_uc w_vf) valid_mask
  | _ => f32_mul (f32_mul w_uc w_vc) valid_mask
  end.

(** *** The perspective divide in [float32]

    [pixel_coords / (pixel_scales + 1e-10)] of [cam2pixel], for one
    coordinate [x] and its scale [s]: the guard is the [float32] number
    nearest to [1e-10]. *)
Definition cam2pixel_divide32 (x s : float32) : float32 :=
  f32_div x (f32_add s (f32_round scale_eps)).

(** * Properties *)

Lemma at2_per_view {A B} (f : A -> B) (t : list (list A)) i j :
  at2 (per_view f t) i j = f <$> at2 t i j.
Proof.
  unfold at2, per_view. rewrite list_lookup_fmap.
  destruct (t !! i) as [row|]; simpl; [|done]. by rewrite list_lookup_fmap.
Qed.

Lemma at2_per_view2 {A B C} (f : A -> B -> C) a b i j :
  at2 (per_view2 f a b) i j = x ← at2 a i j; y ← at2 b i j; Some (f x y).
Proof.
  unfold at2, per_view2. rewrite lookup_zip_with.
  destruct (a !! i) as [ra|]; simpl; [|done].
  destruct (b !! i) as [rb|]; simpl.
  - by rewrite lookup_zip_with.
  - by destruct (ra !! j).
Qed.

Lemma at2_per_view3 {A B C D} (f : A -> B -> C -> D) a b c i j :
  at2 (per_view3 f a b c) i j =
  x ← at2 a i j; y ← at2 b i j; z ← at2 c i j; Some (f x y z).
Proof.
  unfold per_view3. rewrite !at2_per_view2.
  destruct (at2 a i j); simpl; [|done]. destruct (at2 b i j); simpl; done.
Qed.

Lemma neighbor_int_pixels1_rows height width pc urow vrow :
  pc !! 0%nat = Some urow -> pc !! 1%nat = Some vrow ->
  neighbor_int_pixels1 height width pc =
  [floor_clip width <$> urow; ceil_clip width <$> urow;
   floor_clip height <$> vrow; ceil_clip height <$> vrow].
Proof.
  intros Hu Hv. unfold neighbor_int_pixels1, slice_row. rewrite Hu, Hv. simpl.
  by rewrite <- !list_fmap_compose.
Qed.

Lemma make_valid_mask1_lookup height width urow vrow k u v :
  urow !! k = Some u -> vrow !! k = Some v ->
  at2 (make_valid_mask1
         [floor_clip width <$> urow; ceil_clip width <$> urow;
          floor_clip height <$> vrow; ceil_clip height <$> vrow]) 0 k
  = Some (cast_float (valid_at height width u v)).
Proof.
  intros Hu Hv. unfold at2, make_valid_mask1, slice_row. simpl.
  rewrite list_lookup_fmap, !lookup_zip_with, !list_lookup_fmap, Hu, Hv. done.
Qed.

Lemma calc_neighbor_weights1_lookup height width pc urow vrow k u v j :
  pc !! 0%nat = Some urow -> pc !! 1%nat = Some vrow ->
  urow !! k = Some u -> vrow !! k = Some v -> (j < 4)%nat ->
  let fc := neighbor_int_pixels1 height width pc in
  at2 (calc_neighbor_weights1 pc fc (make_valid_mask1 fc)) j k
  = Some (weight_at height width u v j).
Proof.
  intros Hu0 Hv0 Hu Hv Hj fc. subst fc.
  rewrite (neighbor_int_pixels1_rows _ _ _ _ _ Hu0 Hv0).
  unfold at2, calc_neighbor_weights1, make_valid_mask1, slice_row.
  rewrite Hu0, Hv0. simpl.
  destruct j as [|[|[|[|j]]]]; try lia; simpl;
    rewrite !lookup_zip_with, !list_lookup_fmap, !lookup_zip_with,
      !list_lookup_fmap, Hu, Hv; done.
Qed.

Lemma gather_nd_lookup (view : image) (f g : Q -> Q) vrow urow k (v u : Q) :
  vrow !! k = Some v -> urow !! k = Some u ->
  gather_nd view (cast_int32 <$> (f <$> vrow)) (cast_int32 <$> (g <$> urow)) !! k
  = Some (gather_px view (f v) (g u)).
Proof.
  intros Hv Hu. unfold gather_nd, gather_px.
  by rewrite lookup_zip_with, !list_lookup_fmap, Hv, Hu.
Qed.

Lemma interp_view_lookup height width (view : image) pc urow vrow k u v :
  pc !! 0%nat = Some urow -> pc !! 1%nat = Some vrow ->
  urow !! k = Some u -> vrow !! k = Some v ->
  let fc := neighbor_int_pixels1 height width pc in
  merge_images1 (sample_neighbor_images1 view fc)
                (calc_neighbor_weights1 pc fc (make_valid_mask1 fc)) !! k
  = Some (interp_at view height width u v).
Proof.
  intros Hu0 Hv0 Hu Hv fc. subst fc.
  rewrite (neighbor_int_pixels1_rows _ _ _ _ _ Hu0 Hv0).
  unfold merge_images1, sample_neighbor_images1, calc_neighbor_weights1,
    make_valid_mask1, slice_row.
  rewrite Hu0, Hv0. simpl.
  rewrite !lookup_zip_with.
  rewrite !(gather_nd_lookup view _ _ _ _ k v u Hv Hu).
  repeat (progress (rewrite ?lookup_zip_with, ?list_lookup_fmap, ?Hu, ?Hv; simpl)).
  done.
Qed.

Lemma at4_Some {A} (t : list (list (list (list A)))) b s i k x :
  at4 t b s i k = Some x <->
  exists pc row, at2 t b s = Some pc /\ pc !! i = Some row /\ row !! k = Some x.
Proof.
  unfold at4, at3. split.
  - destruct (at2 t b s) as [pc|]; simpl; [|done].
    destruct (pc !! i) as [row|] eqn:E; simpl; [|done]. eauto.
  - intros (pc & row & -> & Hr & Hx). simpl. rewrite Hr. done.
Qed.

Lemma interp_flat_view height width coords (img : list (list image)) b s pc view :
  image_hw img = (height, width) ->
  at2 coords b s = Some pc -> at2 img b s = Some view ->
  at2 (interp_flat coords img) b s =
  Some (let fc := neighbor_int_pixels1 height width pc in
        merge_images1 (sample_neighbor_images1 view fc)
                      (calc_neighbor_weights1 pc fc (make_valid_mask1 fc))).
Proof.
  intros Hhw Hpc Hview. unfold interp_flat. rewrite Hhw.
  unfold merge_images, sample_neighbor_images, calc_neighbor_weights,
    make_valid_mask, neighbor_int_pixels.
  rewrite at2_per_view2, at2_per_view2, at2_per_view3, !at2_per_view, Hpc, Hview.
  done.
Qed.

Lemma interp_flat_lookup height width coords (img : list (list image)) b s k u v view :
  image_hw img = (height, width) ->
  at4 coords b s 0 k = Some u -> at4 coords b s 1 k = Some v ->
  at2 img b s = Some view ->
  at3 (interp_flat coords img) b s k = Some (interp_at view height width u v).
Proof.
  intros Hhw Hu Hv Hview.
  apply at4_Some in Hu as (pc & urow & Hpc & Hu0 & Hu).
  apply at4_Some in Hv as (pc' & vrow & Hpc' & Hv0 & Hv).
  rewrite Hpc in Hpc'. injection Hpc' as <-.
  unfold at3. rewrite (interp_flat_view height width _ _ _ _ pc view); try done.
  simpl. by apply interp_view_lookup with urow vrow.
Qed.

Lemma reshape_hw_lookup height width (flat : list pixel) r c :
  (r < height)%nat -> (c < width)%nat ->
  at2 (reshape_hw height width flat) r c = flat !! (r * width + c)%nat.
Proof.
  unfold reshape_hw, at2. revert flat r.
  induction height as [|h IH]; intros flat r Hr Hc; [lia|].
  destruct r as [|r]; simpl.
  - by rewrite lookup_take_lt.
  - rewrite IH by lia. rewrite lookup_drop. f_equal. lia.
Qed.

Lemma depth_flat_lookup (d : tensor2) height width r c :
  shape2 height width d -> (c < width)%nat ->
  mjoin d !! (r * width + c)%nat = at2 d r c.
Proof.
  intros [_ Hrows] Hc. unfold at2. apply option_eq. intros x.
  rewrite (join_lookup_Some_same_length' width) by done.
  destruct (d !! r) as [row|]; simpl; split.
  - by intros (l & [= <-] & Hx).
  - intros Hx. by exists row.
  - by intros (l & [=] & _).
  - done.
Qed.

Lemma shape2_lookup {A} n0 n1 (t : list (list A)) i :
  shape2 n0 n1 t -> (i < n0)%nat -> exists row, t !! i = Some row /\ length row = n1.
Proof.
  intros [Hl Hrows] Hi. destruct (lookup_lt_is_Some_2 t i) as [row Hrow]; [lia|].
  exists row. split; [done|]. by apply (Forall_lookup_1 _ _ _ _ Hrows Hrow).
Qed.

Lemma shape3_lookup {A} n0 n1 n2 (t : list (list (list A))) i :
  shape3 n0 n1 n2 t -> (i < n0)%nat -> exists m, t !! i = Some m /\ shape2 n1 n2 m.
Proof.
  intros [Hl Hrows] Hi. destruct (lookup_lt_is_Some_2 t i) as [row Hrow]; [lia|].
  exists row. split; [done|]. by apply (Forall_lookup_1 _ _ _ _ Hrows Hrow).
Qed.

Lemma shape4_lookup {A} n0 n1 n2 n3 (t : list (list (list (list A)))) i j :
  shape4 n0 n1 n2 n3 t -> (i < n0)%nat -> (j < n1)%nat ->
  exists m, at2 t i j = Some m /\ shape2 n2 n3 m.
Proof.
  intros [Hl Hrows] Hi Hj. destruct (lookup_lt_is_Some_2 t i) as [x Hx]; [lia|].
  pose proof (Forall_lookup_1 _ _ _ _ Hrows Hx) as Hs.
  destruct (shape3_lookup _ _ _ _ j Hs Hj) as (m & Hm & Hm2).
  exists m. split; [|done]. unfold at2. by rewrite Hx.
Qed.

Lemma shape4_at4 {A} n0 n1 n2 n3 (t : list (list (list (list A)))) i j k l :
  shape4 n0 n1 n2 n3 t -> (i < n0)%nat -> (j < n1)%nat -> (k < n2)%nat -> (l < n3)%nat ->
  is_Some (at4 t i j k l).
Proof.
  intros Hs Hi Hj Hk Hl.
  destruct (shape4_lookup _ _ _ _ _ i j Hs Hi Hj) as (m & Hm & Hm2).
  destruct (shape2_lookup _ _ _ k Hm2 Hk) as (row & Hrow & Hlen).
  destruct (lookup_lt_is_Some_2 row l) as [x Hx]; [lia|].
  exists x. apply at4_Some. eauto.
Qed.

Lemma image_hw_shape n0 n1 height width (img : list (list image)) :
  shape4 n0 n1 height width img -> (0 < n0)%nat -> (0 < n1)%nat -> (0 < height)%nat ->
  image_hw img = (height, width).
Proof.
  intros Hs H0 H1 Hh.
  destruct (shape4_lookup _ _ _ _ _ 0%nat 0%nat Hs H0 H1) as (m & Hm & Hm2).
  destruct (shape2_lookup _ _ _ 0%nat Hm2 Hh) as (row & Hrow & Hlen).
  unfold image_hw. rewrite Hm. simpl. rewrite Hrow. simpl.
  destruct Hm2 as [-> _]. by rewrite Hlen.
Qed.

Lemma erase_invalid_pixels_lookup (flat : list (list (list pixel))) (depth : tensor3)
    b s k dmap d px :
  depth !! b = Some dmap -> mjoin dmap !! k = Some d -> at3 flat b s k = Some px ->
  at3 (erase_invalid_pixels flat depth) b s k =
  Some (if tf_equal d 0 then px_zero else px).
Proof.
  intros Hd Hk Hpx. unfold at3, at2 in *. unfold erase_invalid_pixels.
  rewrite lookup_zip_with, !list_lookup_fmap, Hd. simpl.
  destruct (flat !! b) as [views|]; simpl in *; [|done].
  rewrite list_lookup_fmap.
  destruct (views !! s) as [view|]; simpl in *; [|done].
  by rewrite lookup_zip_with, list_lookup_fmap, Hk, Hpx.
Qed.

Lemma reconstruct_lookup height width coords (img : list (list image)) depth
    b s r c u v view dmap d :
  image_hw img = (height, width) ->
  shape2 height width dmap ->
  (r < height)%nat -> (c < width)%nat ->
  at4 coords b s 0 (r * width + c) = Some u ->
  at4 coords b s 1 (r * width + c) = Some v ->
  at2 img b s = Some view ->
  depth !! b = Some dmap -> at2 dmap r c = Some d ->
  at4 (reconstruct_bilinear_interp coords img depth) b s r c =
  Some (if tf_equal d 0 then px_zero else interp_at view height width u v).
Proof.
  intros Hhw Hdm Hr Hc Hu Hv Hview Hd Hdrc.
  unfold reconstruct_bilinear_interp. rewrite Hhw.
  pose proof (interp_flat_lookup _ _ _ _ _ _ _ _ _ _ Hhw Hu Hv Hview) as Hflat.
  rewrite <- (depth_flat_lookup _ _ _ _ _ Hdm Hc) in Hdrc.
  pose proof (erase_invalid_pixels_lookup _ _ _ _ _ _ _ _ Hd Hdrc Hflat) as He.
  unfold at4, at3 in *. rewrite at2_per_view.
  destruct (at2 (erase_invalid_pixels (interp_flat coords img) depth) b s)
    as [flat|]; simpl in *; [|done].
  change (at2 (reshape_hw height width flat) r c = 
     Some (if tf_equal d 0 then px_zero else interp_at view height width u v)).
  by rewrite reshape_hw_lookup.
Qed.

Lemma tf_equal_true x y : tf_equal x y = true <-> x == y.
Proof. apply Qeq_bool_iff. Qed.

Lemma tf_equal_false x y : tf_equal x y = false <-> ~ x == y.
Proof.
  rewrite <- tf_equal_true. destruct (tf_equal x y); split; congruence.
Qed.

(** C2.  In the output of [reconstruct_bilinear_interp], a pixel whose target
    depth is zero is black on its three channels, whatever the source image
    and the warp coordinates are. *)
Theorem zero_depth_pixel_is_black :
  forall (n_batch n_src height width : nat) (pixel_coords : tensor4)
         (img : list (list image)) (depth : tensor3) (b s r c : nat) (d : Q),
    shape4 n_batch n_src 3 (height * width) pixel_coords ->
    shape4 n_batch n_src height width img ->
    shape3 n_batch height width depth ->
    (b < n_batch)%nat -> (s < n_src)%nat -> (r < height)%nat -> (c < width)%nat ->
    at3 depth b r c = Some d -> d == 0 ->
    at4 (reconstruct_bilinear_interp pixel_coords img depth) b s r c = Some px_zero.
Proof.
  intros B S H W coords img depth b s r c d Hco Himg Hdep Hb Hs Hr Hc Hd Hd0.
  assert (Hk : (r * W + c < H * W)%nat) by nia.
  destruct (shape4_at4 _ _ _ _ _ b s 0%nat _ Hco Hb Hs ltac:(lia) Hk) as [u Hu].
  destruct (shape4_at4 _ _ _ _ _ b s 1%nat _ Hco Hb Hs ltac:(lia) Hk) as [v Hv].
  destruct (shape4_lookup _ _ _ _ _ b s Himg Hb Hs) as (view & Hview & _).
  destruct (shape3_lookup _ _ _ _ b Hdep Hb) as (dmap & Hdmap & Hdm).
  assert (Hhw : image_hw img = (H, W)) by (apply (image_hw_shape B S); auto; lia).
  unfold at3, at2 in Hd. rewrite Hdmap in Hd. simpl in Hd.
  rewrite (reconstruct_lookup H W coords img depth b s r c u v view dmap d); auto.
  apply tf_equal_true in Hd0. by rewrite Hd0.
Qed.

(** C10.  [erase_invalid_pixels] leaves a pixel as it is wherever the target
    depth is not zero. *)
Theorem erase_keeps_nonzero_depth :
  forall (n_batch height width : nat) (flat_image : list (list (list pixel)))
         (depth : tensor3) (b s r c : nat) (d : Q) (px : pixel),
    shape3 n_batch height width depth -> (c < width)%nat ->
    at3 depth b r c = Some d -> ~ d == 0 ->
    at3 flat_image b s (r * width + c) = Some px ->
    at3 (erase_invalid_pixels flat_image depth) b s (r * width + c) = Some px.
Proof.
  intros B H W flat depth b s r c d px Hdep Hc Hd Hd0 Hpx.
  unfold at3 at 1 in Hd. unfold at2 in Hd.
  destruct (depth !! b) as [dmap|] eqn:Hdmap; simpl in Hd; [|done].
  assert (Hdm : shape2 H W dmap).
  { destruct Hdep as [_ Hall]. by apply (Forall_lookup_1 _ _ _ _ Hall Hdmap). }
  change (at2 dmap r c = Some d) in Hd.
  rewrite <- (depth_flat_lookup _ _ _ _ _ Hdm Hc) in Hd.
  rewrite (erase_invalid_pixels_lookup _ _ _ _ _ _ _ _ Hdmap Hd Hpx).
  apply tf_equal_false in Hd0. by rewrite Hd0.
Qed.

Lemma zero_depth_pixel_is_black_witness :
  at4 (reconstruct_bilinear_interp demo_coords demo_img demo_depth) 0 0 0 0
  = Some px_zero.
Proof.
  apply (zero_depth_pixel_is_black 1 1 2 2 demo_coords demo_img demo_depth 0 0 0 0 0);
    try lia; try reflexivity; repeat (split || constructor).
Defined.

Lemma erase_keeps_nonzero_depth_witness :
  at3 (erase_invalid_pixels [[ [Px 1 1 1; Px 2 2 2; Px 3 3 3; Px 4 4 4] ]] demo_depth)
      0 0 (0 * 2 + 1) = Some (Px 2 2 2).
Proof.
  apply (erase_keeps_nonzero_depth 1 2 2 _ demo_depth 0 0 0 1 5);
    try lia; try reflexivity; try (repeat (split || constructor)); try discriminate.
Defined.

(** *** Floor and clamp at one coordinate *)

Ltac clip_cases :=
  unfold floor_clip, ceil_clip, clip_by_value in *;
  repeat match goal with
  | |- context [Qmax ?a ?b] =>
      lazymatch goal with
      | _ : Qmax a b == _ |- _ => fail
      | _ => destruct (Q.max_spec a b) as [[? ?]|[? ?]]
      end
  | |- context [Qmin ?a ?b] =>
      lazymatch goal with
      | _ : Qmin a b == _ |- _ => fail
      | _ => destruct (Q.min_spec a b) as [[? ?]|[? ?]]
      end
  end.

Lemma valid_axis_unclamped n x :
  floor_clip n x + 1 == ceil_clip n x ->
  floor_clip n x == tf_floor x /\ ceil_clip n x == tf_floor x + 1.
Proof.
  clip_cases; intros; split; lra.
Qed.

Lemma tf_floor_le x : tf_floor x <= x.
Proof. apply Qfloor_le. Qed.

Lemma tf_floor_lt x : x < tf_floor x + 1.
Proof.
  unfold tf_floor. pose proof (Qlt_floor x) as H.
  rewrite inject_Z_plus in H. exact H.
Qed.

(** An integer bound below a coordinate is below its floor. *)
Lemma tf_floor_ge_int (z : Z) x : inject_Z z <= x -> inject_Z z <= tf_floor x.
Proof.
  intros H. unfold tf_floor. rewrite <- Zle_Qle.
  rewrite <- (Qfloor_Z z). by apply Qfloor_resp_le.
Qed.

(** A negative coordinate has its floor at most -1. *)
Lemma tf_floor_neg x : x < 0 -> tf_floor x + 1 <= 0.
Proof.
  intros H. unfold tf_floor.
  assert (inject_Z (Qfloor x) < inject_Z 0) as Hlt.
  { apply Qle_lt_trans with x; [apply Qfloor_le|done]. }
  rewrite <- Zlt_Qlt in Hlt.
  assert (Qfloor x + 1 <= 0)%Z as Hle by lia.
  rewrite Zle_Qle, inject_Z_plus in Hle. exact Hle.
Qed.

Lemma clamped_axis_invalid n x :
  x < 0 \/ dim_minus_1 n <= x -> ~ floor_clip n x + 1 == ceil_clip n x.
Proof.
  intros Hx Heq.
  assert (x < 0 -> tf_floor x + 1 <= 0) by apply tf_floor_neg.
  assert (dim_minus_1 n <= x -> dim_minus_1 n <= tf_floor x)
    by apply tf_floor_ge_int.
  pose proof (tf_floor_le x). revert Heq.
  clip_cases; intros; destruct Hx; lra.
Qed.

Lemma valid_at_true height width u v :
  valid_at height width u v = true <->
  floor_clip width u + 1 == ceil_clip width u /\
  floor_clip height v + 1 == ceil_clip height v.
Proof.
  unfold valid_at. by rewrite andb_true_iff, !tf_equal_true.
Qed.

Lemma weight_at_invalid height width u v j :
  valid_at height width u v = false -> weight_at height width u v j == 0.
Proof.
  intros Hv. unfold weight_at. rewrite Hv. simpl.
  destruct j as [|[|[|j]]]; ring.
Qed.

Lemma weight_at_sum height width u v :
  weight_at height width u v 0 + weight_at height width u v 1
  + weight_at height width u v 2 + weight_at height width u v 3
  == cast_float (valid_at height width u v).
Proof.
  destruct (valid_at height width u v) eqn:Hv.
  - apply valid_at_true in Hv as [Hu Hv'].
    unfold weight_at.
    assert (valid_at height width u v = true) as ->
      by (by apply valid_at_true).
    simpl. 
    rewrite <- Hu, <- Hv'. ring.
  - rewrite !weight_at_invalid by done. simpl. ring.
Qed.

Lemma weight_at_nonneg height width u v j :
  valid_at height width u v = true -> 0 <= weight_at height width u v j.
Proof.
  intros Hv. unfold weight_at. rewrite Hv.
  apply valid_at_true in Hv as [Hu Hv].
  apply valid_axis_unclamped in Hu as [Hu1 Hu2].
  apply valid_axis_unclamped in Hv as [Hv1 Hv2].
  pose proof (tf_floor_le u). pose proof (tf_floor_lt u).
  pose proof (tf_floor_le v). pose proof (tf_floor_lt v).
  destruct j as [|[|[|j]]]; simpl; rewrite Qmult_1_r;
    apply Qmult_le_0_compat; lra.
Qed.

Section resampler_tensors.
Variables (height width : nat) (pixel_coords : tensor4).
Variables (b s k : nat) (u v : Q).
Hypothesis Hu : at4 pixel_coords b s 0 k = Some u.
Hypothesis Hv : at4 pixel_coords b s 1 k = Some v.

Let pixel_floorceil := neighbor_int_pixels pixel_coords height width.
Let valid_mask := make_valid_mask pixel_floorceil.
Let weights := calc_neighbor_weights pixel_coords pixel_floorceil valid_mask.

Lemma coords_rows :
  exists pc urow vrow,
    at2 pixel_coords b s = Some pc /\ pc !! 0%nat = Some urow /\
    pc !! 1%nat = Some vrow /\ urow !! k = Some u /\ vrow !! k = Some v.
Proof.
  apply at4_Some in Hu as (pc & urow & Hpc & Hu0 & Hu').
  apply at4_Some in Hv as (pc' & vrow & Hpc' & Hv0 & Hv').
  rewrite Hpc in Hpc'. injection Hpc' as <-. eauto 10.
Qed.

Lemma neighbor_int_pixels_lookup :
  at4 pixel_floorceil b s 0 k = Some (floor_clip width u) /\
  at4 pixel_floorceil b s 1 k = Some (ceil_clip width u) /\
  at4 pixel_floorceil b s 2 k = Some (floor_clip height v) /\
  at4 pixel_floorceil b s 3 k = Some (ceil_clip height v).
Proof.
  destruct coords_rows as (pc & urow & vrow & Hpc & Hu0 & Hv0 & Hu' & Hv').
  unfold pixel_floorceil, neighbor_int_pixels, at4, at3.
  rewrite at2_per_view, Hpc. cbn -[neighbor_int_pixels1].
  rewrite (neighbor_int_pixels1_rows _ _ _ _ _ Hu0 Hv0). simpl.
  rewrite !list_lookup_fmap, Hu', Hv'. done.
Qed.

Lemma make_valid_mask_lookup :
  at4 valid_mask b s 0 k = Some (cast_float (valid_at height width u v)).
Proof.
  destruct coords_rows as (pc & urow & vrow & Hpc & Hu0 & Hv0 & Hu' & Hv').
  unfold valid_mask, make_valid_mask, pixel_floorceil, neighbor_int_pixels, at4, at3.
  rewrite !at2_per_view, Hpc. cbn -[neighbor_int_pixels1 make_valid_mask1].
  rewrite (neighbor_int_pixels1_rows _ _ _ _ _ Hu0 Hv0).
  by apply make_valid_mask1_lookup.
Qed.

Lemma calc_neighbor_weights_lookup j :
  (j < 4)%nat -> at4 weights b s j k = Some (weight_at height width u v j).
Proof.
  intros Hj.
  destruct coords_rows as (pc & urow & vrow & Hpc & Hu0 & Hv0 & Hu' & Hv').
  unfold weights, calc_neighbor_weights, valid_mask, make_valid_mask,
    pixel_floorceil, neighbor_int_pixels, at4, at3.
  rewrite at2_per_view3, !at2_per_view, Hpc.
  cbn -[neighbor_int_pixels1 make_valid_mask1 calc_neighbor_weights1].
  by apply calc_neighbor_weights1_lookup with urow vrow.
Qed.
End resampler_tensors.

Lemma valid_at_unclamped height width u v :
  valid_at height width u v = true <->
  (floor_clip width u == tf_floor u /\ ceil_clip width u == tf_floor u + 1) /\
  (floor_clip height v == tf_floor v /\ ceil_clip height v == tf_floor v + 1).
Proof.
  rewrite valid_at_true. split.
  - intros [Hu Hv]. split; by apply valid_axis_unclamped.
  - intros [[-> ->] [-> ->]]. split; reflexivity.
Qed.



(** *** Coordinates strictly inside the image *)

Lemma clip_by_value_inside x lo hi : lo <= x -> x <= hi -> clip_by_value x lo hi = x.
Proof.
  intros Hlo Hhi. unfold clip_by_value, Qmax, Qmin, GenericMinMax.gmax, GenericMinMax.gmin.
  destruct (Qcompare_spec x hi) as [E|E|E]; try lra;
    destruct (Qcompare_spec x lo) as [E'|E'|E']; try lra; try done.
Qed.

Lemma dim_minus_1_le (i n : nat) : (i < n)%nat -> inject_Z (Z.of_nat i) <= dim_minus_1 n.
Proof. intros H. unfold dim_minus_1. rewrite <- Zle_Qle. lia. Qed.

Lemma inject_nat_nonneg (i : nat) : 0 <= inject_Z (Z.of_nat i).
Proof. change 0 with (inject_Z 0). rewrite <- Zle_Qle. lia. Qed.

Lemma inject_Z_succ (i : nat) :
  inject_Z (Z.of_nat i) + 1 = inject_Z (Z.of_nat (i + 1)).
Proof.
  unfold Qplus, inject_Z. simpl. f_equal. lia.
Qed.

Section interior.
Variables (n i : nat) (x : Q).
Hypothesis Hfl : Qfloor x = Z.of_nat i.
Hypothesis Hin : (i + 1 < n)%nat.

Lemma floor_clip_interior : floor_clip n x = inject_Z (Z.of_nat i).
Proof.
  unfold floor_clip, tf_floor. rewrite Hfl.
  apply clip_by_value_inside; [apply inject_nat_nonneg|apply dim_minus_1_le; lia].
Qed.

Lemma ceil_clip_interior : ceil_clip n x = inject_Z (Z.of_nat (i + 1)).
Proof.
  unfold ceil_clip, tf_floor. rewrite Hfl, inject_Z_succ.
  apply clip_by_value_inside; [apply inject_nat_nonneg|apply dim_minus_1_le; lia].
Qed.

Lemma axis_interior_valid : tf_equal (floor_clip n x + 1) (ceil_clip n x) = true.
Proof.
  rewrite floor_clip_interior, ceil_clip_interior, inject_Z_succ.
  by apply tf_equal_true.
Qed.
End interior.

Lemma cast_int32_nat (i : nat) : cast_int32 (inject_Z (Z.of_nat i)) = Z.of_nat i.
Proof. unfold cast_int32. simpl. apply Z.quot_1_r. Qed.

Lemma lookupZ_nat {A} (l : list A) (i : nat) : lookupZ l (Z.of_nat i) = l !! i.
Proof.
  unfold lookupZ. destruct (Z.ltb_spec (Z.of_nat i) 0); [lia|]. by rewrite Nat2Z.id.
Qed.

Lemma gather_px_nat (view : image) (r c : nat) p :
  at2 view r c = Some p ->
  gather_px view (inject_Z (Z.of_nat r)) (inject_Z (Z.of_nat c)) = p.
Proof.
  unfold at2, gather_px. intros H. rewrite !cast_int32_nat, lookupZ_nat.
  destruct (view !! r) as [row|]; simpl in *; [|done].
  by rewrite lookupZ_nat, H.
Qed.

Lemma gather_px_interior (view : image) n m (i j : nat) x y :
  Qfloor x = Z.of_nat i -> Qfloor y = Z.of_nat j -> (i + 1 < n)%nat -> (j + 1 < m)%nat ->
  gather_px view (floor_clip n x) (floor_clip m y)
    = gather_px view (inject_Z (Z.of_nat i)) (inject_Z (Z.of_nat j)) /\
  gather_px view (ceil_clip n x) (floor_clip m y)
    = gather_px view (inject_Z (Z.of_nat (i + 1))) (inject_Z (Z.of_nat j)) /\
  gather_px view (floor_clip n x) (ceil_clip m y)
    = gather_px view (inject_Z (Z.of_nat i)) (inject_Z (Z.of_nat (j + 1))) /\
  gather_px view (ceil_clip n x) (ceil_clip m y)
    = gather_px view (inject_Z (Z.of_nat (i + 1))) (inject_Z (Z.of_nat (j + 1))).
Proof.
  intros Hx Hy Hi Hj.
  by rewrite (floor_clip_interior n i x Hx Hi), (floor_clip_interior m j y Hy Hj),
    (ceil_clip_interior n i x Hx Hi), (ceil_clip_interior m j y Hy Hj).
Qed.

(** Inside the image the resampler is the bilinear blend of the four
    neighbours of the coordinate. *)
Lemma interp_at_interior (view : image) height width u v (cu rv : nat) :
  Qfloor u = Z.of_nat cu -> Qfloor v = Z.of_nat rv ->
  (cu + 1 < width)%nat -> (rv + 1 < height)%nat ->
  px_eq (interp_at view height width u v)
        (bilinear_blend
           (gather_px view (inject_Z (Z.of_nat rv)) (inject_Z (Z.of_nat cu)))
           (gather_px view (inject_Z (Z.of_nat (rv + 1))) (inject_Z (Z.of_nat cu)))
           (gather_px view (inject_Z (Z.of_nat rv)) (inject_Z (Z.of_nat (cu + 1))))
           (gather_px view (inject_Z (Z.of_nat (rv + 1))) (inject_Z (Z.of_nat (cu + 1))))
           (u - inject_Z (Z.of_nat cu)) (v - inject_Z (Z.of_nat rv))).
Proof.
  intros Hu Hv Hcu Hrv.
  destruct (gather_px_interior view height width rv cu v u Hv Hu Hrv Hcu)
    as (G1 & G2 & G3 & G4).
  unfold interp_at, weight_at, valid_at.
  rewrite G1, G2, G3, G4.
  rewrite !(axis_interior_valid width cu u Hu Hcu),
    !(axis_interior_valid height rv v Hv Hrv).
  rewrite !(floor_clip_interior width cu u Hu Hcu),
    !(floor_clip_interior height rv v Hv Hrv),
    !(ceil_clip_interior width cu u Hu Hcu),
    !(ceil_clip_interior height rv v Hv Hrv).
  rewrite <- !inject_Z_succ.
  unfold px_eq, bilinear_blend, px_add, px_scale, px_map2, px_map.
  cbn [ch0 ch1 ch2 cast_float andb]. split_and!; ring.
Qed.

Lemma Qfloor_unique (z : Z) x : inject_Z z <= x -> x < inject_Z z + 1 -> Qfloor x = z.
Proof.
  intros Hlo Hhi.
  pose proof (tf_floor_ge_int z x Hlo) as H1. unfold tf_floor in H1.
  rewrite <- Zle_Qle in H1.
  assert (inject_Z (Qfloor x) < inject_Z (z + 1)) as H2.
  { rewrite inject_Z_plus. apply Qle_lt_trans with x; [apply Qfloor_le|done]. }
  rewrite <- Zlt_Qlt in H2. lia.
Qed.

Lemma interp_at_invalid (view : image) height width u v :
  valid_at height width u v = false ->
  px_eq (interp_at view height width u v) px_zero.
Proof.
  intros Hv. unfold interp_at, px_eq, px_add, px_scale, px_map2, px_map.
  cbn [ch0 ch1 ch2 px_zero].
  rewrite !(weight_at_invalid _ _ _ _ _ Hv). split_and!; ring.
Qed.

Lemma px_eq_refl p : px_eq p p.
Proof. unfold px_eq. split_and!; reflexivity. Qed.

Lemma px_eq_sym p q : px_eq p q -> px_eq q p.
Proof. unfold px_eq. intros (?&?&?). split_and!; by symmetry. Qed.

Lemma px_eq_trans p q r : px_eq p q -> px_eq q r -> px_eq p r.
Proof.
  unfold px_eq. intros (?&?&?) (?&?&?). split_and!; etransitivity; eauto.
Qed.

Lemma bilinear_blend_origin p_ff p_fc p_cf p_cc fu fv :
  fu == 0 -> fv == 0 -> px_eq (bilinear_blend p_ff p_fc p_cf p_cc fu fv) p_ff.
Proof.
  intros Hu Hv. unfold px_eq, bilinear_blend, px_add, px_scale, px_map2, px_map.
  cbn [ch0 ch1 ch2]. rewrite Hu, Hv. split_and!; ring.
Qed.

Lemma bilinear_blend_midpoint p_ff p_fc p_cf p_cc fu fv :
  fu == 1 # 2 -> fv == 1 # 2 ->
  px_eq (bilinear_blend p_ff p_fc p_cf p_cc fu fv) (px_average4 p_ff p_fc p_cf p_cc).
Proof.
  intros Hu Hv.
  unfold px_eq, bilinear_blend, px_average4, px_add, px_scale, px_map2, px_map.
  cbn [ch0 ch1 ch2]. rewrite Hu, Hv. split_and!; field.
Qed.



(** C7.  [scale_intrinsic] divides every entry of the first two rows by the
    scale, so that the top-left 2x2 block is 1/scale times that of the
    input, and its third row is [0 0 1]. *)
Theorem scale_intrinsic_rows :
  forall (intrinsic : tensor3) (scale b : nat) (k : tensor2),
    (0 < scale)%nat ->
    intrinsic !! b = Some k -> shape2 3 3 k ->
    exists k',
      scale_intrinsic intrinsic scale !! b = Some k' /\
      shape2 3 3 k' /\
      k' !! 2%nat = Some [0; 0; 1] /\
      (forall i j x, (i < 2)%nat -> at2 k i j = Some x ->
         exists y, at2 k' i j = Some y /\
                   y = x / inject_Z (Z.of_nat scale) /\
                   y == (1 / inject_Z (Z.of_nat scale)) * x).
Proof.
  intros intrinsic scale b k Hs Hk [Hlen Hrows].
  destruct k as [|r0 [|r1 [|r2 [|]]]]; try discriminate.
  apply Forall_cons in Hrows as [H0 Hrows]. apply Forall_cons in Hrows as [H1 Hrows].
  apply Forall_cons in Hrows as [H2 _].
  unfold scale_intrinsic.
  rewrite lookup_zip_with, !list_lookup_fmap, Hk.
  rewrite lookup_replicate_2 by (by apply lookup_lt_Some in Hk).
  cbn [fmap option_fmap option_map mbind option_bind take list_fmap app].
  eexists. split; [reflexivity|]. split_and!.
  - split; [done|]. repeat constructor; by rewrite ?length_fmap.
  - done.
  - intros i j x Hi Hx. unfold at2 in *.
    destruct i as [|[|i]]; [| |lia]; simpl in *;
      rewrite list_lookup_fmap, Hx; simpl; eexists; split_and!; try done;
      field; (change 0 with (inject_Z 0); rewrite inject_Z_injective; lia).
Qed.

Lemma scale_intrinsic_rows_witness :
  exists k',
    scale_intrinsic [[[50; 0; 32]; [0; 50; 32]; [0; 0; 1]]] 2 !! 0%nat = Some k' /\
    k' !! 2%nat = Some [0; 0; 1].
Proof.
  destruct (scale_intrinsic_rows [[[50; 0; 32]; [0; 50; 32]; [0; 0; 1]]] 2 0
              [[50; 0; 32]; [0; 50; 32]; [0; 0; 1]]) as (k' & Hk & _ & H2 & _).
  - lia.
  - reflexivity.
  - split; [reflexivity|]. repeat constructor.
  - exists k'. by split.
Defined.

(** *** Images, pixel by pixel *)

Lemma at2_img_map f (x : image) r c :
  at2 (img_map f x) r c = px_map f <$> at2 x r c.
Proof.
  unfold at2, img_map. rewrite list_lookup_fmap.
  destruct (x !! r) as [row|]; simpl; [|done]. by rewrite list_lookup_fmap.
Qed.

Lemma at2_zip_with2 {A B C} (f : A -> B -> C) (x : list (list A)) (y : list (list B)) r c :
  at2 (zip_with (zip_with f) x y) r c = p ← at2 x r c; q ← at2 y r c; Some (f p q).
Proof. apply (at2_per_view2 f). Qed.

Lemma at2_img_map2 f (x y : image) r c :
  at2 (img_map2 f x y) r c = p ← at2 x r c; q ← at2 y r c; Some (px_map2 f p q).
Proof. apply at2_zip_with2. Qed.

Lemma at2_where_zero mask (x : image) r c :
  at2 (where_zero mask x) r c =
  m ← at2 mask r c; p ← at2 x r c; Some (if m : bool then px_zero else p).
Proof. apply at2_zip_with2. Qed.

Lemma at2_error_mask_of (x : image) r c :
  at2 (error_mask_of x) r c = (fun p => tf_equal (reduce_mean_channels p) 0) <$> at2 x r c.
Proof.
  unfold at2, error_mask_of. rewrite list_lookup_fmap.
  destruct (x !! r) as [row|]; simpl; [|done]. by rewrite list_lookup_fmap.
Qed.

Lemma at2_average_pool (x : image) r c :
  at2 (average_pool x) r c = (fun _ => px_mean (window x r c)) <$> at2 x r c.
Proof.
  unfold at2, average_pool. rewrite list_lookup_imap.
  destruct (x !! r) as [row|]; simpl; [|done]. by rewrite list_lookup_imap.
Qed.

(** *** Sums *)

Lemma Qsum_zero (l : list Q) : Forall (fun x => x == 0) l -> Qsum l == 0.
Proof.
  induction 1 as [|x l Hx _ IH]; simpl; [reflexivity|]. rewrite Hx, IH. ring.
Qed.

Lemma reduce_mean_hwc_zero (x : image) :
  (forall r c p, at2 x r c = Some p -> px_eq p px_zero) -> reduce_mean_hwc x == 0.
Proof.
  intros Hall. unfold reduce_mean_hwc.
  rewrite Qsum_zero; [unfold Qdiv; ring|].
  apply Forall_fmap, Forall_lookup. intros i p Hp.
  apply join_lookup_Some in Hp as (r & row & c & Hr & Hc & _).
  destruct (Hall r c p) as (E0 & E1 & E2).
  { unfold at2. by rewrite Hr. }
  unfold px_total. simpl in *. rewrite E0, E1, E2. ring.
Qed.

Lemma at2_Forall2 {A B} (R : A -> B -> Prop) (x : list (list A)) (y : list (list B)) r c p q :
  Forall2 (Forall2 R) x y -> at2 x r c = Some p -> at2 y r c = Some q -> R p q.
Proof.
  unfold at2. intros HF Hp Hq.
  destruct (x !! r) as [rx|] eqn:Ex; simpl in Hp; [|done].
  destruct (y !! r) as [ry|] eqn:Ey; simpl in Hq; [|done].
  pose proof (Forall2_lookup_lr _ _ _ _ _ _ HF Ex Ey) as Hrow.
  by apply (Forall2_lookup_lr _ _ _ _ _ _ Hrow Hp Hq).
Qed.

Lemma loss_lookup (f : image -> image -> Q) (synt : list (list image)) (orig : list image)
    b s sv ov :
  at2 synt b s = Some sv -> orig !! b = Some ov ->
  at2 (zip_with (fun (views : list image) (o : image) =>
                   (fun sy : image => f sy o) <$> views) synt orig) b s
  = Some (f sv ov).
Proof.
  unfold at2. intros Hs Ho. rewrite lookup_zip_with, Ho.
  destruct (synt !! b) as [views|]; simpl in *; [|done].
  by rewrite list_lookup_fmap, Hs.
Qed.

Lemma Qabs_diff_zero a b : a == b -> Qabs (a - b) == 0.
Proof.
  intros E. rewrite E. assert (b - b == 0) as -> by ring. reflexivity.
Qed.

Lemma photometric_loss_l1_view_equal (synt orig : image) :
  Forall2 (Forall2 px_eq) synt orig -> photometric_loss_l1_view synt orig == 0.
Proof.
  intros HF. unfold photometric_loss_l1_view. apply reduce_mean_hwc_zero.
  intros r c p. rewrite at2_where_zero, at2_error_mask_of, at2_img_map2.
  destruct (at2 synt r c) as [ps|] eqn:Es; simpl; [|done].
  destruct (at2 orig r c) as [po|] eqn:Eo; simpl; [|done].
  intros [= <-]. destruct (tf_equal _ _); [apply px_eq_refl|].
  destruct (at2_Forall2 _ _ _ _ _ _ _ HF Es Eo) as (E0 & E1 & E2).
  unfold px_eq. simpl. split_and!; by apply Qabs_diff_zero.
Qed.

(** *** Channels and local means *)

Lemma px_eq_chan p q : px_eq p q <-> forall k, chan k p == chan k q.
Proof.
  unfold px_eq. split.
  - intros (?&?&?) [| |]; done.
  - intros H. split_and!; [apply (H C0)|apply (H C1)|apply (H C2)].
Qed.

Lemma chan_px_sum k (l : list pixel) : chan k (px_sum l) == Qsum (chan k <$> l).
Proof.
  induction l as [|p l IH]; [by destruct k|].
  simpl. rewrite <- IH. destruct k; reflexivity.
Qed.

Lemma chan_px_mean k (l : list pixel) :
  chan k (px_mean l) == Qsum (chan k <$> l) / inject_Z (Z.of_nat (length l)).
Proof.
  unfold px_mean. rewrite <- chan_px_sum. destruct k; reflexivity.
Qed.

Lemma Qsum_Forall2 (l l' : list Q) : Forall2 Qeq l l' -> Qsum l == Qsum l'.
Proof.
  induction 1 as [|x y l l' Hxy _ IH]; simpl; [reflexivity|]. by rewrite Hxy, IH.
Qed.

Lemma px_mean_Forall2 (l l' : list pixel) :
  Forall2 px_eq l l' -> px_eq (px_mean l) (px_mean l').
Proof.
  intros HF. apply px_eq_chan. intros k. rewrite !chan_px_mean.
  rewrite (Forall2_length _ _ _ HF).
  rewrite (Qsum_Forall2 (chan k <$> l) (chan k <$> l')); [reflexivity|].
  apply Forall2_fmap. eapply Forall2_impl; [exact HF|].
  intros p q Hpq. by apply px_eq_chan.
Qed.

Lemma window_Forall2 {R : pixel -> pixel -> Prop} (x y : image) r c :
  Forall2 (Forall2 R) x y -> Forall2 R (window x r c) (window y r c).
Proof.
  intros HF. unfold window, window1. apply Forall2_join, Forall2_fmap.
  eapply Forall2_impl; [by apply Forall2_take, Forall2_drop|].
  intros w w' Hw. by apply Forall2_take, Forall2_drop.
Qed.

(** The square of a mean is at most the mean of the squares. *)
Lemma Qsum_shifted_squares (l : list Q) (a : Q) :
  0 <= Qsum ((fun x => x ^ 2) <$> l) - 2 * a * Qsum l
       + inject_Z (Z.of_nat (length l)) * a ^ 2.
Proof.
  induction l as [|x l IH].
  - simpl. ring_simplify. lra.
  - cbn [length fmap list_fmap Qsum foldr].
    change (foldr Qplus 0 ((fun x => x ^ 2) <$> l)) with (Qsum ((fun x => x ^ 2) <$> l)).
    change (foldr Qplus 0 l) with (Qsum l).
    rewrite Nat2Z.inj_succ. unfold Z.succ. rewrite inject_Z_plus.
    pose proof (Qsqr_nonneg (x - a)) as Hsq.
    assert ((x - a) ^ 2 == x ^ 2 - 2 * a * x + a ^ 2) as E by ring.
    rewrite E in Hsq.
    change (inject_Z 1) with 1. lra.
Qed.

Lemma Qsum_square_le (l : list Q) :
  Qsum l ^ 2 <= inject_Z (Z.of_nat (length l)) * Qsum ((fun x => x ^ 2) <$> l).
Proof.
  induction l as [|x l IH].
  - simpl. lra.
  - pose proof (Qsum_shifted_squares l x) as Hx.
    cbn [length fmap list_fmap Qsum foldr].
    change (foldr Qplus 0 ((fun x => x ^ 2) <$> l)) with (Qsum ((fun x => x ^ 2) <$> l)).
    change (foldr Qplus 0 l) with (Qsum l).
    rewrite Nat2Z.inj_succ. unfold Z.succ. rewrite inject_Z_plus.
    change (inject_Z 1) with 1.
    assert ((x + Qsum l) ^ 2 == x ^ 2 + 2 * x * Qsum l + Qsum l ^ 2) as -> by ring.
    set (n := inject_Z (Z.of_nat (length l))) in *.
    set (T := Qsum ((fun x => x ^ 2) <$> l)) in *.
    assert ((n + 1) * (x ^ 2 + T) == n * x ^ 2 + n * T + x ^ 2 + T) as -> by ring.
    lra.
Qed.

Lemma mean_square_le (l : list Q) :
  let n := inject_Z (Z.of_nat (length l)) in
  (Qsum l / n) ^ 2 <= Qsum ((fun x => x ^ 2) <$> l) / n.
Proof.
  intros n. pose proof (Qsum_square_le l) as Hle. fold n in Hle.
  destruct (Qeq_dec n 0) as [E|E].
  - unfold Qdiv. rewrite E. assert (/ 0 == 0) as -> by reflexivity.
    ring_simplify. lra.
  - assert (0 <= n) as Hn by apply inject_nat_nonneg.
    assert (0 < / n) as Hi by (apply Qinv_lt_0_compat; lra).
    assert (Qsum ((fun x => x ^ 2) <$> l) / n - (Qsum l / n) ^ 2
            == / n * / n * (n * Qsum ((fun x => x ^ 2) <$> l) - Qsum l ^ 2)) as E'
      by (field; done).
    assert (0 <= / n * / n * (n * Qsum ((fun x => x ^ 2) <$> l) - Qsum l ^ 2)).
    { apply Qmult_le_0_compat; [apply Qmult_le_0_compat; lra|lra]. }
    lra.
Qed.

Lemma clip_by_value_zero x : x == 0 -> clip_by_value x 0 1 == 0.
Proof. intros E. clip_cases; lra. Qed.

Lemma ssim_loss_at_equal mu_x mu_y ex2 ey2 exy :
  mu_x == mu_y -> ex2 == ey2 -> exy == ex2 -> mu_x ^ 2 <= ex2 ->
  ssim_loss_at mu_x mu_y ex2 ey2 exy == 0.
Proof.
  intros Em Ee Exy Hvar. unfold ssim_loss_at. apply clip_by_value_zero.
  rewrite <- Em, <- Ee, Exy.
  pose proof (Qsqr_nonneg mu_x) as Hsq.
  assert (0 < ssim_c1) as Hc1 by reflexivity.
  assert (0 < ssim_c2) as Hc2 by reflexivity.
  assert (~ mu_x ^ 2 + mu_x ^ 2 + ssim_c1 == 0) by lra.
  assert (~ ex2 - mu_x ^ 2 + (ex2 - mu_x ^ 2) + ssim_c2 == 0) by lra.
  field. split; done.
Qed.

Lemma Forall2_zip_with_l {A B C} (R : A -> B -> Prop) (S : C -> A -> Prop)
    (f : A -> B -> C) l k :
  (forall a b, R a b -> S (f a b) a) ->
  Forall2 R l k -> Forall2 S (zip_with f l k) l.
Proof. intros Hf. induction 1; simpl; constructor; auto. Qed.

Lemma img_map_Forall2 f (x y : image) :
  (forall a b, a == b -> f a == f b) ->
  Forall2 (Forall2 px_eq) x y -> Forall2 (Forall2 px_eq) (img_map f x) (img_map f y).
Proof.
  intros Hf HF. unfold img_map. apply Forall2_fmap.
  eapply Forall2_impl; [exact HF|]. intros r r' Hr. apply Forall2_fmap.
  eapply Forall2_impl; [exact Hr|]. intros p q (?&?&?).
  unfold px_eq. simpl. split_and!; by apply Hf.
Qed.

Lemma img_map_self f (x : image) :
  Forall2 (Forall2 (fun p q => p = px_map f q)) (img_map f x) x.
Proof.
  unfold img_map. apply Forall2_fmap_l, Forall_Forall2_diag, Forall_forall.
  intros row _. apply Forall2_fmap_l, Forall_Forall2_diag, Forall_forall. done.
Qed.

Lemma img_mult_square (x y : image) :
  Forall2 (Forall2 px_eq) x y ->
  Forall2 (Forall2 px_eq) (img_map2 Qmult x y) (img_map (fun a => a ^ 2) x).
Proof.
  intros HF. unfold img_map2, img_map. apply Forall2_fmap_r.
  eapply Forall2_zip_with_l; [|exact HF]. intros r r' Hr. apply Forall2_fmap_r.
  eapply Forall2_zip_with_l; [|exact Hr]. intros p q (E0 & E1 & E2).
  unfold px_eq. simpl. rewrite <- E0, <- E1, <- E2. split_and!; ring.
Qed.

Lemma Qsquare_comp a b : a == b -> a ^ 2 == b ^ 2.
Proof. by intros ->. Qed.

(** The local mean of the squares bounds the square of the local mean. *)
Lemma window_variance k (x : image) r c :
  chan k (px_mean (window x r c)) ^ 2
  <= chan k (px_mean (window (img_map (fun a => a ^ 2) x) r c)).
Proof.
  rewrite !chan_px_mean.
  pose proof (window_Forall2 _ _ r c (img_map_self (fun a => a ^ 2) x)) as HF.
  rewrite (Forall2_length _ _ _ HF).
  assert (chan k <$> window (img_map (fun a => a ^ 2) x) r c
          = (fun a => a ^ 2) <$> (chan k <$> window x r c)) as ->.
  { induction HF as [|p q l l' -> _ IH]; [done|].
    cbn [fmap list_fmap]. f_equal; [by destruct k|exact IH]. }
  rewrite <- (length_fmap (chan k) (window x r c)).
  apply mean_square_le.
Qed.

Lemma image_eq_sym (x y : image) :
  Forall2 (Forall2 px_eq) x y -> Forall2 (Forall2 px_eq) y x.
Proof.
  intros HF. apply Forall2_flip. eapply Forall2_impl; [exact HF|].
  intros r r' Hr. apply Forall2_flip. eapply Forall2_impl; [exact Hr|].
  intros p q. apply px_eq_sym.
Qed.

Lemma ssim_pixel_zero (x y : image) r c (k : channel) :
  Forall2 (Forall2 px_eq) x y ->
  ssim_loss_at (chan k (px_mean (window x r c)))
               (chan k (px_mean (window y r c)))
               (chan k (px_mean (window (img_map (fun a => a ^ 2) x) r c)))
               (chan k (px_mean (window (img_map (fun a => a ^ 2) y) r c)))
               (chan k (px_mean (window (img_map2 Qmult x y) r c))) == 0.
Proof.
  intros HF. apply ssim_loss_at_equal.
  - apply px_eq_chan, px_mean_Forall2. by apply window_Forall2.
  - apply px_eq_chan, px_mean_Forall2, window_Forall2, img_map_Forall2;
      [apply Qsquare_comp|done].
  - apply px_eq_chan, px_mean_Forall2, window_Forall2. by apply img_mult_square.
  - apply window_variance.
Qed.

Lemma photometric_loss_ssim_view_equal (synt orig : image) :
  Forall2 (Forall2 px_eq) synt orig -> photometric_loss_ssim_view synt orig == 0.
Proof.
  intros HF. apply image_eq_sym in HF.
  unfold photometric_loss_ssim_view. apply reduce_mean_hwc_zero.
  intros r c p.
  destruct (at2 synt r c) as [ps|] eqn:Es; destruct (at2 orig r c) as [po|] eqn:Eo;
    repeat (progress (rewrite ?at2_where_zero, ?at2_error_mask_of, ?at2_img_map,
                        ?at2_img_map2, ?at2_average_pool, ?Es, ?Eo;
                      cbn [mbind option_bind fmap option_fmap option_map]));
    try done.
  intros [= <-]. destruct (tf_equal _ _); [apply px_eq_refl|].
  apply px_eq_chan. intros k.
  pose proof (ssim_pixel_zero orig synt r c k HF) as Hz.
  destruct k; exact Hz.
Qed.



(** *** The L1 loss as a sum over the pixels *)

Lemma where_mask_zip (sv ov : image) :
  where_zero (error_mask_of sv) (img_map2 (fun a b => Qabs (a - b)) sv ov)
  = zip_with (zip_with (fun p q =>
      if tf_equal (reduce_mean_channels p) 0 then px_zero
      else px_map2 (fun a b => Qabs (a - b)) p q)) sv ov.
Proof.
  unfold where_zero, error_mask_of, img_map2.
  revert ov. induction sv as [|r sv IH]; intros [|r' ov]; simpl; try done.
  f_equal; [|apply IH]. clear.
  revert r'. induction r as [|p r IH]; intros [|q r']; simpl; try done.
  f_equal. apply IH.
Qed.

Lemma join_zip_with {A B C} (f : A -> B -> C) (x : list (list A)) (y : list (list B)) :
  Forall2 (fun r r' => length r = length r') x y ->
  mjoin (zip_with (zip_with f) x y) = zip_with f (mjoin x) (mjoin y).
Proof.
  induction 1 as [|r r' x y Hr _ IH]; simpl; [done|].
  by rewrite IH, zip_with_app.
Qed.

Lemma same_shape_rows {A B} n0 n1 (x : list (list A)) (y : list (list B)) :
  shape2 n0 n1 x -> shape2 n0 n1 y ->
  Forall2 (fun r r' => length r = length r') x y.
Proof.
  intros [Lx Hx] [Ly Hy]. apply Forall2_same_length_lookup_2; [congruence|].
  intros i r r' Hr Hr'.
  rewrite (Forall_lookup_1 _ _ _ _ Hx Hr), (Forall_lookup_1 _ _ _ _ Hy Hr'). done.
Qed.

Lemma length_join_shape {A} n0 n1 (x : list (list A)) :
  shape2 n0 n1 x -> length (mjoin x) = (n0 * n1)%nat.
Proof.
  intros [<- Hx]. induction Hx as [|r x Hr _ IH]; simpl; [done|].
  rewrite length_app, IH, Hr. done.
Qed.

Lemma Qsum_masked_errors (a b : list pixel) :
  Qsum (px_total <$> zip_with (fun p q =>
      if tf_equal (reduce_mean_channels p) 0 then px_zero
      else px_map2 (fun a b => Qabs (a - b)) p q) a b)
  == Qsum (zip_with masked_abs_error a b).
Proof.
  revert b. induction a as [|p a IH]; intros [|q b]; simpl; try reflexivity.
  rewrite IH. unfold masked_abs_error.
  destruct (tf_equal _ _); unfold px_total; simpl; ring.
Qed.

(** C4, as amended.  [photometric_loss_l1] is, per batch element and source
    frame, the sum of the absolute differences over the pixels that are not
    masked, divided by the number of all elements [height * width * 3]:
    a masked pixel adds nothing to the sum and still counts in the
    divisor. *)
Theorem photometric_loss_l1_divides_by_all :
  forall (synt_target : list (list image)) (orig_target : list image)
         (b s height width : nat) (synt orig : image),
    at2 synt_target b s = Some synt -> orig_target !! b = Some orig ->
    shape2 height width synt -> shape2 height width orig ->
    exists loss,
      at2 (photometric_loss_l1 synt_target orig_target) b s = Some loss /\
      loss == Qsum (zip_with masked_abs_error (mjoin synt) (mjoin orig))
              / inject_Z (Z.of_nat (height * width * 3)).
Proof.
  intros synt_target orig_target b s H W synt orig Hs Ho Hsv Hov.
  exists (photometric_loss_l1_view synt orig). split.
  - by apply (loss_lookup photometric_loss_l1_view).
  - unfold photometric_loss_l1_view, reduce_mean_hwc, num_elements.
    rewrite where_mask_zip.
    rewrite (join_zip_with _ _ _ (same_shape_rows _ _ _ _ Hsv Hov)).
    rewrite Qsum_masked_errors, length_zip_with.
    rewrite (length_join_shape _ _ _ Hsv), (length_join_shape _ _ _ Hov).
    rewrite Nat.min_id. reflexivity.
Qed.

Lemma photometric_loss_l1_divides_by_all_witness :
  exists loss,
    at2 (photometric_loss_l1 [[demo_synt]] [demo_orig]) 0 0 = Some loss /\
    loss == Qsum (zip_with masked_abs_error (mjoin demo_synt) (mjoin demo_orig))
            / inject_Z (Z.of_nat (1 * 2 * 3)).
Proof.
  apply (photometric_loss_l1_divides_by_all [[demo_synt]] [demo_orig] 0 0 1 2
           demo_synt demo_orig); try reflexivity; split; try reflexivity;
    repeat constructor.
Defined.

(** C4 as stated fails: with one of two pixels masked, the code divides the
    sum 6 of the errors by the 6 elements of both pixels and returns 1,
    where the mean over the unmasked pixel alone is 2. *)
Lemma photometric_loss_l1_counts_masked_pixels :
  exists loss,
    at2 (photometric_loss_l1 [[demo_synt]] [demo_orig]) 0 0 = Some loss /\
    loss == 1 /\
    l1_mean_over_unmasked demo_synt demo_orig == 2 /\
    ~ loss == l1_mean_over_unmasked demo_synt demo_orig.
Proof.
  eexists. split; [reflexivity|]. split_and!; [by vm_compute|by vm_compute|].
  vm_compute. discriminate.
Qed.

(** *** The pixel grid *)

Lemma linspace_lookup (n i : nat) :
  (i < n)%nat ->
  exists x, linspace 0 (inject_Z (Z.of_nat n - Z.of_nat 1)) n !! i = Some x /\
            x == inject_Z (Z.of_nat i).
Proof.
  intros Hi. destruct n as [|[|n]]; [lia| |].
  - destruct i; [|lia]. exists 0. split; [done|reflexivity].
  - unfold linspace. rewrite list_lookup_fmap, lookup_seq_lt by lia.
    eexists. split; [reflexivity|]. simpl Nat.add.
    set (m := S (S n)).
    assert (inject_Z (Z.of_nat m - Z.of_nat 1) == inject_Z (Z.of_nat (m - 1))) as ->.
    { apply inject_Z_injective. subst m. lia. }
    assert (~ inject_Z (Z.of_nat (m - 1)) == 0).
    { change 0 with (inject_Z 0). rewrite inject_Z_injective. subst m. lia. }
    field. done.
Qed.

Lemma length_linspace (start stop : Q) (n : nat) : length (linspace start stop n) = n.
Proof.
  destruct n as [|[|n]]; try done. unfold linspace.
  by rewrite length_fmap, length_seq.
Qed.

Lemma pixel_meshgrid_rows (height width : nat) :
  exists gu gv,
    pixel_meshgrid height width 1 = [gu; gv; replicate (height * width) 1] /\
    length gu = (height * width)%nat /\ length gv = (height * width)%nat /\
    forall r c, (r < height)%nat -> (c < width)%nat ->
      exists x y, gu !! (r * width + c)%nat = Some x /\ x == inject_Z (Z.of_nat c) /\
                  gv !! (r * width + c)%nat = Some y /\ y == inject_Z (Z.of_nat r).
Proof.
  unfold pixel_meshgrid. rewrite !Nat.div_1_r.
  set (v := linspace 0 (inject_Z (Z.of_nat height - Z.of_nat 1)) height).
  set (u := linspace 0 (inject_Z (Z.of_nat width - Z.of_nat 1)) width).
  assert (length u = width) as Lu by apply length_linspace.
  assert (length v = height) as Lv by apply length_linspace.
  assert (Forall (fun l : tensor1 => length l = width) ((fun _ : Q => u) <$> v)) as Fu.
  { apply Forall_fmap, Forall_forall. done. }
  assert (Forall (fun l : tensor1 => length l = width)
            ((fun y : Q => (fun _ : Q => y) <$> u) <$> v)) as Fv.
  { apply Forall_fmap, Forall_forall. intros y _. simpl. by rewrite length_fmap. }
  assert (length (mjoin ((fun _ : Q => u) <$> v)) = (height * width)%nat) as Lgu.
  { apply length_join_shape. split; [by rewrite length_fmap|done]. }
  assert (length (mjoin ((fun y : Q => (fun _ : Q => y) <$> u) <$> v))
          = (height * width)%nat) as Lgv.
  { apply length_join_shape. split; [by rewrite length_fmap|done]. }
  eexists _, _. split; [by rewrite Lgu|]. split_and!; try done.
  intros r c Hr Hc.
  destruct (linspace_lookup width c Hc) as (x & Hx & Ex).
  destruct (linspace_lookup height r Hr) as (y & Hy & Ey).
  fold u in Hx. fold v in Hy.
  exists x, y. split_and!; try done.
  - apply (join_lookup_Some_same_length' width); [done..|].
    exists u. by rewrite list_lookup_fmap, Hy.
  - apply (join_lookup_Some_same_length' width); [done..|].
    exists ((fun _ : Q => y) <$> u). by rewrite !list_lookup_fmap, Hy, ?Hx.
Qed.

(** *** The warp, view by view *)

Lemma warp_pixel_coords_view (tgt_depth : tensor3) (pose : tensor4) (intrinsic : tensor3)
    height width b s k kinv dmap p invs :
  mapM linalg_inv intrinsic = Some invs ->
  intrinsic !! b = Some k -> invs !! b = Some kinv ->
  tgt_depth !! b = Some dmap -> at2 pose b s = Some p ->
  exists coords,
    warp_pixel_coords tgt_depth pose intrinsic height width = Some coords /\
    at2 coords b s
    = Some (warp_view k kinv p (mjoin dmap) (pixel_meshgrid height width 1)).
Proof.
  intros Hinv Hk Hkinv Hd Hp.
  unfold warp_pixel_coords, pixel2cam. rewrite Hinv.
  cbn [mbind option_bind]. eexists. split; [reflexivity|].
  unfold at2 in *. unfold cam2pixel, transform_to_source.
  destruct (pose !! b) as [poses|] eqn:Hposes; simpl in Hp; [|done].
  rewrite !lookup_zip_with, !list_lookup_fmap, lookup_zip_with, !list_lookup_fmap.
  rewrite Hkinv, Hd, Hposes, Hk.
  cbn [mbind option_bind fmap option_fmap option_map].
  rewrite !list_lookup_fmap, Hp. done.
Qed.

(** *** Columns through the matrix operations *)

Lemma has_col_column m k vals : has_col m k vals -> column k m = vals.
Proof.
  unfold has_col, column. induction 1 as [|row v m vals Hv _ IH]; [done|].
  cbn [fmap list_fmap]. rewrite Hv. f_equal. exact IH.
Qed.

Lemma has_col_matmul (a m : tensor2) k vals :
  has_col m k vals -> (k < num_cols m)%nat ->
  has_col (matmul a m) k ((fun row : tensor1 => dot row vals) <$> a).
Proof.
  intros Hc Hk. unfold has_col, matmul. apply Forall2_fmap, Forall_Forall2_diag.
  apply Forall_forall. intros row _.
  rewrite list_lookup_fmap, lookup_seq_lt by done. simpl.
  by rewrite (has_col_column _ _ _ Hc).
Qed.

Lemma num_cols_matmul row a m : num_cols (matmul (row :: a) m) = num_cols m.
Proof. unfold num_cols at 1, matmul. simpl. by rewrite length_fmap, length_seq. Qed.

Lemma has_col_scale_rows (m : tensor2) k vals (d : tensor1) dk :
  has_col m k vals -> d !! k = Some dk ->
  has_col ((fun row : tensor1 => zip_with Qmult row d) <$> m) k
          ((fun v => v * dk) <$> vals).
Proof.
  intros Hc Hd. unfold has_col. apply Forall2_fmap.
  eapply Forall2_impl; [exact Hc|]. intros row v Hv. simpl.
  by rewrite lookup_zip_with, Hv, Hd.
Qed.

Lemma has_col_ones (m : tensor2) k vals n :
  has_col m k vals -> (k < n)%nat ->
  has_col (m ++ [replicate n 1]) k (vals ++ [1]).
Proof.
  intros Hc Hk. apply Forall2_app; [done|]. constructor; [|constructor].
  by apply lookup_replicate_2.
Qed.

Lemma has_col_divide (m : tensor2) k vals (sc : tensor1) s :
  has_col m k vals -> sc !! k = Some s ->
  has_col ((fun row : tensor1 => zip_with (fun x s => x / (s + scale_eps)) row sc) <$> m)
          k ((fun v => v / (s + scale_eps)) <$> vals).
Proof.
  intros Hc Hs. unfold has_col. apply Forall2_fmap.
  eapply Forall2_impl; [exact Hc|]. intros row v Hv. simpl.
  by rewrite lookup_zip_with, Hv, Hs.
Qed.

Lemma linalg_inv_Some a b c d e f g h i :
  ~ det3 [[a; b; c]; [d; e; f]; [g; h; i]] == 0 ->
  linalg_inv [[a; b; c]; [d; e; f]; [g; h; i]] =
  let dt := det3 [[a; b; c]; [d; e; f]; [g; h; i]] in
  Some [[(e * i - f * h) / dt; (c * h - b * i) / dt; (b * f - c * e) / dt];
        [(f * g - d * i) / dt; (a * i - c * g) / dt; (c * d - a * f) / dt];
        [(d * h - e * g) / dt; (b * g - a * h) / dt; (a * e - b * d) / dt]].
Proof.
  intros Hdet. unfold linalg_inv. apply tf_equal_false in Hdet.
  unfold tf_equal in Hdet. by rewrite Hdet.
Qed.

Lemma cam_coords_col (k0 k1 k2 : tensor1) (grid : tensor2) (dflat : tensor1) n kk gvals dk :
  has_col grid kk gvals -> num_cols grid = n -> length dflat = n ->
  dflat !! kk = Some dk -> (kk < n)%nat ->
  let cam := ((fun row : tensor1 => zip_with Qmult row dflat) <$> matmul [k0; k1; k2] grid)
             ++ [replicate (num_cols grid) 1] in
  has_col cam kk [dot k0 gvals * dk; dot k1 gvals * dk; dot k2 gvals * dk; 1] /\
  num_cols cam = n.
Proof.
  intros Hgrid Ngrid Ld Hdk Hkk cam. split.
  - pose proof (has_col_matmul [k0; k1; k2] grid kk _ Hgrid ltac:(lia)) as H0.
    pose proof (has_col_scale_rows _ _ _ dflat dk H0 Hdk) as H1.
    exact (has_col_ones _ _ _ (num_cols grid) H1 ltac:(lia)).
  - unfold cam, num_cols at 1, matmul. simpl.
    rewrite length_zip_with, length_fmap, length_seq. lia.
Qed.

Lemma projected_lookup (r0 r1 r2 : tensor1) (point : tensor2) kk pvals :
  column kk point = pvals -> (kk < num_cols point)%nat ->
  let pixel_coords := matmul [r0; r1; r2] point in
  let pixel_scales := slice_row 2 pixel_coords in
  let out := (fun row : tensor1 =>
                zip_with (fun x s => x / (s + scale_eps)) row pixel_scales)
             <$> pixel_coords in
  at2 out 0 kk = Some (dot r0 pvals / (dot r2 pvals + scale_eps)) /\
  at2 out 1 kk = Some (dot r1 pvals / (dot r2 pvals + scale_eps)).
Proof.
  intros Hcol Hkk. unfold at2, slice_row, matmul.
  cbn [fmap list_fmap lookup list_lookup mbind option_bind default from_option id].
  rewrite !lookup_zip_with, !list_lookup_fmap, !lookup_seq_lt by lia.
  cbn [fmap option_fmap option_map mbind option_bind Nat.add]. by rewrite Hcol.
Qed.

Lemma warp_view_identity_lookup a b c d e f g h i kinv gu gv dflat n kk x y dk :
  ~ det3 [[a; b; c]; [d; e; f]; [g; h; i]] == 0 ->
  linalg_inv [[a; b; c]; [d; e; f]; [g; h; i]] = Some kinv ->
  length gu = n -> length dflat = n ->
  gu !! kk = Some x -> gv !! kk = Some y -> dflat !! kk = Some dk ->
  0 < dk ->
  exists X Y,
    at2 (warp_view [[a; b; c]; [d; e; f]; [g; h; i]] kinv pose_identity dflat
           [gu; gv; replicate n 1]) 0 kk = Some X /\
    X == x * dk / (dk + scale_eps) /\
    at2 (warp_view [[a; b; c]; [d; e; f]; [g; h; i]] kinv pose_identity dflat
           [gu; gv; replicate n 1]) 1 kk = Some Y /\
    Y == y * dk / (dk + scale_eps).
Proof.
  intros Hdet Hinv Lu Ld Hx Hy Hdk Hpos.
  assert (kk < n)%nat as Hkk by (rewrite <- Lu; by apply lookup_lt_Some in Hx).
  rewrite (linalg_inv_Some _ _ _ _ _ _ _ _ _ Hdet) in Hinv. cbv zeta in Hinv.
  injection Hinv as <-.
  assert (has_col [gu; gv; replicate n 1] kk [x; y; 1]) as Hgrid.
  { repeat constructor; try done. by apply lookup_replicate_2. }
  unfold warp_view. cbv zeta.
  match goal with
  | |- context [matmul pose_identity ?cam] =>
      destruct (cam_coords_col
                  [(e * i - f * h) / det3 [[a; b; c]; [d; e; f]; [g; h; i]];
                   (c * h - b * i) / det3 [[a; b; c]; [d; e; f]; [g; h; i]];
                   (b * f - c * e) / det3 [[a; b; c]; [d; e; f]; [g; h; i]]]
                  [(f * g - d * i) / det3 [[a; b; c]; [d; e; f]; [g; h; i]];
                   (a * i - c * g) / det3 [[a; b; c]; [d; e; f]; [g; h; i]];
                   (c * d - a * f) / det3 [[a; b; c]; [d; e; f]; [g; h; i]]]
                  [(d * h - e * g) / det3 [[a; b; c]; [d; e; f]; [g; h; i]];
                   (b * g - a * h) / det3 [[a; b; c]; [d; e; f]; [g; h; i]];
                   (a * e - b * d) / det3 [[a; b; c]; [d; e; f]; [g; h; i]]]
                  _ dflat n kk _ dk Hgrid Lu Ld Hdk Hkk)
        as [Hcam Ncam'];
      assert (num_cols cam = n) as Ncam by exact Ncam';
      pose proof (has_col_matmul pose_identity cam kk _ Hcam ltac:(lia)) as Hsrc;
      assert (num_cols (take 3 (matmul pose_identity cam)) = n) as Npoint;
      [ unfold pose_identity, matmul, num_cols at 1;
        cbn [fmap list_fmap take lookup list_lookup default from_option id];
        rewrite length_fmap, length_seq; exact Ncam
      | pose proof (has_col_column _ _ _ (Forall2_take _ _ _ 3 Hsrc)) as Hcol;
        destruct (projected_lookup [a; b; c] [d; e; f] [g; h; i]
                    (take 3 (matmul pose_identity cam)) kk _ Hcol ltac:(lia))
          as [E0 E1] ]
  end.
  match type of E0 with
  | _ = Some (dot _ ?pv / _) =>
      assert (dot [a; b; c] pv == x * dk) as N0
        by (unfold dot, pose_identity; simpl; unfold det3 in *; field; done);
      assert (dot [d; e; f] pv == y * dk) as N1
        by (unfold dot, pose_identity; simpl; unfold det3 in *; field; done);
      assert (dot [g; h; i] pv == dk) as N2
        by (unfold dot, pose_identity; simpl; unfold det3 in *; field; done)
  end.
  eexists _, _. split_and!; [exact E0| |exact E1|]; by rewrite ?N0, ?N1, N2.
Qed.

Lemma at2_Some {A} (t : list (list A)) i k x :
  at2 t i k = Some x <-> exists row, t !! i = Some row /\ row !! k = Some x.
Proof.
  unfold at2. split.
  - destruct (t !! i) as [row|]; simpl; [|done]. eauto.
  - intros (row & -> & Hx). done.
Qed.

Lemma linalg_inv_is_Some (k : tensor2) :
  shape2 3 3 k -> ~ det3 k == 0 -> is_Some (linalg_inv k).
Proof.
  intros [Hlen Hrows] Hdet.
  destruct k as [|r0 [|r1 [|r2 [|]]]]; try discriminate.
  apply Forall_cons in Hrows as [H0 Hrows]. apply Forall_cons in Hrows as [H1 Hrows].
  apply Forall_cons in Hrows as [H2 _].
  destruct r0 as [|a [|b [|c [|]]]]; try discriminate.
  destruct r1 as [|d [|e [|f [|]]]]; try discriminate.
  destruct r2 as [|g [|h [|i [|]]]]; try discriminate.
  rewrite linalg_inv_Some by done. eauto.
Qed.

(** The warp coordinates under the identity pose and a constant depth [d]:
    the grid position scaled by [d / (d + scale_eps)]. *)
Lemma warp_identity_coords (n_batch height width : nat) (tgt_depth : tensor3)
    (pose : tensor4) (intrinsic : tensor3) (b s r c : nat) (d : Q) (dmap : tensor2) :
  length intrinsic = n_batch ->
  Forall (fun k => shape2 3 3 k /\ ~ det3 k == 0) intrinsic ->
  (b < n_batch)%nat -> (r < height)%nat -> (c < width)%nat ->
  tgt_depth !! b = Some dmap -> shape2 height width dmap ->
  Forall (Forall (fun x => x == d)) dmap -> 0 < d ->
  at2 pose b s = Some pose_identity ->
  exists coords X Y,
    warp_pixel_coords tgt_depth pose intrinsic height width = Some coords /\
    at4 coords b s 0 (r * width + c) = Some X /\
    X == inject_Z (Z.of_nat c) * d / (d + scale_eps) /\
    at4 coords b s 1 (r * width + c) = Some Y /\
    Y == inject_Z (Z.of_nat r) * d / (d + scale_eps).
Proof.
  intros Hlen Hall Hb Hr Hc Hd Hdm Hconst Hpos Hpose.
  destruct (lookup_lt_is_Some_2 intrinsic b) as [k Hk]; [lia|].
  destruct (Forall_lookup_1 _ _ _ _ Hall Hk) as [Hshape Hdet].
  destruct (mapM_is_Some_2 linalg_inv intrinsic) as [invs Hinvs].
  { eapply Forall_impl; [exact Hall|]. intros k' [? ?]. by apply linalg_inv_is_Some. }
  destruct (Forall2_lookup_l _ _ _ _ _ (mapM_Some_1 _ _ _ Hinvs) Hk) as (kinv & Hkinv & Ekinv).
  destruct (warp_pixel_coords_view tgt_depth pose intrinsic height width b s
              k kinv dmap pose_identity invs Hinvs Hk Hkinv Hd Hpose)
    as (coords & Hcoords & Hview).
  destruct (pixel_meshgrid_rows height width) as (gu & gv & Egrid & Lgu & Lgv & Hgrid).
  destruct (Hgrid r c Hr Hc) as (x & y & Hx & Ex & Hy & Ey).
  rewrite Egrid in Hview.
  assert (exists dk, mjoin dmap !! (r * width + c)%nat = Some dk /\ dk == d)
    as (dk & Hdk & Edk).
  { destruct (shape2_lookup _ _ _ r Hdm Hr) as (row & Hrow & Lrow).
    destruct (lookup_lt_is_Some_2 row c) as [dk Hdk]; [lia|].
    exists dk. split.
    - rewrite (depth_flat_lookup _ _ _ _ _ Hdm Hc). unfold at2. by rewrite Hrow.
    - pose proof (Forall_lookup_1 _ _ _ _ Hconst Hrow) as Hrowc.
      exact (Forall_lookup_1 _ _ _ _ Hrowc Hdk). }
  destruct Hshape as [Hl3 Hrows].
  destruct k as [|r0 [|r1 [|r2 [|]]]]; try discriminate.
  apply Forall_cons in Hrows as [H0 Hrows]. apply Forall_cons in Hrows as [H1 Hrows].
  apply Forall_cons in Hrows as [H2 _].
  destruct r0 as [|a0 [|b0 [|c0 [|]]]]; try discriminate.
  destruct r1 as [|d0 [|e0 [|f0 [|]]]]; try discriminate.
  destruct r2 as [|g0 [|h0 [|i0 [|]]]]; try discriminate.
  destruct (warp_view_identity_lookup a0 b0 c0 d0 e0 f0 g0 h0 i0 kinv gu gv
              (mjoin dmap) (height * width) (r * width + c) x y dk)
    as (X & Y & HX & EX & HY & EY); try done.
  { by apply (length_join_shape height width). }
  { by rewrite Edk. }
  exists coords, X, Y. split_and!; try done.
  - apply at4_Some. apply at2_Some in HX as (row & Hrow & HX). eauto.
  - by rewrite EX, Ex, Edk.
  - apply at4_Some. apply at2_Some in HY as (row & Hrow & HY). eauto.
  - by rewrite EY, Ey, Edk.
Qed.

Lemma scale_eps_pos : 0 < scale_eps.
Proof. reflexivity. Qed.

(** The perspective divide moves a grid position [c > 0] strictly below
    [c], and not below [c - 1] while [c * scale_eps <= d]. *)
Lemma floor_of_shrunk (c : nat) (d X : Q) :
  0 < d -> inject_Z (Z.of_nat c) * scale_eps <= d ->
  X == inject_Z (Z.of_nat c) * d / (d + scale_eps) ->
  Qfloor X = Z.of_nat (c - 1).
Proof.
  intros Hd Hc EX. pose proof scale_eps_pos as He.
  assert (0 < d + scale_eps) as HD by lra.
  assert (X * (d + scale_eps) == inject_Z (Z.of_nat c) * d) as EXD.
  { rewrite EX. field. lra. }
  destruct c as [|c].
  - apply Qfloor_unique; simpl; rewrite EX; unfold Qdiv; change (inject_Z 0) with 0;
      ring_simplify; lra.
  - replace (S c - 1)%nat with c by lia.
    assert (inject_Z (Z.of_nat (S c)) == inject_Z (Z.of_nat c) + 1) as EC.
    { rewrite Nat2Z.inj_succ. unfold Z.succ. by rewrite inject_Z_plus. }
    pose proof (inject_nat_nonneg c) as Hc0.
    rewrite EC in *.
    apply Qfloor_unique.
    + apply (Qmult_le_r _ _ (d + scale_eps)); [done|]. rewrite EXD.
      ring_simplify. ring_simplify in Hc. lra.
    + apply (Qmult_lt_r _ _ (d + scale_eps)); [done|]. rewrite EXD.
      ring_simplify.
      assert (0 <= inject_Z (Z.of_nat c) * scale_eps)
        by (apply Qmult_le_0_compat; lra).
      lra.
Qed.

Lemma bilinear_blend_comp p_ff p_fc p_cf p_cc fu fv fu' fv' :
  fu == fu' -> fv == fv' ->
  px_eq (bilinear_blend p_ff p_fc p_cf p_cc fu fv)
        (bilinear_blend p_ff p_fc p_cf p_cc fu' fv').
Proof.
  intros Eu Ev. unfold px_eq, bilinear_blend, px_add, px_scale, px_map2, px_map.
  cbn [ch0 ch1 ch2]. rewrite Eu, Ev. split_and!; reflexivity.
Qed.







(** *** Construction of the evaluators *)

Lemma PhotometricLossMultiScale_init_raises (method key_suffix : string) :
  method <> "L1"%string -> method <> "SSIM"%string ->
  PhotometricLossMultiScale_init method key_suffix =
  Raised (WrongInputException ("Wrong photometric loss name: " +:+ method)).
Proof.
  intros H1 H2. unfold PhotometricLossMultiScale_init.
  apply String.eqb_neq in H1, H2. by rewrite H1, H2.
Qed.

Lemma StereoDepthLoss_init_raises (method : string) :
  method <> "L1"%string -> method <> "SSIM"%string ->
  StereoDepthLoss_init method =
  Raised (WrongInputException ("Wrong photometric loss name: " +:+ method)).
Proof.
  intros H1 H2. unfold StereoDepthLoss_init.
  apply String.eqb_neq in H1, H2. by rewrite H1, H2.
Qed.

Lemma activation_factory_never_raises (activ_name : string) :
  exists a, activation_factory activ_name = Returned a.
Proof.
  unfold activation_factory.
  destruct (String.eqb activ_name "InverseSigmoid"); [eauto|].
  destruct (String.eqb activ_name "Exponential"); eauto.
Qed.

(** C8.  For an unknown activation name [activation_factory] raises nothing:
    it returns [None], where the two loss constructors raise
    [WrongInputException] for an unknown method. *)
Theorem activation_factory_unknown_returns_none :
  activation_factory "Tanh" = Returned None /\
  PhotometricLossMultiScale_init "Tanh" "" =
    Raised (WrongInputException "Wrong photometric loss name: Tanh") /\
  StereoDepthLoss_init "Tanh" =
    Raised (WrongInputException "Wrong photometric loss name: Tanh").
Proof. split_and!; reflexivity. Qed.

(** * Further properties of the resampler *)

(** The clamp of integers is an integer clamp. *)
Lemma clip_by_value_inject (a m : Z) :
  clip_by_value (inject_Z a) 0 (inject_Z m) = inject_Z (Z.max (Z.min a m) 0).
Proof.
  unfold clip_by_value, Qmax, Qmin, GenericMinMax.gmax, GenericMinMax.gmin.
  change 0 with (inject_Z 0).
  destruct (Qcompare_spec (inject_Z a) (inject_Z m)) as [E|E|E];
    [rewrite inject_Z_injective in E|rewrite <- Zlt_Qlt in E..];
    match goal with
    | |- context [Qcompare ?x ?y] =>
        destruct (Qcompare_spec x y) as [E'|E'|E'];
        [rewrite inject_Z_injective in E'|rewrite <- Zlt_Qlt in E'..]
    end; f_equal; lia.
Qed.

Lemma tf_floor_succ x : tf_floor x + 1 = inject_Z (Qfloor x + 1).
Proof. unfold tf_floor, Qplus, inject_Z. simpl. f_equal. lia. Qed.

Lemma floor_clip_int (n : nat) x :
  floor_clip n x = inject_Z (Z.max (Z.min (Qfloor x) (Z.of_nat n - 1)) 0).
Proof. unfold floor_clip, tf_floor, dim_minus_1. apply clip_by_value_inject. Qed.

Lemma ceil_clip_int (n : nat) x :
  ceil_clip n x = inject_Z (Z.max (Z.min (Qfloor x + 1) (Z.of_nat n - 1)) 0).
Proof.
  unfold ceil_clip, dim_minus_1. rewrite tf_floor_succ. apply clip_by_value_inject.
Qed.

Lemma cast_int32_inject (z : Z) : cast_int32 (inject_Z z) = z.
Proof. unfold cast_int32. simpl. apply Z.quot_1_r. Qed.

Lemma clamped_index (n : nat) (q : Z) :
  (0 < n)%nat ->
  exists i : nat, (i < n)%nat /\ Z.max (Z.min q (Z.of_nat n - 1)) 0 = Z.of_nat i.
Proof.
  intros Hn. exists (Z.to_nat (Z.max (Z.min q (Z.of_nat n - 1)) 0)). split; lia.
Qed.

Lemma sample_neighbor_images_lookup height width (coords : tensor4)
    (img : list (list image)) b s k u v view :
  at4 coords b s 0 k = Some u -> at4 coords b s 1 k = Some v ->
  at2 img b s = Some view ->
  let sampled := sample_neighbor_images img (neighbor_int_pixels coords height width) in
  at4 sampled b s 0 k = Some (gather_px view (floor_clip height v) (floor_clip width u)) /\
  at4 sampled b s 1 k = Some (gather_px view (ceil_clip height v) (floor_clip width u)) /\
  at4 sampled b s 2 k = Some (gather_px view (floor_clip height v) (ceil_clip width u)) /\
  at4 sampled b s 3 k = Some (gather_px view (ceil_clip height v) (ceil_clip width u)).
Proof.
  intros Hu Hv Hview sampled.
  destruct (coords_rows coords b s k u v Hu Hv)
    as (pc & urow & vrow & Hpc & Hu0 & Hv0 & Hu' & Hv').
  unfold sampled, sample_neighbor_images, neighbor_int_pixels, at4, at3.
  rewrite at2_per_view2, at2_per_view, Hview, Hpc.
  cbn -[neighbor_int_pixels1 sample_neighbor_images1].
  rewrite (neighbor_int_pixels1_rows _ _ _ _ _ Hu0 Hv0).
  unfold sample_neighbor_images1, slice_row.
  cbn [lookup list_lookup default from_option id mbind option_bind].
  by rewrite !(gather_nd_lookup view _ _ _ _ k v u Hv' Hu').
Qed.

(** X1.  For an image of at least one row and column, the clamped floor and
    ceil of every warp coordinate are integer positions inside the image,
    and the four samples of [sample_neighbor_images] are the image's own
    pixels at these positions: the gather never reads outside the image. *)
Theorem gather_reads_inside_image :
  forall (height width : nat) (pixel_coords : tensor4) (img : list (list image))
         (b s k : nat) (u v : Q) (view : image),
    (0 < height)%nat -> (0 < width)%nat ->
    at4 pixel_coords b s 0 k = Some u -> at4 pixel_coords b s 1 k = Some v ->
    at2 img b s = Some view -> shape2 height width view ->
    let pixel_floorceil := neighbor_int_pixels pixel_coords height width in
    let sampled := sample_neighbor_images img pixel_floorceil in
    exists (uf uc vf vc : nat) (p0 p1 p2 p3 : pixel),
      (uf <= uc < width)%nat /\ (vf <= vc < height)%nat /\
      at4 pixel_floorceil b s 0 k = Some (inject_Z (Z.of_nat uf)) /\
      at4 pixel_floorceil b s 1 k = Some (inject_Z (Z.of_nat uc)) /\
      at4 pixel_floorceil b s 2 k = Some (inject_Z (Z.of_nat vf)) /\
      at4 pixel_floorceil b s 3 k = Some (inject_Z (Z.of_nat vc)) /\
      at2 view vf uf = Some p0 /\ at4 sampled b s 0 k = Some p0 /\
      at2 view vc uf = Some p1 /\ at4 sampled b s 1 k = Some p1 /\
      at2 view vf uc = Some p2 /\ at4 sampled b s 2 k = Some p2 /\
      at2 view vc uc = Some p3 /\ at4 sampled b s 3 k = Some p3.
Proof.
  intros H W coords img b s k u v view HH HW Hu Hv Hview Hshape fc sampled.
  destruct (neighbor_int_pixels_lookup H W coords b s k u v Hu Hv)
    as (F0 & F1 & F2 & F3).
  destruct (sample_neighbor_images_lookup H W coords img b s k u v view Hu Hv Hview)
    as (S0 & S1 & S2 & S3).
  fold fc in F0, F1, F2, F3. fold fc sampled in S0, S1, S2, S3.
  rewrite floor_clip_int in F0. rewrite ceil_clip_int in F1.
  rewrite floor_clip_int in F2. rewrite ceil_clip_int in F3.
  rewrite !floor_clip_int in S0. rewrite floor_clip_int, ceil_clip_int in S1.
  rewrite floor_clip_int, ceil_clip_int in S2. rewrite !ceil_clip_int in S3.
  destruct (clamped_index W (Qfloor u) HW) as (uf & Huf & Euf).
  destruct (clamped_index W (Qfloor u + 1) HW) as (uc & Huc & Euc).
  destruct (clamped_index H (Qfloor v) HH) as (vf & Hvf & Evf).
  destruct (clamped_index H (Qfloor v + 1) HH) as (vc & Hvc & Evc).
  rewrite Euf in F0, S0, S1. rewrite Euc in F1, S2, S3.
  rewrite Evf in F2, S0, S2. rewrite Evc in F3, S1, S3.
  assert (forall r c, (r < H)%nat -> (c < W)%nat -> exists p, at2 view r c = Some p)
    as Hpx.
  { intros r c Hr Hc. destruct (shape2_lookup _ _ _ r Hshape Hr) as (row & Hrow & Hlen).
    destruct (lookup_lt_is_Some_2 row c) as [p Hp]; [lia|].
    exists p. unfold at2. by rewrite Hrow. }
  destruct (Hpx vf uf Hvf Huf) as [p0 P0]. destruct (Hpx vc uf Hvc Huf) as [p1 P1].
  destruct (Hpx vf uc Hvf Huc) as [p2 P2]. destruct (Hpx vc uc Hvc Huc) as [p3 P3].
  rewrite (gather_px_nat _ _ _ _ P0) in S0. rewrite (gather_px_nat _ _ _ _ P1) in S1.
  rewrite (gather_px_nat _ _ _ _ P2) in S2. rewrite (gather_px_nat _ _ _ _ P3) in S3.
  exists uf, uc, vf, vc, p0, p1, p2, p3. split_and!; try done; lia.
Qed.

Lemma gather_reads_inside_image_witness :
  exists (uf uc vf vc : nat) (p0 p3 : pixel),
    (uf <= uc < 2)%nat /\ (vf <= vc < 2)%nat /\
    at2 demo_view vf uf = Some p0 /\
    at4 (sample_neighbor_images demo_img (neighbor_int_pixels demo_coords 2 2))
        0 0 0 3 = Some p0 /\
    at2 demo_view vc uc = Some p3 /\
    at4 (sample_neighbor_images demo_img (neighbor_int_pixels demo_coords 2 2))
        0 0 3 3 = Some p3.
Proof.
  destruct (gather_reads_inside_image 2 2 demo_coords demo_img 0 0 3 1 1 demo_view)
    as (uf & uc & vf & vc & p0 & p1 & p2 & p3 & Hu & Hv & _ & _ & _ & _
        & P0 & S0 & _ & _ & _ & _ & P3 & S3);
    try lia; try reflexivity.
  { split; [reflexivity|repeat constructor]. }
  exists uf, uc, vf, vc, p0, p3. destruct Hu, Hv. by split_and!.
Defined.

Lemma gather_px_cases (view : image) (v u : Q) :
  gather_px view v u = px_zero \/
  exists r c, at2 view r c = Some (gather_px view v u).
Proof.
  unfold gather_px, lookupZ, at2.
  destruct (cast_int32 v <? 0)%Z; [by left|].
  destruct (view !! Z.to_nat (cast_int32 v)) as [row|] eqn:Hrow; [|by left].
  simpl. destruct (cast_int32 u <? 0)%Z; [by left|].
  destruct (row !! Z.to_nat (cast_int32 u)) as [p|] eqn:Hp; [|by left].
  right. exists (Z.to_nat (cast_int32 v)), (Z.to_nat (cast_int32 u)).
  rewrite Hrow. simpl. by rewrite Hp.
Qed.

Lemma chan_interp_at k (view : image) height width u v :
  chan k (interp_at view height width u v) =
  chan k (gather_px view (floor_clip height v) (floor_clip width u))
    * weight_at height width u v 0
  + chan k (gather_px view (ceil_clip height v) (floor_clip width u))
    * weight_at height width u v 1
  + chan k (gather_px view (floor_clip height v) (ceil_clip width u))
    * weight_at height width u v 2
  + chan k (gather_px view (ceil_clip height v) (ceil_clip width u))
    * weight_at height width u v 3.
Proof. by destruct k. Qed.

(** The resampled value stays in any range around zero that holds the
    image. *)
Lemma interp_at_range (view : image) height width u v lo hi k :
  lo <= 0 -> 0 <= hi ->
  (forall r c p, at2 view r c = Some p -> forall j, lo <= chan j p <= hi) ->
  lo <= chan k (interp_at view height width u v) <= hi.
Proof.
  intros Hlo Hhi Hview.
  assert (forall y x, lo <= chan k (gather_px view y x) <= hi) as Hg.
  { intros y x. destruct (gather_px_cases view y x) as [->|(r & c & Hp)].
    - destruct k; simpl; lra.
    - by apply (Hview r c). }
  rewrite chan_interp_at.
  pose proof (weight_at_sum height width u v) as Hsum.
  destruct (valid_at height width u v) eqn:Hvalid.
  - pose proof (weight_at_nonneg height width u v 0 Hvalid) as W0.
    pose proof (weight_at_nonneg height width u v 1 Hvalid) as W1.
    pose proof (weight_at_nonneg height width u v 2 Hvalid) as W2.
    pose proof (weight_at_nonneg height width u v 3 Hvalid) as W3.
    change (cast_float true) with 1 in Hsum.
    set (w0 := weight_at height width u v 0) in *.
    set (w1 := weight_at height width u v 1) in *.
    set (w2 := weight_at height width u v 2) in *.
    set (w3 := weight_at height width u v 3) in *.
    destruct (Hg (floor_clip height v) (floor_clip width u)) as [L0 U0].
    destruct (Hg (ceil_clip height v) (floor_clip width u)) as [L1 U1].
    destruct (Hg (floor_clip height v) (ceil_clip width u)) as [L2 U2].
    destruct (Hg (ceil_clip height v) (ceil_clip width u)) as [L3 U3].
    pose proof (Qmult_le_compat_r _ _ w0 L0 W0). pose proof (Qmult_le_compat_r _ _ w0 U0 W0).
    pose proof (Qmult_le_compat_r _ _ w1 L1 W1). pose proof (Qmult_le_compat_r _ _ w1 U1 W1).
    pose proof (Qmult_le_compat_r _ _ w2 L2 W2). pose proof (Qmult_le_compat_r _ _ w2 U2 W2).
    pose proof (Qmult_le_compat_r _ _ w3 L3 W3). pose proof (Qmult_le_compat_r _ _ w3 U3 W3).
    assert (lo * w0 + lo * w1 + lo * w2 + lo * w3 == lo * (w0 + w1 + w2 + w3)) as El
      by ring.
    assert (hi * w0 + hi * w1 + hi * w2 + hi * w3 == hi * (w0 + w1 + w2 + w3)) as Eh
      by ring.
    rewrite Hsum in El, Eh. lra.
  - rewrite !(weight_at_invalid _ _ _ _ _ Hvalid). lra.
Qed.



(** * Further properties of the warp *)

Lemma linspace_stride_lookup (n stride i : nat) :
  (0 < stride)%nat -> (i < n)%nat ->
  exists x,
    linspace 0 (inject_Z (Z.of_nat (n * stride) - Z.of_nat stride)) n !! i = Some x /\
    x == inject_Z (Z.of_nat (i * stride)).
Proof.
  intros Hs Hi. destruct n as [|[|n]]; [lia| |].
  - destruct i; [|lia]. exists 0. split; [done|reflexivity].
  - unfold linspace. rewrite list_lookup_fmap, lookup_seq_lt by lia.
    eexists. split; [reflexivity|]. simpl Nat.add.
    set (m := S (S n)).
    assert (inject_Z (Z.of_nat (m * stride) - Z.of_nat stride)
            == inject_Z (Z.of_nat (m - 1)) * inject_Z (Z.of_nat stride)) as ->.
    { rewrite <- inject_Z_mult. apply inject_Z_injective. subst m. nia. }
    assert (~ inject_Z (Z.of_nat (m - 1)) == 0).
    { change 0 with (inject_Z 0). rewrite inject_Z_injective. subst m. lia. }
    rewrite Nat2Z.inj_mul, inject_Z_mult. field. done.
Qed.

(** X4.  For a stride that divides the height and the width,
    [pixel_meshgrid] lists the grid positions row by row: its three rows
    hold, at the flat index [r * nw + c], the values [c * stride],
    [r * stride] and 1. *)
Theorem pixel_meshgrid_strided :
  forall (nh nw stride : nat),
    (0 < stride)%nat ->
    exists gu gv,
      pixel_meshgrid (nh * stride) (nw * stride) stride
      = [gu; gv; replicate (nh * nw) 1] /\
      length gu = (nh * nw)%nat /\ length gv = (nh * nw)%nat /\
      forall r c, (r < nh)%nat -> (c < nw)%nat ->
        exists x y,
          gu !! (r * nw + c)%nat = Some x /\ x == inject_Z (Z.of_nat (c * stride)) /\
          gv !! (r * nw + c)%nat = Some y /\ y == inject_Z (Z.of_nat (r * stride)).
Proof.
  intros nh nw stride Hs. unfold pixel_meshgrid.
  rewrite !Nat.div_mul by lia.
  set (v := linspace 0 (inject_Z (Z.of_nat (nh * stride) - Z.of_nat stride)) nh).
  set (u := linspace 0 (inject_Z (Z.of_nat (nw * stride) - Z.of_nat stride)) nw).
  assert (length u = nw) as Lu by apply length_linspace.
  assert (length v = nh) as Lv by apply length_linspace.
  assert (Forall (fun l : tensor1 => length l = nw) ((fun _ : Q => u) <$> v)) as Fu.
  { apply Forall_fmap, Forall_forall. done. }
  assert (Forall (fun l : tensor1 => length l = nw)
            ((fun y : Q => (fun _ : Q => y) <$> u) <$> v)) as Fv.
  { apply Forall_fmap, Forall_forall. intros y _. simpl. by rewrite length_fmap. }
  assert (length (mjoin ((fun _ : Q => u) <$> v)) = (nh * nw)%nat) as Lgu.
  { apply length_join_shape. split; [by rewrite length_fmap|done]. }
  assert (length (mjoin ((fun y : Q => (fun _ : Q => y) <$> u) <$> v))
          = (nh * nw)%nat) as Lgv.
  { apply length_join_shape. split; [by rewrite length_fmap|done]. }
  eexists _, _. split; [by rewrite Lgu|]. split_and!; try done.
  intros r c Hr Hc.
  destruct (linspace_stride_lookup nw stride c Hs Hc) as (x & Hx & Ex).
  destruct (linspace_stride_lookup nh stride r Hs Hr) as (y & Hy & Ey).
  fold u in Hx. fold v in Hy.
  exists x, y. split_and!; try done.
  - apply (join_lookup_Some_same_length' nw); [done..|].
    exists u. by rewrite list_lookup_fmap, Hy.
  - apply (join_lookup_Some_same_length' nw); [done..|].
    exists ((fun _ : Q => y) <$> u). by rewrite !list_lookup_fmap, Hy, ?Hx.
Qed.

Lemma pixel_meshgrid_strided_witness :
  exists gu gv,
    pixel_meshgrid (2 * 2) (3 * 2) 2 = [gu; gv; replicate (2 * 3) 1] /\
    exists x y, gu !! (1 * 3 + 2)%nat = Some x /\ x == inject_Z (Z.of_nat (2 * 2)) /\
                gv !! (1 * 3 + 2)%nat = Some y /\ y == inject_Z (Z.of_nat (1 * 2)).
Proof.
  destruct (pixel_meshgrid_strided 2 3 2) as (gu & gv & E & _ & _ & Hall); [lia|].
  exists gu, gv. split; [exact E|]. apply Hall; lia.
Defined.

Lemma inject_nat_pos (n : nat) : (0 < n)%nat -> 0 < inject_Z (Z.of_nat n).
Proof. intros H. change 0 with (inject_Z 0). rewrite <- Zlt_Qlt. lia. Qed.

(** X5.  Whatever the third row of the intrinsic is, the determinant of the
    scaled intrinsic is that of the top-left 2x2 block over the square of the
    scale: the scaled intrinsic can be inverted by the warp exactly when
    this block is not singular. *)
Theorem scale_intrinsic_invertible_iff :
  forall (intrinsic : tensor3) (scale b : nat) (k00 k01 k02 k10 k11 k12 : Q)
         (row2 : tensor1),
    (0 < scale)%nat ->
    intrinsic !! b = Some [[k00; k01; k02]; [k10; k11; k12]; row2] ->
    exists k',
      scale_intrinsic intrinsic scale !! b = Some k' /\
      det3 k' == (k00 * k11 - k01 * k10) / inject_Z (Z.of_nat scale) ^ 2 /\
      (is_Some (linalg_inv k') <-> ~ k00 * k11 - k01 * k10 == 0).
Proof.
  intros intrinsic scale b k00 k01 k02 k10 k11 k12 row2 Hs Hk.
  pose proof (inject_nat_pos scale Hs) as Hpos.
  set (sc := inject_Z (Z.of_nat scale)) in *.
  unfold scale_intrinsic.
  rewrite lookup_zip_with, !list_lookup_fmap, Hk.
  rewrite lookup_replicate_2 by (by apply lookup_lt_Some in Hk).
  cbn [fmap option_fmap option_map mbind option_bind take list_fmap app].
  fold sc. eexists. split; [reflexivity|].
  assert (det3 [[k00 / sc; k01 / sc; k02 / sc]; [k10 / sc; k11 / sc; k12 / sc]; [0; 0; 1]]
          == (k00 * k11 - k01 * k10) / sc ^ 2) as Edet.
  { unfold det3. field. lra. }
  split; [exact Edet|].
  assert (0 < sc ^ 2) as Hsq.
  { assert (sc ^ 2 == sc * sc) as -> by ring. apply Qmult_lt_0_compat; done. }
  split.
  - intros [kinv Hinv] Hzero. unfold linalg_inv in Hinv.
    assert (Qeq_bool (det3 [[k00 / sc; k01 / sc; k02 / sc];
                            [k10 / sc; k11 / sc; k12 / sc]; [0; 0; 1]]) 0 = true) as Hb.
    { apply Qeq_bool_iff. rewrite Edet, Hzero. unfold Qdiv. ring. }
    by rewrite Hb in Hinv.
  - intros Hnz. rewrite linalg_inv_Some; [eauto|].
    rewrite Edet. intros Hzero. apply Hnz.
    assert (k00 * k11 - k01 * k10
            == (k00 * k11 - k01 * k10) / sc ^ 2 * sc ^ 2) as -> by (field; lra).
    rewrite Hzero. ring.
Qed.

Lemma scale_intrinsic_invertible_iff_witness :
  exists k',
    scale_intrinsic [[[50; 0; 32]; [0; 50; 32]; [7; 7; 7]]] 2 !! 0%nat = Some k' /\
    det3 k' == (50 * 50 - 0 * 0) / inject_Z (Z.of_nat 2) ^ 2 /\
    is_Some (linalg_inv k').
Proof.
  destruct (scale_intrinsic_invertible_iff [[[50; 0; 32]; [0; 50; 32]; [7; 7; 7]]]
              2 0 50 0 32 0 50 32 [7; 7; 7]) as (k' & Hk & Hdet & Hinv);
    [lia|reflexivity|].
  exists k'. split_and!; try done. apply Hinv. by vm_compute.
Defined.

Lemma cam2pixel_view (cams : tensor4) (ks : tensor3) b s (k cc : tensor2) :
  ks !! b = Some k -> at2 cams b s = Some cc ->
  at2 (cam2pixel cams ks) b s =
  Some (let pixel_coords := matmul k (take 3 cc) in
        (fun row : tensor1 =>
           zip_with (fun x s => x / (s + scale_eps)) row (slice_row 2 pixel_coords))
        <$> pixel_coords).
Proof.
  unfold at2, cam2pixel. intros Hk Hcc. rewrite lookup_zip_with, Hk.
  destruct (cams !! b) as [views|]; simpl in *; [|done].
  by rewrite list_lookup_fmap, Hcc.
Qed.

Lemma point_column (cc : tensor2) k X Y Z :
  at2 cc 0 k = Some X -> at2 cc 1 k = Some Y -> at2 cc 2 k = Some Z ->
  column k (take 3 cc) = [X; Y; Z] /\ (k < num_cols (take 3 cc))%nat.
Proof.
  unfold at2. intros HX HY HZ.
  destruct cc as [|r0 [|r1 [|r2 rest]]]; try done. simpl in *.
  split.
  - unfold column. simpl. by rewrite HX, HY, HZ.
  - unfold num_cols. simpl. by apply lookup_lt_Some in HX.
Qed.

(** X6.  With an intrinsic whose third row is [0 0 1], projecting the same
    camera points with the intrinsic of a scale level gives the pixel
    coordinates of the full resolution divided by the scale, and the same
    third coordinate. *)
Theorem cam2pixel_scale_consistent :
  forall (cam_coords : tensor4) (intrinsic : tensor3) (scale b s k : nat)
         (cc : tensor2) (k00 k01 k02 k10 k11 k12 X Y Z : Q),
    (0 < scale)%nat ->
    intrinsic !! b = Some [[k00; k01; k02]; [k10; k11; k12]; [0; 0; 1]] ->
    at2 cam_coords b s = Some cc ->
    at2 cc 0 k = Some X -> at2 cc 1 k = Some Y -> at2 cc 2 k = Some Z ->
    exists u v w u' v' w',
      at4 (cam2pixel cam_coords intrinsic) b s 0 k = Some u /\
      at4 (cam2pixel cam_coords intrinsic) b s 1 k = Some v /\
      at4 (cam2pixel cam_coords intrinsic) b s 2 k = Some w /\
      at4 (cam2pixel cam_coords (scale_intrinsic intrinsic scale)) b s 0 k = Some u' /\
      at4 (cam2pixel cam_coords (scale_intrinsic intrinsic scale)) b s 1 k = Some v' /\
      at4 (cam2pixel cam_coords (scale_intrinsic intrinsic scale)) b s 2 k = Some w' /\
      u' == u / inject_Z (Z.of_nat scale) /\
      v' == v / inject_Z (Z.of_nat scale) /\
      w' == w.
Proof.
  intros cams ks scale b s k cc k00 k01 k02 k10 k11 k12 X Y Z Hs Hk Hcc HX HY HZ.
  pose proof (inject_nat_pos scale Hs) as Hpos.
  set (sc := inject_Z (Z.of_nat scale)) in *.
  destruct (point_column cc k X Y Z HX HY HZ) as [Hcol Hlt].
  assert (scale_intrinsic ks scale !! b
          = Some [[k00 / sc; k01 / sc; k02 / sc]; [k10 / sc; k11 / sc; k12 / sc];
                  [0; 0; 1]]) as Hk'.
  { unfold scale_intrinsic. rewrite lookup_zip_with, !list_lookup_fmap, Hk.
    rewrite lookup_replicate_2 by (by apply lookup_lt_Some in Hk). done. }
  pose proof (cam2pixel_view cams ks b s _ cc Hk Hcc) as V.
  pose proof (cam2pixel_view cams (scale_intrinsic ks scale) b s _ cc Hk' Hcc) as V'.
  cbv zeta in V, V'.
  assert (forall r0 r1 r2 : tensor1,
    let pc := matmul [r0; r1; r2] (take 3 cc) in
    let out := (fun row : tensor1 =>
                  zip_with (fun x s => x / (s + scale_eps)) row (slice_row 2 pc)) <$> pc in
    at2 out 0 k = Some (dot r0 [X; Y; Z] / (dot r2 [X; Y; Z] + scale_eps)) /\
    at2 out 1 k = Some (dot r1 [X; Y; Z] / (dot r2 [X; Y; Z] + scale_eps)) /\
    at2 out 2 k = Some (dot r2 [X; Y; Z] / (dot r2 [X; Y; Z] + scale_eps))) as Hproj.
  { intros r0 r1 r2 pc out. unfold out, pc, at2, slice_row, matmul.
    cbn [fmap list_fmap lookup list_lookup mbind option_bind default from_option id].
    rewrite !lookup_zip_with, !list_lookup_fmap, !lookup_seq_lt by lia.
    cbn [fmap option_fmap option_map mbind option_bind Nat.add]. by rewrite Hcol. }
  destruct (Hproj [k00; k01; k02] [k10; k11; k12] [0; 0; 1]) as (P0 & P1 & P2).
  destruct (Hproj [k00 / sc; k01 / sc; k02 / sc] [k10 / sc; k11 / sc; k12 / sc] [0; 0; 1])
    as (P0' & P1' & P2').
  eexists _, _, _, _, _, _.
  unfold at4, at3. rewrite V, V'. cbn [mbind option_bind].
  split_and!; try eassumption; unfold dot; simpl.
  - unfold Qdiv. ring.
  - unfold Qdiv. ring.
  - reflexivity.
Qed.

Lemma cam2pixel_scale_consistent_witness :
  exists u u',
    at4 (cam2pixel [[ [[3]; [4]; [2]; [1]] ]] [[[50; 0; 32]; [0; 50; 32]; [0; 0; 1]]])
        0 0 0 0 = Some u /\
    at4 (cam2pixel [[ [[3]; [4]; [2]; [1]] ]]
           (scale_intrinsic [[[50; 0; 32]; [0; 50; 32]; [0; 0; 1]]] 2)) 0 0 0 0
    = Some u' /\
    u' == u / inject_Z (Z.of_nat 2).
Proof.
  destruct (cam2pixel_scale_consistent [[ [[3]; [4]; [2]; [1]] ]]
              [[[50; 0; 32]; [0; 50; 32]; [0; 0; 1]]] 2 0 0 0 [[3]; [4]; [2]; [1]]
              50 0 32 0 50 32 3 4 2)
    as (u & v & w & u' & v' & w' & Hu & _ & _ & Hu' & _ & _ & E & _);
    try lia; try reflexivity.
  exists u, u'. by split_and!.
Defined.

Lemma transform_to_source_view (tgt : tensor3) (pose : tensor4) b s (cc p : tensor2) :
  tgt !! b = Some cc -> at2 pose b s = Some p ->
  at2 (transform_to_source tgt pose) b s = Some (matmul p cc).
Proof.
  unfold at2, transform_to_source. intros Hcc Hp. rewrite lookup_zip_with, Hcc.
  destruct (pose !! b) as [poses|]; simpl in *; [|done].
  by rewrite list_lookup_fmap, Hp.
Qed.

(** X7.  [transform_to_source] with the identity pose returns the
    homogeneous target points unchanged. *)
Theorem transform_to_source_identity :
  forall (tgt_coords : tensor3) (t2s_pose : tensor4) (b s k : nat) (cc : tensor2)
         (x0 x1 x2 x3 : Q),
    tgt_coords !! b = Some cc -> length cc = 4%nat ->
    at2 t2s_pose b s = Some pose_identity ->
    at2 cc 0 k = Some x0 -> at2 cc 1 k = Some x1 ->
    at2 cc 2 k = Some x2 -> at2 cc 3 k = Some x3 ->
    exists y0 y1 y2 y3,
      at4 (transform_to_source tgt_coords t2s_pose) b s 0 k = Some y0 /\ y0 == x0 /\
      at4 (transform_to_source tgt_coords t2s_pose) b s 1 k = Some y1 /\ y1 == x1 /\
      at4 (transform_to_source tgt_coords t2s_pose) b s 2 k = Some y2 /\ y2 == x2 /\
      at4 (transform_to_source tgt_coords t2s_pose) b s 3 k = Some y3 /\ y3 == x3.
Proof.
  intros tgt pose b s k cc x0 x1 x2 x3 Hcc Hlen Hp H0 H1 H2 H3.
  unfold at4, at3. rewrite (transform_to_source_view tgt pose b s cc _ Hcc Hp).
  cbn [mbind option_bind].
  destruct cc as [|r0 [|r1 [|r2 [|r3 [|]]]]]; try discriminate.
  unfold at2 in H0, H1, H2, H3. simpl in H0, H1, H2, H3.
  assert (k < length r0)%nat as Hk by (by apply lookup_lt_Some in H0).
  unfold pose_identity, matmul, num_cols.
  cbn [fmap list_fmap lookup list_lookup default from_option id mbind option_bind].
  rewrite !list_lookup_fmap, !lookup_seq_lt by lia.
  cbn [fmap option_fmap option_map Nat.add]. unfold column.
  cbn [fmap list_fmap]. rewrite H0, H1, H2, H3. unfold dot. simpl.
  eexists _, _, _, _. split_and!; try reflexivity; ring.
Qed.

Lemma transform_to_source_identity_witness :
  exists y0,
    at4 (transform_to_source [[[3; 5]; [4; 6]; [2; 7]; [1; 1]]] [[pose_identity]]) 0 0 0 1
    = Some y0 /\ y0 == 5.
Proof.
  destruct (transform_to_source_identity [[[3; 5]; [4; 6]; [2; 7]; [1; 1]]]
              [[pose_identity]] 0 0 1 [[3; 5]; [4; 6]; [2; 7]; [1; 1]] 5 6 7 1)
    as (y0 & y1 & y2 & y3 & H0 & E0 & _); try reflexivity.
  by exists y0.
Defined.

(** * Further properties of the losses *)

Lemma Qsum_bounds (l : list Q) (a b : Q) :
  Forall (fun x => a <= x <= b) l ->
  inject_Z (Z.of_nat (length l)) * a <= Qsum l <= inject_Z (Z.of_nat (length l)) * b.
Proof.
  induction 1 as [|x l [Hx1 Hx2] _ [IH1 IH2]].
  - change (inject_Z (Z.of_nat (length (@nil Q)))) with 0.
    change (Qsum []) with 0. split; lra.
  - cbn [length Qsum foldr]. change (foldr Qplus 0 l) with (Qsum l).
    rewrite Nat2Z.inj_succ. unfold Z.succ. rewrite inject_Z_plus.
    change (inject_Z 1) with 1. split; lra.
Qed.

Lemma reduce_mean_hwc_range (x : image) (lo hi : Q) :
  lo <= 0 -> 0 <= hi ->
  (forall r c p, at2 x r c = Some p -> forall k, lo <= chan k p <= hi) ->
  lo <= reduce_mean_hwc x <= hi.
Proof.
  intros Hlo Hhi Hall. unfold reduce_mean_hwc, num_elements.
  assert (Forall (fun t => 3 * lo <= t <= 3 * hi) (px_total <$> mjoin x)) as HF.
  { apply Forall_fmap, Forall_lookup. intros i p Hp.
    apply join_lookup_Some in Hp as (r & row & c & Hr & Hc & _).
    assert (at2 x r c = Some p) as Hat by (unfold at2; by rewrite Hr).
    pose proof (Hall r c p Hat C0) as [? ?]. pose proof (Hall r c p Hat C1) as [? ?].
    pose proof (Hall r c p Hat C2) as [? ?]. unfold px_total, chan in *. split; lra. }
  pose proof (Qsum_bounds _ _ _ HF) as [B1 B2]. rewrite length_fmap in B1, B2.
  set (n := length (mjoin x)) in *. set (tot := Qsum (px_total <$> mjoin x)) in *.
  rewrite Nat2Z.inj_mul, inject_Z_mult. change (inject_Z (Z.of_nat 3)) with 3.
  destruct n as [|n].
  - unfold Qdiv. simpl (inject_Z (Z.of_nat 0)). 
    assert (/ (0 * 3) == 0) as -> by reflexivity. split; lra.
  - pose proof (inject_nat_pos (S n) ltac:(lia)) as Hn.
    set (q := inject_Z (Z.of_nat (S n))) in *.
    split.
    + apply Qle_shift_div_l; [lra|]. lra.
    + apply Qle_shift_div_r; [lra|]. lra.
Qed.

Lemma at2_masked (synt x : image) r c p :
  at2 (where_zero (error_mask_of synt) x) r c = Some p ->
  exists ps q, at2 synt r c = Some ps /\ at2 x r c = Some q /\
    p = if tf_equal (reduce_mean_channels ps) 0 then px_zero else q.
Proof.
  rewrite at2_where_zero, at2_error_mask_of.
  destruct (at2 synt r c) as [ps|]; simpl; [|done].
  destruct (at2 x r c) as [q|]; simpl; [|done].
  intros [= <-]. eauto.
Qed.

Lemma clip_by_value_unit x : 0 <= clip_by_value x 0 1 <= 1.
Proof. clip_cases; split; lra. Qed.

Lemma photometric_loss_l1_view_nonneg (synt orig : image) :
  0 <= photometric_loss_l1_view synt orig.
Proof.
  unfold photometric_loss_l1_view.
  set (e := where_zero _ _).
  assert (forall r c p, at2 e r c = Some p -> forall k, 0 <= chan k p) as Hpos.
  { intros r c p Hp k. apply at2_masked in Hp as (ps & q & _ & Hq & ->).
    destruct (tf_equal _ _); [destruct k; simpl; lra|].
    rewrite at2_img_map2 in Hq.
    destruct (at2 synt r c) as [a|]; cbn [mbind option_bind] in Hq; [|done].
    destruct (at2 orig r c) as [b|]; cbn [mbind option_bind] in Hq; [|done].
    injection Hq as <-.
    destruct k;
      [change (0 <= Qabs (ch0 a - ch0 b))|change (0 <= Qabs (ch1 a - ch1 b))
      |change (0 <= Qabs (ch2 a - ch2 b))]; apply Qabs_nonneg. }
  unfold reduce_mean_hwc, num_elements.
  assert (0 <= Qsum (px_total <$> mjoin e)) as Hsum.
  { assert (Forall (fun t => 0 <= t) (px_total <$> mjoin e)) as HF.
    { apply Forall_fmap, Forall_lookup. intros i p Hp.
      apply join_lookup_Some in Hp as (r & row & c & Hr & Hc & _).
      assert (at2 e r c = Some p) as Hat by (unfold at2; by rewrite Hr).
      pose proof (Hpos r c p Hat C0). pose proof (Hpos r c p Hat C1).
      pose proof (Hpos r c p Hat C2). unfold px_total, chan in *. simpl. lra. }
    induction HF as [|t l Ht _ IH]; simpl; [lra|].
    change (foldr Qplus 0 l) with (Qsum l). lra. }
  apply Qmult_le_0_compat; [done|].
  apply Qinv_le_0_compat, inject_nat_nonneg.
Qed.

Lemma photometric_loss_ssim_view_unit (synt orig : image) :
  0 <= photometric_loss_ssim_view synt orig <= 1.
Proof.
  unfold photometric_loss_ssim_view. apply reduce_mean_hwc_range; try lra.
  intros r c p Hp k. apply at2_masked in Hp as (ps & q & _ & Hq & ->).
  destruct (tf_equal _ _); [destruct k; simpl; lra|].
  rewrite at2_img_map in Hq.
  destruct (at2 _ r c) as [q'|]; simpl in Hq; [|done].
  injection Hq as <-. destruct k; apply clip_by_value_unit.
Qed.

Lemma masked_image_mean_zero (synt x : image) :
  (forall r c ps, at2 synt r c = Some ps -> reduce_mean_channels ps == 0) ->
  reduce_mean_hwc (where_zero (error_mask_of synt) x) == 0.
Proof.
  intros Hblack. apply reduce_mean_hwc_zero. intros r c p Hp.
  apply at2_masked in Hp as (ps & q & Hps & _ & ->).
  apply Hblack, tf_equal_true in Hps. rewrite Hps. apply px_eq_refl.
Qed.

(** X8.  For frames of one size with at least one pixel, the L1 photometric
    loss is never negative. *)
Theorem photometric_loss_l1_nonneg :
  forall (synt_target : list (list image)) (orig_target : list image)
         (b s height width : nat) (synt orig : image),
    at2 synt_target b s = Some synt -> orig_target !! b = Some orig ->
    shape2 height width synt -> shape2 height width orig ->
    (0 < height)%nat -> (0 < width)%nat ->
    exists loss,
      at2 (photometric_loss_l1 synt_target orig_target) b s = Some loss /\ 0 <= loss.
Proof.
  intros synt_target orig_target b s height width synt orig Hs Ho _ _ _ _.
  exists (photometric_loss_l1_view synt orig). split.
  - by apply (loss_lookup photometric_loss_l1_view).
  - apply photometric_loss_l1_view_nonneg.
Qed.

(** X9.  For frames of one size with at least one pixel, the SSIM
    photometric loss lies between 0 and 1. *)
Theorem photometric_loss_ssim_in_unit_interval :
  forall (synt_target : list (list image)) (orig_target : list image)
         (b s height width : nat) (synt orig : image),
    at2 synt_target b s = Some synt -> orig_target !! b = Some orig ->
    shape2 height width synt -> shape2 height width orig ->
    (0 < height)%nat -> (0 < width)%nat ->
    exists loss,
      at2 (photometric_loss_ssim synt_target orig_target) b s = Some loss /\
      0 <= loss <= 1.
Proof.
  intros synt_target orig_target b s height width synt orig Hs Ho _ _ _ _.
  exists (photometric_loss_ssim_view synt orig). split.
  - by apply (loss_lookup photometric_loss_ssim_view).
  - apply photometric_loss_ssim_view_unit.
Qed.

(** X10.  A synthesized frame that is black everywhere (every pixel of mean
    intensity 0, as after a warp that leaves the image) is masked as a
    whole: both photometric losses are 0 whatever the target frame of the
    same size is. *)
Theorem photometric_losses_zero_on_black_synthesis :
  forall (synt_target : list (list image)) (orig_target : list image)
         (b s height width : nat) (synt orig : image),
    at2 synt_target b s = Some synt -> orig_target !! b = Some orig ->
    shape2 height width synt -> shape2 height width orig ->
    (0 < height)%nat -> (0 < width)%nat ->
    (forall r c ps, at2 synt r c = Some ps -> reduce_mean_channels ps == 0) ->
    exists loss_l1 loss_ssim,
      at2 (photometric_loss_l1 synt_target orig_target) b s = Some loss_l1 /\
      loss_l1 == 0 /\
      at2 (photometric_loss_ssim synt_target orig_target) b s = Some loss_ssim /\
      loss_ssim == 0.
Proof.
  intros synt_target orig_target b s height width synt orig Hs Ho _ _ _ _ Hblack.
  exists (photometric_loss_l1_view synt orig), (photometric_loss_ssim_view synt orig).
  split_and!.
  - by apply (loss_lookup photometric_loss_l1_view).
  - by apply masked_image_mean_zero.
  - by apply (loss_lookup photometric_loss_ssim_view).
  - by apply masked_image_mean_zero.
Qed.

Lemma photometric_loss_l1_nonneg_witness :
  exists loss,
    at2 (photometric_loss_l1 [[demo_synt]] [demo_orig]) 0 0 = Some loss /\ 0 <= loss.
Proof.
  apply (photometric_loss_l1_nonneg [[demo_synt]] [demo_orig] 0 0 1 2 demo_synt demo_orig);
    try reflexivity; try lia; split; try reflexivity; repeat constructor.
Defined.

Lemma photometric_loss_ssim_in_unit_interval_witness :
  exists loss,
    at2 (photometric_loss_ssim [[demo_synt]] [demo_orig]) 0 0 = Some loss /\
    0 <= loss <= 1.
Proof.
  apply (photometric_loss_ssim_in_unit_interval [[demo_synt]] [demo_orig] 0 0 1 2
           demo_synt demo_orig);
    try reflexivity; try lia; split; try reflexivity; repeat constructor.
Defined.

Lemma photometric_losses_zero_on_black_synthesis_witness :
  exists loss_l1 loss_ssim,
    at2 (photometric_loss_l1 [[ [[Px 0 0 0; Px (-1) 0 1]] ]] [demo_orig]) 0 0
      = Some loss_l1 /\
    loss_l1 == 0 /\
    at2 (photometric_loss_ssim [[ [[Px 0 0 0; Px (-1) 0 1]] ]] [demo_orig]) 0 0
      = Some loss_ssim /\
    loss_ssim == 0.
Proof.
  apply (photometric_losses_zero_on_black_synthesis [[ [[Px 0 0 0; Px (-1) 0 1]] ]]
           [demo_orig] 0 0 1 2 [[Px 0 0 0; Px (-1) 0 1]] demo_orig);
    try reflexivity; try lia; try (split; [reflexivity|repeat constructor]).
  intros [|[|]] [|[|[|]]] ps [= <-]; by vm_compute.
Defined.

(** *** The loss evaluators *)

Lemma shape2_row_lengths n0 n1 (l : tensor2) :
  shape2 n0 n1 l -> row_lengths l = replicate n0 n1.
Proof.
  intros [<- Hl]. unfold row_lengths. induction Hl as [|row l Hrow _ IH]; [done|].
  rewrite fmap_cons. cbn [length replicate]. by rewrite Hrow, IH.
Qed.

Lemma stack_fold_shape n0 n1 k (data : list tensor2) (init : tensor3) :
  Forall (shape2 n0 n1) data ->
  length init = n0 -> Forall (fun m : tensor2 => length m = n1 /\ Forall (fun r => length r = k) m) init ->
  let t := foldr (zip_with (zip_with cons)) init data in
  length t = n0 /\
  Forall (fun m : tensor2 => length m = n1 /\ Forall (fun r => length r = (length data + k)%nat) m) t.
Proof.
  intros Hd Li Hi. induction Hd as [|l data [Ll Hl] _ IH]; [done|].
  destruct IH as [Lt Ht]. cbn [foldr]. split.
  - rewrite length_zip_with. lia.
  - apply Forall_lookup. intros b m Hm.
    apply lookup_zip_with_Some in Hm as (row & rest & -> & Hrow & Hrest).
    destruct (Forall_lookup_1 _ _ _ _ Ht Hrest) as [Lr Hr].
    split.
    + rewrite length_zip_with, (Forall_lookup_1 _ _ _ _ Hl Hrow), Lr. lia.
    + apply Forall_lookup. intros s r Hs.
      apply lookup_zip_with_Some in Hs as (x & r' & -> & _ & Hr').
      cbn [length]. by rewrite (Forall_lookup_1 _ _ _ _ Hr Hr').
Qed.

Lemma stack_fold_elem (data : list tensor2) (init : tensor3) b s row x :
  at2 (foldr (zip_with (zip_with cons)) init data) b s = Some row -> x ∈ row ->
  (exists i l, data !! i = Some l /\ at2 l b s = Some x) \/
  (exists r0, at2 init b s = Some r0 /\ x ∈ r0).
Proof.
  revert row. induction data as [|l data IH]; intros row Hrow Hx.
  - right. eauto.
  - cbn [foldr] in Hrow. rewrite at2_zip_with2 in Hrow.
    destruct (at2 l b s) as [y|] eqn:Hy; cbn in Hrow; [|done].
    destruct (at2 (foldr (zip_with (zip_with cons)) init data) b s) as [rest|] eqn:Hrest;
      cbn in Hrow; [|done].
    injection Hrow as <-. apply elem_of_cons in Hx as [->|Hx].
    + left. exists 0%nat, l. done.
    + destruct (IH rest eq_refl Hx) as [(i & l' & Hi & Hl')|Hinit]; [|by right].
      left. exists (S i), l'. done.
Qed.

(** The stack of tensors of one shape [n0, n1] has the shape
    [n0, n1, length data], and its entries are entries of the tensors at
    the same place. *)
Lemma stack_axis2_entries n0 n1 (data : list tensor2) :
  data <> [] -> Forall (shape2 n0 n1) data ->
  exists stacked,
    stack_axis2 data = inr stacked /\ length stacked = n0 /\
    forall b m (P : Q -> Prop),
      stacked !! b = Some m ->
      (forall i l s x, data !! i = Some l -> at2 l b s = Some x -> P x) ->
      length m = n1 /\
      Forall (fun row : tensor1 => length row = length data /\ Forall P row) m.
Proof.
  intros Hne Hshape. destruct data as [|l0 data]; [done|].
  unfold stack_axis2. rewrite bool_decide_true.
  2:{ eapply Forall_impl; [exact Hshape|]. intros l Hl. cbn beta.
      apply Forall_cons in Hshape as [H0 _].
      by rewrite (shape2_row_lengths _ _ _ Hl), (shape2_row_lengths _ _ _ H0). }
  remember ((fun row : tensor1 => (fun _ : Q => @nil Q) <$> row) <$> l0) as init eqn:Einit.
  assert (length init = n0) as Li.
  { apply Forall_cons in Hshape as [[L0 _] _]. by rewrite Einit, length_fmap. }
  assert (Forall (fun m : tensor2 => length m = n1 /\ Forall (fun r => length r = 0%nat) m) init)
    as Hi.
  { apply Forall_cons in Hshape as [[_ H0] _]. rewrite Einit. apply Forall_fmap.
    eapply Forall_impl; [exact H0|]. intros row Hr. cbn beta. unfold compose.
    split; [by rewrite length_fmap|]. apply Forall_fmap. by apply Forall_true. }
  pose proof (stack_fold_shape n0 n1 0 (l0 :: data) init Hshape Li Hi) as [Lt Ht].
  cbv zeta in Lt, Ht.
  eexists. split_and!; [reflexivity|exact Lt|].
  intros b m P Hm HP.
  destruct (Forall_lookup_1 _ _ _ _ Ht Hm) as [Lm Hrows].
  split; [exact Lm|].
  apply Forall_lookup. intros s row Hrow. split.
  { rewrite (Forall_lookup_1 _ _ _ _ Hrows Hrow). lia. }
  apply Forall_forall. intros x Hx.
  destruct (stack_fold_elem (l0 :: data) init b s row x) as [(i & l & Hi' & Hl)|(r0 & Hr0 & Hx0)];
    [unfold at2; by rewrite Hm|done|by apply (HP i l s x)|].
  exfalso. rewrite Einit in Hr0. unfold at2 in Hr0. rewrite list_lookup_fmap in Hr0.
  destruct (l0 !! b) as [row0|]; cbn in Hr0; [|done].
  rewrite list_lookup_fmap in Hr0. destruct (row0 !! s); cbn in Hr0; [|done].
  injection Hr0 as <-. by apply elem_of_nil in Hx0.
Qed.

Lemma Qsum_nested_bounds (m : tensor2) (n1 n2 : nat) (a b : Q) :
  length m = n1 ->
  Forall (fun row : tensor1 => length row = n2 /\ Forall (fun x => a <= x <= b) row) m ->
  inject_Z (Z.of_nat (n1 * n2)) * a <= Qsum ((fun row : tensor1 => Qsum row) <$> m)
    <= inject_Z (Z.of_nat (n1 * n2)) * b.
Proof.
  intros <- Hm. induction Hm as [|row m [Lr Hr] _ [IH1 IH2]].
  - change (Qsum _) with 0. change (inject_Z _) with 0. split; lra.
  - cbn [fmap list_fmap Qsum foldr length].
    change (foldr Qplus 0 ((fun row0 : tensor1 => Qsum row0) <$> m))
      with (Qsum ((fun row0 : tensor1 => Qsum row0) <$> m)).
    destruct (Qsum_bounds row a b Hr) as [B1 B2]. rewrite Lr in B1, B2.
    assert (inject_Z (Z.of_nat (S (length m) * n2))
            == inject_Z (Z.of_nat n2) + inject_Z (Z.of_nat (length m * n2))) as ->.
    { rewrite <- inject_Z_plus. apply inject_Z_injective. lia. }
    split; lra.
Qed.

Lemma Qsum_nonneg (l : tensor1) : Forall (fun x => 0 <= x) l -> 0 <= Qsum l.
Proof.
  induction 1 as [|x l Hx _ IH]; [by change (Qsum []) with 0|].
  cbn [Qsum foldr]. change (foldr Qplus 0 l) with (Qsum l). lra.
Qed.

Lemma Qsum_nested_zero (m : tensor2) :
  Forall (fun row : tensor1 => Forall (fun x => x == 0) row) m ->
  Qsum ((fun row : tensor1 => Qsum row) <$> m) == 0.
Proof.
  intros Hm. apply Qsum_zero, Forall_fmap.
  eapply Forall_impl; [exact Hm|]. intros row Hrow. by apply Qsum_zero.
Qed.

Lemma view_losses_shape (f : image -> image -> Q) n_batch n_src
    (synt : list (list image)) (orig : list image) :
  shape2 n_batch n_src synt -> length orig = n_batch ->
  shape2 n_batch n_src
    (zip_with (fun (views : list image) (o : image) =>
                 (fun sy : image => f sy o) <$> views) synt orig).
Proof.
  intros [Ls Hs] Lo. split; [rewrite length_zip_with; lia|].
  apply Forall_lookup. intros b row Hrow.
  apply lookup_zip_with_Some in Hrow as (views & o & -> & Hv & _).
  rewrite length_fmap. exact (Forall_lookup_1 _ _ _ _ Hs Hv).
Qed.

Lemma view_losses_entry (f : image -> image -> Q)
    (synt : list (list image)) (orig : list image) b s x :
  at2 (zip_with (fun (views : list image) (o : image) =>
                   (fun sy : image => f sy o) <$> views) synt orig) b s = Some x ->
  exists sy o, at2 synt b s = Some sy /\ orig !! b = Some o /\ x = f sy o.
Proof.
  unfold at2. intros Hx.
  destruct (zip_with _ synt orig !! b) as [row|] eqn:Hrow; cbn in Hx; [|done].
  apply lookup_zip_with_Some in Hrow as (views & o & -> & Hv & Ho).
  rewrite list_lookup_fmap in Hx. destruct (views !! s) as [sy|] eqn:Hsy; cbn in Hx; [|done].
  injection Hx as <-. exists sy, o. rewrite Hv. cbn. done.
Qed.

(** The evaluator on dictionaries filled as [augment_data] fills them: the
    loss of a batch element is the sum of one entry per source frame and
    scale, each the loss of one synthesized frame against its target. *)
Lemma photometric_call_entries {F P} (f : image -> image -> Q) (Pr : Q -> Prop)
    (self : PhotometricLossMultiScale) (features : F) (predictions : P)
    (augm_data : gmap string augm_value)
    (synth : list (list (list image))) (targets : list (list image)) n_batch n_src :
  pl_photometric_loss self
  = (fun st ot => zip_with (fun (views : list image) (o : image) =>
                              (fun sy : image => f sy o) <$> views) st ot) ->
  augm_data !! ("target_ms" +:+ pl_key_suffix self) = Some (TargetList targets) ->
  augm_data !! ("synth_target_ms" +:+ pl_key_suffix self) = Some (SynthList synth) ->
  synth <> [] -> targets <> [] ->
  Forall (shape2 n_batch n_src) synth ->
  Forall (fun t : list image => length t = n_batch) targets ->
  (forall i b s sy t, at3 synth i b s = Some sy -> at2 targets i b = Some t -> Pr (f sy t)) ->
  exists loss,
    PhotometricLossMultiScale_call self features predictions augm_data = inr loss /\
    length loss = n_batch /\
    forall b x, loss !! b = Some x ->
      exists m, x = Qsum ((fun row : tensor1 => Qsum row) <$> m) /\ length m = n_src /\
        Forall (fun row : tensor1 =>
                  length row = (length synth `min` length targets)%nat /\ Forall Pr row) m.
Proof.
  intros Hf Ht Hs Hsne Htne Hshape Htl HPr.
  unfold PhotometricLossMultiScale_call. rewrite Ht, Hs, Hf.
  set (losses := zip_with _ synth targets).
  assert (losses <> []) as Hne.
  { unfold losses. destruct synth, targets; done. }
  assert (Forall (shape2 n_batch n_src) losses) as Hls.
  { apply Forall_lookup. intros i l Hl.
    apply lookup_zip_with_Some in Hl as (st & ot & -> & Hst & Hot).
    apply view_losses_shape.
    - exact (Forall_lookup_1 _ _ _ _ Hshape Hst).
    - exact (Forall_lookup_1 _ _ _ _ Htl Hot). }
  destruct (stack_axis2_entries n_batch n_src losses Hne Hls) as (stacked & -> & Lst & Hent).
  eexists. split_and!; [reflexivity|unfold reduce_sum_axes12; by rewrite length_fmap|].
  intros b x Hx. unfold reduce_sum_axes12 in Hx. rewrite list_lookup_fmap in Hx.
  destruct (stacked !! b) as [m|] eqn:Hm; cbn in Hx; [|done].
  injection Hx as <-. exists m.
  destruct (Hent b m Pr Hm) as [Lm Hrows].
  { intros i l s x Hl Hlx.
    apply lookup_zip_with_Some in Hl as (st & ot & -> & Hst & Hot).
    apply view_losses_entry in Hlx as (sy & o & Hsy & Ho & ->).
    apply (HPr i b s); unfold at3, at2 in *.
    - rewrite Hst. exact Hsy.
    - rewrite Hot. exact Ho. }
  split_and!; [done|done|].
  unfold losses in Hrows. by rewrite length_zip_with in Hrows.
Qed.

Lemma photometric_loss_init_cases method key_suffix self :
  PhotometricLossMultiScale_init method key_suffix = Returned self ->
  pl_key_suffix self = key_suffix /\
  ((method = "L1" /\ pl_photometric_loss self = photometric_loss_l1) \/
   (method = "SSIM" /\ pl_photometric_loss self = photometric_loss_ssim)).
Proof.
  unfold PhotometricLossMultiScale_init.
  destruct (String.eqb method "L1") eqn:E1; [|destruct (String.eqb method "SSIM") eqn:E2].
  - intros [= <-]. apply String.eqb_eq in E1. split; [done|]. by left.
  - intros [= <-]. apply String.eqb_eq in E2. split; [done|]. by right.
  - done.
Qed.

(** X11.  [PhotometricLossMultiScale.__call__] reads two entries of the
    dictionary only: updating the dictionary with entries under other keys
    (as [TotalLoss.__call__] does with the data of the right camera) leaves
    its result as it was. *)
Theorem photometric_evaluator_reads_two_keys :
  forall {F P : Type} (self : PhotometricLossMultiScale) (features : F) (predictions : P)
         (augm_data other : gmap string augm_value),
    other !! ("target_ms" +:+ pl_key_suffix self) = None ->
    other !! ("synth_target_ms" +:+ pl_key_suffix self) = None ->
    PhotometricLossMultiScale_call self features predictions (dict_update augm_data other)
    = PhotometricLossMultiScale_call self features predictions augm_data.
Proof.
  intros F P self features predictions augm_data other Ht Hs.
  unfold PhotometricLossMultiScale_call, dict_update.
  by rewrite !lookup_union, Ht, Hs, !(left_id_L None _).
Qed.

(** X12.  [PhotometricLossMultiScale.__call__] raises a [KeyError] exactly
    when one of its two keys is missing, and names the key of the targets
    when both are. *)
Theorem photometric_evaluator_key_error :
  forall {F P : Type} (self : PhotometricLossMultiScale) (features : F) (predictions : P)
         (augm_data : gmap string augm_value) (key : string),
    PhotometricLossMultiScale_call self features predictions augm_data = inl (KeyError key)
    <-> (augm_data !! ("target_ms" +:+ pl_key_suffix self) = None /\
         key = "target_ms" +:+ pl_key_suffix self) \/
        (augm_data !! ("target_ms" +:+ pl_key_suffix self) <> None /\
         augm_data !! ("synth_target_ms" +:+ pl_key_suffix self) = None /\
         key = "synth_target_ms" +:+ pl_key_suffix self).
Proof.
  intros F P self features predictions augm_data key.
  unfold PhotometricLossMultiScale_call.
  destruct (augm_data !! ("target_ms" +:+ pl_key_suffix self)) as [t|] eqn:Et.
  - destruct (augm_data !! ("synth_target_ms" +:+ pl_key_suffix self)) as [sy|] eqn:Es.
    + split; [|intros [[? _]|(_ & ? & _)]; done].
      destruct sy as [v|v], t as [w|w]; try done.
      unfold stack_axis2. destruct (zip_with _ v w); [done|].
      by destruct (bool_decide _).
    + split.
      * intros [= <-]. right. done.
      * intros [[? _]|(_ & _ & ->)]; done.
  - split.
    + intros [= <-]. by left.
    + intros [[_ ->]|[? _]]; done.
Qed.


(** X14.  On frames of one size with at least one pixel, the loss that the
    evaluator returns for a batch element is never negative, and with
    "SSIM" it is at most the number of source frames times the number of
    scales. *)
Theorem photometric_evaluator_bounds :
  forall {F P : Type} (method key_suffix : string) (self : PhotometricLossMultiScale)
         (features : F) (predictions : P) (augm_data : gmap string augm_value)
         (synth : list (list (list image))) (targets : list (list image))
         (n_batch n_src : nat),
    PhotometricLossMultiScale_init method key_suffix = Returned self ->
    augm_data !! ("target_ms" +:+ key_suffix) = Some (TargetList targets) ->
    augm_data !! ("synth_target_ms" +:+ key_suffix) = Some (SynthList synth) ->
    synth <> [] -> targets <> [] ->
    Forall (shape2 n_batch n_src) synth ->
    Forall (fun t : list image => length t = n_batch) targets ->
    (forall i b s sy t, at3 synth i b s = Some sy -> at2 targets i b = Some t ->
       exists height width, shape2 height width sy /\ shape2 height width t /\
                            (0 < height)%nat /\ (0 < width)%nat) ->
    exists loss,
      PhotometricLossMultiScale_call self features predictions augm_data = inr loss /\
      length loss = n_batch /\
      forall b x, loss !! b = Some x ->
        0 <= x /\
        (method = "SSIM" ->
         x <= inject_Z (Z.of_nat (n_src * (length synth `min` length targets)))).
Proof.
  intros F P method key_suffix self features predictions augm_data synth targets
         n_batch n_src Hinit Ht Hs Hsne Htne Hshape Htl _.
  apply photometric_loss_init_cases in Hinit as [<- [[-> Hf]|[-> Hf]]].
  - destruct (photometric_call_entries photometric_loss_l1_view (fun x => 0 <= x)
                self features predictions augm_data synth targets n_batch n_src)
      as (loss & Hcall & Hlen & Hloss); try done.
    { intros. apply photometric_loss_l1_view_nonneg. }
    exists loss. split_and!; [done|done|].
    intros b x Hx. destruct (Hloss b x Hx) as (m & -> & _ & Hm). split; [|done].
    apply Qsum_nonneg, Forall_fmap. eapply Forall_impl; [exact Hm|].
    intros row [_ Hrow]. by apply Qsum_nonneg.
  - destruct (photometric_call_entries photometric_loss_ssim_view (fun x => 0 <= x <= 1)
                self features predictions augm_data synth targets n_batch n_src)
      as (loss & Hcall & Hlen & Hloss); try done.
    { intros. apply photometric_loss_ssim_view_unit. }
    exists loss. split_and!; [done|done|].
    intros b x Hx. destruct (Hloss b x Hx) as (m & -> & Lm & Hm).
    destruct (Qsum_nested_bounds m n_src _ 0 1 Lm Hm) as [B1 B2]. split; [lra|].
    intros _. lra.
Qed.

Lemma photometric_evaluator_reads_two_keys_witness :
  PhotometricLossMultiScale_call
    {| pl_photometric_loss := photometric_loss_l1; pl_key_suffix := "" |} tt tt
    (dict_update demo_augm demo_augm_R)
  = PhotometricLossMultiScale_call
      {| pl_photometric_loss := photometric_loss_l1; pl_key_suffix := "" |} tt tt demo_augm.
Proof.
  apply (photometric_evaluator_reads_two_keys
           {| pl_photometric_loss := photometric_loss_l1; pl_key_suffix := "" |} tt tt
           demo_augm demo_augm_R); by vm_compute.
Defined.


Lemma photometric_evaluator_bounds_witness :
  exists loss,
    PhotometricLossMultiScale_call
      {| pl_photometric_loss := photometric_loss_ssim; pl_key_suffix := "" |} tt tt
      demo_augm = inr loss /\
    length loss = 1%nat /\
    forall b x, loss !! b = Some x ->
      0 <= x /\
      ("SSIM" = "SSIM" ->
       x <= inject_Z (Z.of_nat (1 * (length [[[demo_synt]]] `min` length [[demo_orig]])))).
Proof.
  apply (photometric_evaluator_bounds "SSIM" ""
           {| pl_photometric_loss := photometric_loss_ssim; pl_key_suffix := "" |} tt tt
           demo_augm [[[demo_synt]]] [[demo_orig]] 1 1);
    try reflexivity; try done.
  - repeat constructor.
  - repeat constructor.
  - intros [|[|]] [|[|]] [|[|]] sy t [= <-] [= <-].
    exists 1%nat, 2%nat. split_and!; try lia; split; try reflexivity; repeat constructor.
Defined.

(** *** Saving the weights *)

Lemma save_models_snoc {M} (st : checkpoints M) epochs model val_loss :
  save_models st (epochs ++ [(model, val_loss)])
  = save_model (save_models st epochs) model val_loss.
Proof. unfold save_models. by rewrite foldl_app. Qed.

(** What a run of epochs from the state before the first call leaves. *)
Lemma save_models_invariant {M} (epochs : list (M * Q)) :
  epochs <> [] ->
  let st := save_models no_checkpoints epochs in
  exists b, best st = Some b /\
    (forall j m v, epochs !! j = Some (m, v) -> b <= v) /\
    ((saved st !! "best" = None /\ b = 10000) \/
     (exists i m, epochs !! i = Some (m, b) /\ saved st !! "best" = Some m /\
        b < 10000 /\
        forall j m' v', (j < i)%nat -> epochs !! j = Some (m', v') -> b < v')).
Proof.
  induction epochs as [|[model val_loss] epochs IH] using rev_ind; [done|].
  intros _. cbv zeta. rewrite save_models_snoc.
  destruct (decide (epochs = [])) as [->|Hne].
  - change (save_models no_checkpoints []) with (@no_checkpoints M).
    unfold save_model. cbn [best saved save_model_weights no_checkpoints default from_option id].
    destruct (Qlt_le_dec val_loss 10000) as [Hlt|Hle].
    + exists val_loss. cbn [best saved]. split_and!; [done| |].
      * intros [|j] m v [= <- <-]. lra.
      * right. exists 0%nat, model. split_and!; [done|by rewrite lookup_insert_eq|done|].
        intros; lia.
    + exists 10000. cbn [best saved]. split_and!; [done| |].
      * intros [|j] m v [= <- <-]. done.
      * left. split; [|done]. rewrite lookup_insert_ne; [|done]. done.
  - destruct (IH Hne) as (b & Hb & Hmin & Hbest). cbv zeta in Hb.
    set (st := save_models no_checkpoints epochs) in *.
    unfold save_model. cbn [best saved save_model_weights]. rewrite Hb. cbn [default from_option id].
    destruct (Qlt_le_dec val_loss b) as [Hlt|Hle].
    + exists val_loss. cbn [best saved]. split_and!; [done| |].
      * intros j m v Hj. apply lookup_app_Some in Hj as [Hj|[_ Hj]].
        -- pose proof (Hmin j m v Hj). lra.
        -- destruct (j - length epochs)%nat; [|done]. injection Hj as <- <-. lra.
      * right. exists (length epochs), model. split_and!.
        -- rewrite lookup_app_r, Nat.sub_diag; done.
        -- by rewrite lookup_insert_eq.
        -- destruct Hbest as [[_ ->]|(i & m & _ & _ & Hb10 & _)]; lra.
        -- intros j m' v' Hj Hl. rewrite lookup_app_l in Hl; [|done].
           pose proof (Hmin j m' v' Hl). lra.
    + exists b. cbn [best saved]. split_and!; [done| |].
      * intros j m v Hj. apply lookup_app_Some in Hj as [Hj|[_ Hj]].
        -- exact (Hmin j m v Hj).
        -- destruct (j - length epochs)%nat; [|done]. injection Hj as <- <-. done.
      * destruct Hbest as [[Hnone ->]|(i & m & Hi & Hsaved & Hb10 & Hfirst)].
        -- left. split; [|done]. rewrite lookup_insert_ne; done.
        -- right. exists i, m. split_and!.
           ++ by apply lookup_app_l_Some.
           ++ rewrite lookup_insert_ne; done.
           ++ done.
           ++ intros j m' v' Hj Hl. apply (Hfirst j m' v' Hj).
              rewrite lookup_app_l in Hl; [done|].
              apply lookup_lt_Some in Hi. lia.
Qed.

(** X15.  After the epochs of a run that starts with no checkpoint, the
    weights under 'best', where they exist, are those of the first epoch
    that reached the least validation loss of the run, this loss is below
    10000, and it is the loss that [save_model] keeps as its best. *)
Theorem save_model_best_is_first_minimum :
  forall {M : Type} (epochs : list (M * Q)) (m : M),
    saved (save_models no_checkpoints epochs) !! "best" = Some m ->
    exists i v,
      epochs !! i = Some (m, v) /\ v < 10000 /\
      best (save_models no_checkpoints epochs) = Some v /\
      (forall j m' v', epochs !! j = Some (m', v') -> v <= v') /\
      (forall j m' v', (j < i)%nat -> epochs !! j = Some (m', v') -> v < v').
Proof.
  intros M epochs m Hm.
  destruct (decide (epochs = [])) as [->|Hne]; [done|].
  destruct (save_models_invariant epochs Hne) as (b & Hb & Hmin & Hbest). cbv zeta in *.
  destruct Hbest as [[Hnone _]|(i & m' & Hi & Hsaved & Hb10 & Hfirst)]; [congruence|].
  exists i, b. rewrite Hm in Hsaved. injection Hsaved as <-. done.
Qed.

(** X16.  No weights are written under 'best' exactly when no epoch of the
    run has a validation loss below 10000. *)
Theorem save_model_best_absent_iff :
  forall {M : Type} (epochs : list (M * Q)),
    saved (save_models no_checkpoints epochs) !! "best" = None
    <-> forall j m v, epochs !! j = Some (m, v) -> 10000 <= v.
Proof.
  intros M epochs.
  destruct (decide (epochs = [])) as [->|Hne]; [done|].
  destruct (save_models_invariant epochs Hne) as (b & Hb & Hmin & Hbest). cbv zeta in *.
  destruct Hbest as [[Hnone ->]|(i & m' & Hi & Hsaved & Hb10 & Hfirst)].
  - split; [intros _; exact Hmin|done].
  - split; [congruence|]. intros Hall. pose proof (Hall i m' b Hi). lra.
Qed.

(** X17.  Whatever was saved before, after an epoch the weights under
    'latest' are those of this epoch, also when its validation loss is not
    the best one. *)
Theorem save_model_latest_is_last :
  forall {M : Type} (st : checkpoints M) (epochs : list (M * Q)) (model : M) (val_loss : Q),
    saved (save_models st (epochs ++ [(model, val_loss)])) !! "latest" = Some model.
Proof.
  intros M st epochs model val_loss. rewrite save_models_snoc.
  unfold save_model. cbn [best saved save_model_weights].
  destruct (Qlt_le_dec _ _); cbn [saved].
  - rewrite lookup_insert_ne; [|done]. by rewrite lookup_insert_eq.
  - by rewrite lookup_insert_eq.
Qed.

Lemma save_model_best_is_first_minimum_witness :
  exists i v,
    [(1%nat, 3); (2%nat, 2); (3%nat, 2); (4%nat, 5)] !! i = Some (2%nat, v) /\ v < 10000 /\
    best (save_models no_checkpoints [(1%nat, 3); (2%nat, 2); (3%nat, 2); (4%nat, 5)])
      = Some v /\
    (forall j m' v', [(1%nat, 3); (2%nat, 2); (3%nat, 2); (4%nat, 5)] !! j = Some (m', v') ->
                     v <= v') /\
    (forall j m' v', (j < i)%nat ->
                     [(1%nat, 3); (2%nat, 2); (3%nat, 2); (4%nat, 5)] !! j = Some (m', v') ->
                     v < v').
Proof.
  apply (save_model_best_is_first_minimum
           [(1%nat, 3); (2%nat, 2); (3%nat, 2); (4%nat, 5)] 2%nat).
  by vm_compute.
Defined.

(** *** The factory of the networks *)

Lemma arg_is_true v s : arg_is v s = true <-> v = ArgStr s.
Proof.
  destruct v as [t|x]; cbn; [|split; done].
  rewrite String.eqb_eq. split; congruence.
Qed.

(** X18.  Of the arguments it is given, [conv2d_factory] passes on the
    entries 'activation' and 'kernel_initializer' only, each exactly when
    the configuration has it: every other entry is dropped. *)
Theorem conv2d_factory_keys :
  forall (src_args : gmap string arg_value) (conv_layer : CustomConv2D) (key : string),
    conv2d_factory src_args = inr conv_layer ->
    (is_Some (conv_layer !! key)
     <-> (key = "activation" \/ key = "kernel_initializer") /\ is_Some (src_args !! key)).
Proof.
  intros src_args conv_layer key Hr. unfold conv2d_factory in Hr.
  destruct (decide (key = "activation")) as [->|Na];
    [|destruct (decide (key = "kernel_initializer")) as [->|Nk]];
    destruct (src_args !! "activation") as [va|] eqn:Ea;
    destruct (src_args !! "kernel_initializer") as [vk|] eqn:Ek;
    repeat case_match; simplify_eq; simpl_map;
    repeat (rewrite lookup_insert_ne by congruence); rewrite ?lookup_empty;
    rewrite !is_Some_alt; try rewrite Ea; try rewrite Ek; intuition congruence.
Qed.

(** X19.  [conv2d_factory] fails exactly when 'leaky_relu' or
    'truncated_normal' is asked for without its parameter, with the
    [KeyError] of the missing parameter, the one of the activation first;
    any other name is accepted and never reported. *)
Theorem conv2d_factory_raises_iff :
  forall (src_args : gmap string arg_value) (e : call_error),
    conv2d_factory src_args = inl e
    <-> (src_args !! "activation" = Some (ArgStr "leaky_relu") /\
         src_args !! "activation_param" = None /\
         e = KeyError "activation_param") \/
        (~ (src_args !! "activation" = Some (ArgStr "leaky_relu") /\
            src_args !! "activation_param" = None) /\
         src_args !! "kernel_initializer" = Some (ArgStr "truncated_normal") /\
         src_args !! "kernel_initializer_param" = None /\
         e = KeyError "kernel_initializer_param").
Proof.
  intros src_args e. unfold conv2d_factory.
  change ("activation" +:+ "_param") with "activation_param".
  change ("kernel_initializer" +:+ "_param") with "kernel_initializer_param".
  destruct (src_args !! "activation") as [va|] eqn:Ea;
    [destruct (arg_is va "leaky_relu") eqn:Eva;
       [apply arg_is_true in Eva as ->|
        assert (va <> ArgStr "leaky_relu") by (intros ->; done)]|];
    (destruct (src_args !! "kernel_initializer") as [vk|] eqn:Ek;
     [destruct (arg_is vk "truncated_normal") eqn:Evk;
        [apply arg_is_true in Evk as ->|
         assert (vk <> ArgStr "truncated_normal") by (intros ->; done)]|]);
    try destruct (src_args !! "activation_param") as [pa|] eqn:Epa;
    try destruct (src_args !! "kernel_initializer_param") as [pk|] eqn:Epk;
    (split; [intros Hr; simplify_eq; try (left; done); try (right; split_and!; [intros [? ?]|..]; done);
             try (right; split_and!; [intros [? ?]; congruence|..]; done)
            |intros [(? & ? & ?)|(? & ? & ? & ?)]; simplify_eq; try done; try tauto]).
Qed.

Ltac factory_step := cbn [mbind factory_bind lift_call lift_outcome].

Lemma lift_call_inr {A} (r : call_error + A) a : lift_call r = inr a <-> r = inr a.
Proof. destruct r; cbn; split; congruence. Qed.

(** The dictionary of networks that [get_model] wraps. *)
Lemma get_model_models (opts : options) (self : ModelFactory) (w : model_wrapper) :
  get_model opts self = inr w ->
  exists models : gmap string network,
    w = (if mf_stereo_extrinsic self then StereoPoseModelWrapper models
         else if mf_stereo self then StereoModelWrapper models
         else ModelWrapper models) /\
    match mf_net_names self !! "depth" with
    | Some net_name =>
        exists act conv net,
          activation_factory (mf_activation self) = Returned act /\
          conv2d_factory (DEPTH_CONV_ARGS opts) = inr conv /\
          depth_net_factory self net_name conv act (DEPTH_UPSAMPLE_INTERP opts) = inr net /\
          models !! "depthnet" = Some net
    | None => models !! "depthnet" = None
    end /\
    match mf_net_names self !! "camera" with
    | Some net_name =>
        exists conv net,
          conv2d_factory (POSE_CONV_ARGS opts) = inr conv /\
          pose_net_factory self net_name conv = inr net /\
          models !! "posenet" = Some net
    | None => models !! "posenet" = None
    end /\
    match mf_net_names self !! "flow" with
    | Some net_name =>
        exists conv net,
          conv2d_factory (FLOW_CONV_ARGS opts) = inr conv /\
          flow_net_factory self net_name conv = inr net /\
          models !! "flownet" = Some net
    | None => models !! "flownet" = None
    end /\
    forall key, key <> "depthnet" -> key <> "posenet" -> key <> "flownet" ->
                models !! key = None.
Proof.
  unfold get_model. intros Hw.
  destruct (mf_net_names self !! "depth") as [nd|];
    destruct (mf_net_names self !! "camera") as [np|];
    destruct (mf_net_names self !! "flow") as [nf|];
    cbn [mbind factory_bind lift_call lift_outcome] in Hw;
    repeat match type of Hw with
           | context [lift_outcome ?o] => destruct o as [?|?] eqn:?; cbn [mbind factory_bind lift_call lift_outcome] in Hw; [done|]
           | context [lift_call ?r] => destruct r as [?|?] eqn:?; cbn [mbind factory_bind lift_call lift_outcome] in Hw; [done|]
           | context [depth_net_factory ?a ?b ?c ?d ?e] =>
               destruct (depth_net_factory a b c d e) as [?|?] eqn:?; cbn [mbind factory_bind lift_call lift_outcome] in Hw; [done|]
           | context [pose_net_factory ?a ?b ?c] =>
               destruct (pose_net_factory a b c) as [?|?] eqn:?; cbn [mbind factory_bind lift_call lift_outcome] in Hw; [done|]
           | context [flow_net_factory ?a ?b ?c] =>
               destruct (flow_net_factory a b c) as [?|?] eqn:?; cbn [mbind factory_bind lift_call lift_outcome] in Hw; [done|]
           end;
    injection Hw as <-; eexists; (split; [reflexivity|]);
    split_and!;
    try (intros key H1 H2 H3); simpl_map;
    repeat (rewrite lookup_insert_ne by congruence); rewrite ?lookup_empty;
    try done; eauto 10.
Qed.

Lemma activation_factory_unknown (activ_name : string) :
  activ_name <> "InverseSigmoid" -> activ_name <> "Exponential" ->
  activation_factory activ_name = Returned None.
Proof.
  intros H1 H2. unfold activation_factory.
  apply String.eqb_neq in H1, H2. by rewrite H1, H2.
Qed.

Lemma depth_net_factory_returns (self : ModelFactory) net_name conv act interp :
  (exists net, depth_net_factory self net_name conv act interp = inr net)
  <-> net_name = "DepthNetBasic" \/ net_name = "DepthNetNoResize" \/
      net_name ∈ PRETRAINED_MODELS.
Proof.
  unfold depth_net_factory.
  destruct (String.eqb net_name "DepthNetBasic") eqn:E1;
    [apply String.eqb_eq in E1; split; eauto|apply String.eqb_neq in E1].
  destruct (String.eqb net_name "DepthNetNoResize") eqn:E2;
    [apply String.eqb_eq in E2; split; eauto|apply String.eqb_neq in E2].
  destruct (bool_decide (net_name ∈ PRETRAINED_MODELS)) eqn:E3.
  - apply bool_decide_eq_true in E3. split; eauto.
  - apply bool_decide_eq_false in E3. split; [intros [net ?]; done|tauto].
Qed.

Lemma pose_net_factory_returns (self : ModelFactory) net_name conv :
  (exists net, pose_net_factory self net_name conv = inr net) <-> net_name = "PoseNet".
Proof.
  unfold pose_net_factory. destruct (String.eqb net_name "PoseNet") eqn:E.
  - apply String.eqb_eq in E. split; eauto.
  - apply String.eqb_neq in E. split; [intros [net ?]; done|done].
Qed.

Lemma flow_net_factory_returns (self : ModelFactory) net_name conv :
  (exists net, flow_net_factory self net_name conv = inr net) <-> net_name = "PWCNet".
Proof.
  unfold flow_net_factory. destruct (String.eqb net_name "PWCNet") eqn:E.
  - apply String.eqb_eq in E. split; eauto.
  - apply String.eqb_neq in E. split; [intros [net ?]; done|done].
Qed.

(** X20.  [get_model] returns a model exactly when, for each network that
    [net_names] asks for, the convolution arguments of the configuration are
    accepted and the name of the network is a known one.  The name of the
    depth activation has no part in it. *)
Theorem get_model_returns_iff :
  forall (opts : options) (self : ModelFactory),
    (exists w, get_model opts self = inr w)
    <-> (forall net_name, mf_net_names self !! "depth" = Some net_name ->
           (exists conv, conv2d_factory (DEPTH_CONV_ARGS opts) = inr conv) /\
           (net_name = "DepthNetBasic" \/ net_name = "DepthNetNoResize" \/
            net_name ∈ PRETRAINED_MODELS)) /\
        (forall net_name, mf_net_names self !! "camera" = Some net_name ->
           (exists conv, conv2d_factory (POSE_CONV_ARGS opts) = inr conv) /\
           net_name = "PoseNet") /\
        (forall net_name, mf_net_names self !! "flow" = Some net_name ->
           (exists conv, conv2d_factory (FLOW_CONV_ARGS opts) = inr conv) /\
           net_name = "PWCNet").
Proof.
  intros opts self. split.
  - intros [w Hw]. apply get_model_models in Hw as (models & _ & Hd & Hp & Hf & _).
    split_and!; intros net_name Hn.
    + rewrite Hn in Hd. destruct Hd as (act & conv & net & _ & Hc & Hnet & _).
      split; [eauto|]. eapply depth_net_factory_returns; eauto.
    + rewrite Hn in Hp. destruct Hp as (conv & net & Hc & Hnet & _).
      split; [eauto|]. eapply pose_net_factory_returns; eauto.
    + rewrite Hn in Hf. destruct Hf as (conv & net & Hc & Hnet & _).
      split; [eauto|]. eapply flow_net_factory_returns; eauto.
  - intros (Hd & Hp & Hf). unfold get_model.
    destruct (activation_factory_never_raises (mf_activation self)) as [act ->].
    destruct (mf_net_names self !! "depth") as [nd|];
      [destruct (Hd nd eq_refl) as [[convd Hcd] Hnd];
       apply (depth_net_factory_returns self nd convd act (DEPTH_UPSAMPLE_INTERP opts))
         in Hnd as [netd Hnetd];
       factory_step; rewrite Hcd; factory_step; rewrite Hnetd; factory_step
      |factory_step];
      (destruct (mf_net_names self !! "camera") as [np|];
       [destruct (Hp np eq_refl) as [[convp Hcp] Hnp];
        apply (pose_net_factory_returns self np convp) in Hnp as [netp Hnetp];
        rewrite Hcp; factory_step; rewrite Hnetp; factory_step
       |factory_step]);
      (destruct (mf_net_names self !! "flow") as [nf|];
       [destruct (Hf nf eq_refl) as [[convf Hcf] Hnf];
        apply (flow_net_factory_returns self nf convf) in Hnf as [netf Hnetf];
        rewrite Hcf; factory_step; rewrite Hnetf; factory_step
       |factory_step]);
      eauto.
Qed.

(** X21.  With a depth activation name that [activation_factory] does not
    know, [get_model] reports nothing: where it returns, the depth network
    under 'depthnet' is the one built without an activation. *)
Theorem get_model_unknown_activation_builds_without :
  forall (opts : options) (self : ModelFactory) (w : model_wrapper) (net_name : string),
    mf_activation self <> "InverseSigmoid" -> mf_activation self <> "Exponential" ->
    mf_net_names self !! "depth" = Some net_name ->
    get_model opts self = inr w ->
    exists conv net,
      conv2d_factory (DEPTH_CONV_ARGS opts) = inr conv /\
      depth_net_factory self net_name conv None (DEPTH_UPSAMPLE_INTERP opts) = inr net /\
      wrapped_models w !! "depthnet" = Some net.
Proof.
  intros opts self w net_name H1 H2 Hn Hw.
  apply get_model_models in Hw as (models & -> & Hd & _).
  rewrite Hn in Hd. destruct Hd as (act & conv & net & Hact & Hc & Hnet & Hm).
  rewrite (activation_factory_unknown _ H1 H2) in Hact. injection Hact as <-.
  exists conv, net. split_and!; [done|done|].
  by destruct (mf_stereo_extrinsic self), (mf_stereo self).
Qed.

(** X22.  The model that [get_model] returns wraps one network for each of
    'depth', 'camera' and 'flow' that [net_names] has, under 'depthnet',
    'posenet' and 'flownet', and nothing else; it is the wrapper of the
    stereo extrinsic whenever [stereo_extrinsic] is set, whatever [stereo]
    is. *)
Theorem get_model_wraps_requested_networks :
  forall (opts : options) (self : ModelFactory) (w : model_wrapper),
    get_model opts self = inr w ->
    (forall key,
       is_Some (wrapped_models w !! key)
       <-> (key = "depthnet" /\ is_Some (mf_net_names self !! "depth")) \/
           (key = "posenet" /\ is_Some (mf_net_names self !! "camera")) \/
           (key = "flownet" /\ is_Some (mf_net_names self !! "flow"))) /\
    match w with
    | StereoPoseModelWrapper _ => mf_stereo_extrinsic self = true
    | StereoModelWrapper _ => mf_stereo_extrinsic self = false /\ mf_stereo self = true
    | ModelWrapper _ => mf_stereo_extrinsic self = false /\ mf_stereo self = false
    end.
Proof.
  intros opts self w Hw.
  apply get_model_models in Hw as (models & -> & Hd & Hp & Hf & Hother).
  split; [|by destruct (mf_stereo_extrinsic self), (mf_stereo self)].
  intros key.
  assert (wrapped_models
            (if mf_stereo_extrinsic self then StereoPoseModelWrapper models
             else if mf_stereo self then StereoModelWrapper models
             else ModelWrapper models) = models) as ->
    by (by destruct (mf_stereo_extrinsic self), (mf_stereo self)).
  destruct (decide (key = "depthnet")) as [->|Nd];
    [|destruct (decide (key = "posenet")) as [->|Np];
      [|destruct (decide (key = "flownet")) as [->|Nf]]].
  - destruct (mf_net_names self !! "depth").
    + destruct Hd as (? & ? & ? & _ & _ & _ & ->). split; eauto.
    + rewrite Hd. split; [by intros [? ?]|]. intros [[_ [? ?]]|[[? _]|[? _]]]; done.
  - destruct (mf_net_names self !! "camera").
    + destruct Hp as (? & ? & _ & _ & ->). split; eauto.
    + rewrite Hp. split; [by intros [? ?]|]. intros [[? _]|[[_ [? ?]]|[? _]]]; done.
  - destruct (mf_net_names self !! "flow").
    + destruct Hf as (? & ? & _ & _ & ->). split; eauto 6.
    + rewrite Hf. split; [by intros [? ?]|]. intros [[? _]|[[? _]|[_ [? ?]]]]; done.
  - rewrite (Hother key Nd Np Nf). split; [by intros [? ?]|].
    intros [[? _]|[[? _]|[? _]]]; done.
Qed.

Lemma conv2d_factory_keys_witness :
  is_Some (<["kernel_initializer" := GlorotUniform]>
             (<["activation" := LeakyReLU (ArgNum 0.1)]> (∅ : gmap string conv_arg))
           !! "activation_param")
  <-> ("activation_param" = "activation" \/ "activation_param" = "kernel_initializer") /\
      is_Some (DEPTH_CONV_ARGS demo_options !! "activation_param").
Proof.
  apply (conv2d_factory_keys (DEPTH_CONV_ARGS demo_options)
           (<["kernel_initializer" := GlorotUniform]>
              (<["activation" := LeakyReLU (ArgNum 0.1)]> ∅)) "activation_param").
  by vm_compute.
Defined.

Lemma get_model_unknown_activation_builds_without_witness :
  exists conv net,
    conv2d_factory (DEPTH_CONV_ARGS demo_options) = inr conv /\
    depth_net_factory demo_factory "DepthNetBasic" conv None
      (DEPTH_UPSAMPLE_INTERP demo_options) = inr net /\
    wrapped_models
      (StereoModelWrapper
         (<["posenet" := PoseNet [8; 5; 128; 384; 3]%nat (<["activation" := ReLU]> ∅)]>
            (<["depthnet" :=
                 DepthNetBasic [8; 5; 128; 384; 3]%nat
                   (<["kernel_initializer" := GlorotUniform]>
                      (<["activation" := LeakyReLU (ArgNum 0.1)]> ∅))
                   None "nearest"]> ∅)))
    !! "depthnet" = Some net.
Proof.
  apply (get_model_unknown_activation_builds_without demo_options demo_factory _
           "DepthNetBasic"); by vm_compute.
Defined.

Lemma get_model_wraps_requested_networks_witness :
  (forall key,
     is_Some (wrapped_models
                (StereoModelWrapper
                   (<["posenet" := PoseNet [8; 5; 128; 384; 3]%nat
                                     (<["activation" := ReLU]> ∅)]>
                      (<["depthnet" :=
                           DepthNetBasic [8; 5; 128; 384; 3]%nat
                             (<["kernel_initializer" := GlorotUniform]>
                                (<["activation" := LeakyReLU (ArgNum 0.1)]> ∅))
                             None "nearest"]> ∅))) !! key)
     <-> (key = "depthnet" /\ is_Some (mf_net_names demo_factory !! "depth")) \/
         (key = "posenet" /\ is_Some (mf_net_names demo_factory !! "camera")) \/
         (key = "flownet" /\ is_Some (mf_net_names demo_factory !! "flow"))) /\
  (mf_stereo_extrinsic demo_factory = false /\ mf_stereo demo_factory = true).
Proof.
  apply (get_model_wraps_requested_networks demo_options demo_factory
           (StereoModelWrapper _)).
  by vm_compute.
Defined.

(** *** The smoothness loss *)

Lemma Forall_zip_with_l {A B C} (f : A -> B -> C) (P : A -> Prop) (R : C -> Prop)
    (l : list A) (k : list B) :
  (forall x y, P x -> R (f x y)) -> Forall P l -> Forall R (zip_with f l k).
Proof.
  intros Hf Hl. revert k. induction Hl as [|x l Hx _ IH]; intros [|y k]; cbn; auto.
Qed.

Lemma Forall_zip_with_any {A B C} (f : A -> B -> C) (R : C -> Prop)
    (l : list A) (k : list B) :
  (forall x y, R (f x y)) -> Forall R (zip_with f l k).
Proof.
  intros Hf. revert k. induction l as [|x l IH]; intros [|y k]; cbn; auto.
Qed.

Lemma reduce_mean_hw_nonneg (x : tensor2) :
  Forall (Forall (fun v => 0 <= v)) x -> 0 <= reduce_mean_hw x.
Proof.
  intros Hx. unfold reduce_mean_hw. apply Qmult_le_0_compat.
  - apply Qsum_nonneg. by apply Forall_join.
  - apply Qinv_le_0_compat, inject_nat_nonneg.
Qed.

Lemma reduce_mean_hw_zero (x : tensor2) :
  Forall (Forall (fun v => v == 0)) x -> reduce_mean_hw x == 0.
Proof.
  intros Hx. unfold reduce_mean_hw.
  rewrite (Qsum_zero (mjoin x)) by (by apply Forall_join).
  unfold Qdiv. ring.
Qed.

Lemma abs_rows_nonneg (t : tensor2) :
  Forall (Forall (fun v => 0 <= v)) ((fun row : tensor1 => Qabs <$> row) <$> t).
Proof.
  apply Forall_fmap, Forall_true. intros row. cbn.
  apply Forall_fmap, Forall_true. intros v. apply Qabs_nonneg.
Qed.

Lemma abs_rows_zero (t : tensor2) :
  Forall (Forall (fun v => v == 0)) t ->
  Forall (Forall (fun v => v == 0)) ((fun row : tensor1 => Qabs <$> row) <$> t).
Proof.
  intros Ht. apply Forall_fmap. eapply Forall_impl; [exact Ht|]. intros row Hrow. cbn.
  apply Forall_fmap. eapply Forall_impl; [exact Hrow|]. intros v Hv. cbn.
  rewrite Hv. reflexivity.
Qed.

Lemma gradient_x_constant (k : Q) (d : tensor2) :
  Forall (Forall (fun v => v == k)) d ->
  Forall (Forall (fun v => v == 0)) (gradient_x Qminus d).
Proof.
  intros Hd. unfold gradient_x. apply Forall_fmap.
  eapply Forall_impl; [exact Hd|]. intros row Hrow. cbn.
  apply Forall_lookup. intros c v Hv.
  apply lookup_zip_with_Some in Hv as (a & b & -> & Ha & Hb).
  apply lookup_take_Some in Ha as [Ha _]. rewrite lookup_drop in Hb.
  pose proof (Forall_lookup_1 _ _ _ _ Hrow Ha) as Ea.
  pose proof (Forall_lookup_1 _ _ _ _ Hrow Hb) as Eb. cbn in Ea, Eb.
  rewrite Ea, Eb. ring.
Qed.

Lemma gradient_y_constant (k : Q) (d : tensor2) :
  Forall (Forall (fun v => v == k)) d ->
  Forall (Forall (fun v => v == 0)) (gradient_y Qminus d).
Proof.
  intros Hd. unfold gradient_y. apply Forall_lookup. intros r row Hrow.
  apply lookup_zip_with_Some in Hrow as (ra & rb & -> & Ha & Hb).
  apply lookup_take_Some in Ha as [Ha _]. rewrite lookup_drop in Hb.
  pose proof (Forall_lookup_1 _ _ _ _ Hd Ha) as Fa.
  pose proof (Forall_lookup_1 _ _ _ _ Hd Hb) as Fb. cbn in Fa, Fb.
  apply Forall_lookup. intros c v Hv.
  apply lookup_zip_with_Some in Hv as (a & b & -> & Hra & Hrb).
  pose proof (Forall_lookup_1 _ _ _ _ Fa Hra) as Ea.
  pose proof (Forall_lookup_1 _ _ _ _ Fb Hrb) as Eb. cbn in Ea, Eb.
  rewrite Ea, Eb. ring.
Qed.

Lemma weighted_zero (g w : tensor2) :
  Forall (Forall (fun v => v == 0)) g ->
  Forall (Forall (fun v => v == 0)) (zip_with (zip_with Qmult) g w).
Proof.
  apply Forall_zip_with_l. intros row wrow. apply Forall_zip_with_l.
  intros v x Hv. rewrite Hv. ring.
Qed.

Lemma smootheness_loss_view_nonneg (tf_exp : Q -> Q) (disp : tensor2) (image : image) :
  0 <= smootheness_loss_view tf_exp disp image.
Proof.
  unfold smootheness_loss_view.
  pose proof (reduce_mean_hw_nonneg _ (abs_rows_nonneg
    (zip_with (zip_with Qmult) (gradient_x Qminus disp)
       (edge_weights tf_exp (gradient_x (px_map2 Qminus) image))))) as Hx.
  pose proof (reduce_mean_hw_nonneg _ (abs_rows_nonneg
    (zip_with (zip_with Qmult) (gradient_y Qminus disp)
       (edge_weights tf_exp (gradient_y (px_map2 Qminus) image))))) as Hy.
  cbv zeta. lra.
Qed.

Lemma smootheness_loss_view_constant (tf_exp : Q -> Q) (k : Q) (disp : tensor2)
    (image : image) :
  Forall (Forall (fun v => v == k)) disp ->
  smootheness_loss_view tf_exp disp image == 0.
Proof.
  intros Hd. unfold smootheness_loss_view. cbv zeta.
  rewrite !reduce_mean_hw_zero.
  - ring.
  - apply abs_rows_zero, weighted_zero. by apply (gradient_y_constant k).
  - apply abs_rows_zero, weighted_zero. by apply (gradient_x_constant k).
Qed.

(** X23.  For a disparity map and a frame of one size with at least two
    rows and two columns, the smoothness loss is never negative, whatever
    the weights of the image edges are. *)
Theorem smootheness_loss_nonneg :
  forall (tf_exp : Q -> Q) (disp : tensor3) (image : list image) (b height width : nat)
         (d : tensor2) (im : list (list pixel)),
    disp !! b = Some d -> image !! b = Some im ->
    shape2 height width d -> shape2 height width im ->
    (2 <= height)%nat -> (2 <= width)%nat ->
    exists loss,
      smootheness_loss tf_exp disp image !! b = Some loss /\ 0 <= loss.
Proof.
  intros tf_exp disp image b height width d im Hd Him _ _ _ _.
  exists (smootheness_loss_view tf_exp d im). split.
  - unfold smootheness_loss. by rewrite lookup_zip_with, Hd, Him.
  - apply smootheness_loss_view_nonneg.
Qed.

(** X24.  A disparity map that holds one value everywhere has the
    smoothness loss 0, whatever the frame shows. *)
Theorem smootheness_loss_zero_on_constant_disparity :
  forall (tf_exp : Q -> Q) (disp : tensor3) (image : list image) (b height width : nat)
         (d : tensor2) (im : list (list pixel)) (k : Q),
    disp !! b = Some d -> image !! b = Some im ->
    shape2 height width d -> shape2 height width im ->
    (2 <= height)%nat -> (2 <= width)%nat ->
    (forall r c v, at2 d r c = Some v -> v == k) ->
    exists loss,
      smootheness_loss tf_exp disp image !! b = Some loss /\ loss == 0.
Proof.
  intros tf_exp disp image b height width d im k Hd Him _ _ _ _ Hk.
  exists (smootheness_loss_view tf_exp d im). split.
  - unfold smootheness_loss. by rewrite lookup_zip_with, Hd, Him.
  - apply (smootheness_loss_view_constant tf_exp k).
    apply Forall_lookup. intros r row Hrow. apply Forall_lookup. intros c v Hv.
    apply (Hk r c v). unfold at2. by rewrite Hrow.
Qed.

Lemma smootheness_loss_nonneg_witness :
  exists loss,
    smootheness_loss demo_exp [demo_disp] [demo_frame] !! 0%nat = Some loss /\ 0 <= loss.
Proof.
  apply (smootheness_loss_nonneg demo_exp [demo_disp] [demo_frame] 0 2 2
           demo_disp demo_frame);
    try reflexivity; try lia; split; try reflexivity; repeat constructor.
Defined.

Lemma smootheness_loss_zero_on_constant_disparity_witness :
  exists loss,
    smootheness_loss demo_exp [[[4; 4]; [4; 4]]] [demo_frame] !! 0%nat = Some loss /\
    loss == 0.
Proof.
  apply (smootheness_loss_zero_on_constant_disparity demo_exp [[[4; 4]; [4; 4]]]
           [demo_frame] 0 2 2 [[4; 4]; [4; 4]] demo_frame 4);
    try reflexivity; try lia; try (split; [reflexivity|repeat constructor]).
  intros [|[|]] [|[|]] v [= <-]; reflexivity.
Defined.

(** *** Back-projection and projection *)

Lemma has_col_at2 (m : tensor2) k vals i v :
  has_col m k vals -> vals !! i = Some v -> at2 m i k = Some v.
Proof.
  intros Hc Hv. destruct (Forall2_lookup_r _ _ _ _ _ Hc Hv) as (row & Hrow & Hk).
  unfold at2. by rewrite Hrow.
Qed.



(** *** Rounding to [float32] *)

Lemma pow2_pos (k : Z) : 0 < 2 ^ k.
Proof. by apply Qpower_0_lt. Qed.

Lemma pow2_succ (k : Z) : 2 ^ (k + 1) == 2 * 2 ^ k.
Proof. rewrite Qpower_plus by done. change (2 ^ 1) with 2. ring. Qed.

Lemma pow2_pred (k : Z) : 2 ^ (k - 1) == 2 ^ k * (1 # 2).
Proof.
  unfold Z.sub. rewrite Qpower_plus by done. change (2 ^ (-1)) with (1 # 2). reflexivity.
Qed.

Lemma pow2_le (a b : Z) : (a <= b)%Z -> 2 ^ a <= 2 ^ b.
Proof. intros H. by apply Qpower_le_compat_l. Qed.

Lemma pow2_lt (a b : Z) : (a < b)%Z -> 2 ^ a < 2 ^ b.
Proof. intros H. by apply Qpower_lt_compat_l. Qed.

Lemma pow2_log2 (n : Z) :
  (0 < n)%Z -> 2 ^ Z.log2 n <= inject_Z n /\ inject_Z n < 2 * 2 ^ Z.log2 n.
Proof.
  intros Hn. destruct (Z.log2_spec n Hn) as [H1 H2].
  pose proof (Z.log2_nonneg n) as H0.
  rewrite <- pow2_succ.
  change 2 with (inject_Z 2). rewrite <- !Zpower_Qpower by lia.
  rewrite <- Zle_Qle, <- Zlt_Qlt. unfold Z.succ in H2. done.
Qed.

Lemma ilog2_spec (x : Q) : 0 < x -> 2 ^ ilog2 x <= x /\ x < 2 ^ (ilog2 x + 1).
Proof.
  intros Hx. unfold ilog2.
  assert (0 < Qnum x)%Z as Hp by (destruct x as [p d]; unfold Qlt in Hx; simpl in *; lia).
  destruct (pow2_log2 (Qnum x) Hp) as [A1 A2].
  destruct (pow2_log2 (Zpos (Qden x)) eq_refl) as [B1 B2].
  pose proof (pow2_pos (Z.log2 (Qnum x))) as HA.
  pose proof (pow2_pos (Z.log2 (Zpos (Qden x)))) as HB.
  set (A := 2 ^ Z.log2 (Qnum x)) in *. set (B := 2 ^ Z.log2 (Zpos (Qden x))) in *.
  assert (2 ^ (Z.log2 (Qnum x) - Z.log2 (Z.pos (Qden x))) == A / B) as Ek
    by (by rewrite Qpower_minus).
  assert (x == inject_Z (Qnum x) / inject_Z (Zpos (Qden x))) as Ex
    by (destruct x as [p d]; apply Qmake_Qdiv).
  set (P := inject_Z (Qnum x)) in *. set (D := inject_Z (Zpos (Qden x))) in *.
  assert (0 < D) as HD by lra.
  assert (A / B * (1 # 2) < x) as Hlo.
  { rewrite Ex. apply Qlt_shift_div_l; [done|].
    assert (A / B * (1 # 2) * D == A * D / (2 * B)) as -> by (field; lra).
    apply Qlt_shift_div_r; [lra|]. nra. }
  assert (x < 2 * (A / B)) as Hhi.
  { rewrite Ex. apply Qlt_shift_div_r; [done|].
    assert (2 * (A / B) * D == 2 * A * D / B) as -> by (field; lra).
    apply Qlt_shift_div_l; [lra|]. nra. }
  destruct (Qle_bool _ x) eqn:Hb.
  - apply Qle_bool_iff in Hb. split; [done|]. rewrite pow2_succ, Ek. done.
  - assert (~ 2 ^ (Z.log2 (Qnum x) - Z.log2 (Z.pos (Qden x))) <= x) as Hn.
    { intros H. apply Qle_bool_iff in H. congruence. }
    apply Qnot_le_lt in Hn. split.
    + rewrite pow2_pred, Ek. lra.
    + by rewrite Z.sub_add.
Qed.

Lemma ilog2_unique (x : Q) (e : Z) : 2 ^ e <= x -> x < 2 ^ (e + 1) -> ilog2 x = e.
Proof.
  intros H1 H2. pose proof (pow2_pos e) as He.
  destruct (ilog2_spec x ltac:(lra)) as [L1 L2].
  destruct (Z.lt_trichotomy (ilog2 x) e) as [Hlt|[Heq|Hgt]]; [|done|].
  - pose proof (pow2_le (ilog2 x + 1) e ltac:(lia)). lra.
  - pose proof (pow2_le (e + 1) (ilog2 x) ltac:(lia)). lra.
Qed.
Lemma round_half_even_near (y : Q) :
  y - (1 # 2) <= inject_Z (round_half_even y) <= y + (1 # 2).
Proof.
  unfold round_half_even. pose proof (Qfloor_le y) as H1. pose proof (Qlt_floor y) as H2.
  rewrite inject_Z_plus in H2. change (inject_Z 1) with 1 in H2.
  destruct (Qcompare (y - inject_Z (Qfloor y)) (1 # 2)) eqn:Hc.
  - apply Qeq_alt in Hc. destruct (Z.even _);
      rewrite ?inject_Z_plus; change (inject_Z 1) with 1; split; lra.
  - apply Qlt_alt in Hc. split; lra.
  - apply Qgt_alt in Hc. rewrite inject_Z_plus. change (inject_Z 1) with 1. split; lra.
Qed.

Lemma round_half_even_below_half (y : Q) (m : Z) :
  inject_Z m <= y -> y < inject_Z m + (1 # 2) -> round_half_even y = m.
Proof.
  intros H1 H2. unfold round_half_even.
  assert (Qfloor y = m) as ->.
  { apply Qfloor_unique; lra. }
  assert (Qcompare (y - inject_Z m) (1 # 2) = Lt) as -> by (apply (proj1 (Qlt_alt _ _)); lra).
  done.
Qed.

Lemma Qabs_nonzero_pos (x : Q) : ~ x == 0 -> 0 < Qabs x.
Proof.
  intros Hx. destruct (Q_dec x 0) as [[H|H]|H]; [| |done].
  - rewrite Qabs_neg by lra. lra.
  - rewrite Qabs_pos by lra. lra.
Qed.

Lemma f32_quantum_pos (x : Q) : 0 < f32_quantum x.
Proof. apply pow2_pos. Qed.

Lemma f32_quantum_le (x : Q) :
  ~ x == 0 -> f32_quantum x <= 2 * (Qabs x * f32_eps + f32_eta).
Proof.
  intros Hx. unfold f32_quantum.
  assert (0 < Qabs x) as Hpos by (by apply Qabs_nonzero_pos).
  destruct (ilog2_spec (Qabs x) Hpos) as [L1 _].
  pose proof (pow2_pos (-150)) as Heta. fold f32_eta in Heta.
  pose proof (pow2_pos (-24)) as Heps. fold f32_eps in Heps.
  destruct (Z.max_spec (ilog2 (Qabs x)) (-126)) as [[_ ->]|[_ ->]].
  - assert (2 ^ (-126 - 23) == 2 * f32_eta) as -> by (by vm_compute). nra.
  - unfold Z.sub. rewrite Qpower_plus by done.
    assert (2 ^ (-(23)) == 2 * f32_eps) as -> by (by vm_compute). nra.
Qed.

(** A result below the overflow threshold rounds to a number, of the sign of
    the result and at most half a quantum away from it. *)
Lemma f32_round_finite (x : Q) :
  Qabs x < f32_overflow ->
  exists y, f32_round x = F32 y /\
    x - (Qabs x * f32_eps + f32_eta) <= y <= x + (Qabs x * f32_eps + f32_eta) /\
    (0 <= x -> 0 <= y) /\ (x <= 0 -> y <= 0).
Proof.
  intros Hfin. unfold f32_round.
  pose proof (pow2_pos (-150)) as Heta. fold f32_eta in Heta.
  pose proof (pow2_pos (-24)) as Heps. fold f32_eps in Heps.
  pose proof (Qabs_nonneg x) as Habs.
  destruct (Qeq_bool x 0) eqn:E0.
  { apply Qeq_bool_iff in E0. exists 0. split; [done|]. rewrite E0.
    change (Qabs 0) with 0. split_and!; lra. }
  apply Qeq_bool_neq in E0.
  assert (Qle_bool f32_overflow (Qabs x) = false) as ->.
  { destruct (Qle_bool _ _) eqn:E; [|done]. apply Qle_bool_iff in E. lra. }
  eexists. split; [reflexivity|].
  pose proof (f32_quantum_pos x) as Hq. pose proof (f32_quantum_le x E0) as Hq2.
  pose proof (round_half_even_near (x / f32_quantum x)) as [N1 N2].
  set (q := f32_quantum x) in *. set (n := inject_Z (round_half_even (x / q))) in *.
  assert (x == x / q * q) as Ex by (field; lra).
  split_and!.
  - assert (x / q * q - q * (1 # 2) <= n * q) by nra. lra.
  - assert (n * q <= x / q * q + q * (1 # 2)) by nra. lra.
  - intros Hx. assert (0 <= x / q) as Hxq.
    { apply Qle_shift_div_l; [done|]. lra. }
    assert (0 <= round_half_even (x / q))%Z as Hn.
    { assert (-1 < round_half_even (x / q))%Z; [|lia].
      rewrite Zlt_Qlt. fold n. change (inject_Z (-1)) with (-1). lra. }
    rewrite Zle_Qle in Hn. fold n in Hn. change (inject_Z 0) with 0 in Hn. nra.
  - intros Hx. assert (x / q <= 0) as Hxq.
    { apply Qle_shift_div_r; [done|]. lra. }
    assert (round_half_even (x / q) <= 0)%Z as Hn.
    { assert (round_half_even (x / q) < 1)%Z; [|lia].
      rewrite Zlt_Qlt. fold n. change (inject_Z 1) with 1. lra. }
    rewrite Zle_Qle in Hn. fold n in Hn. change (inject_Z 0) with 0 in Hn. nra.
Qed.
Lemma f32_round_not_overflow (x : Q) :
  ~ x == 0 -> Qabs x < f32_overflow ->
  f32_round x = F32 (inject_Z (round_half_even (x / f32_quantum x)) * f32_quantum x).
Proof.
  intros Hx Hfin. unfold f32_round.
  assert (Qeq_bool x 0 = false) as ->.
  { destruct (Qeq_bool x 0) eqn:E; [|done]. by apply Qeq_bool_iff in E. }
  assert (Qle_bool f32_overflow (Qabs x) = false) as ->; [|done].
  destruct (Qle_bool _ _) eqn:E; [|done]. apply Qle_bool_iff in E. lra.
Qed.

Lemma inject_Z_pow2 (n : Z) : (0 <= n)%Z -> inject_Z (2 ^ n) == 2 ^ n.
Proof. intros Hn. by rewrite Zpower_Qpower. Qed.

(** A number of at most 24 bits of mantissa rounds to itself. *)
Lemma f32_round_exact (m k : Z) :
  (Z.abs m < 2 ^ 24)%Z -> (-149 <= k)%Z ->
  Qabs (inject_Z m * 2 ^ k) < f32_overflow ->
  exists y, f32_round (inject_Z m * 2 ^ k) = F32 y /\ y == inject_Z m * 2 ^ k.
Proof.
  intros Hm Hk Hfin. pose proof (pow2_pos k) as Hpk.
  destruct (decide (m = 0%Z)) as [->|Hm0].
  { exists 0. split; [|ring]. unfold f32_round.
    assert (Qeq_bool (inject_Z 0 * 2 ^ k) 0 = true) as ->; [|done].
    apply Qeq_bool_iff. ring. }
  set (x := inject_Z m * 2 ^ k) in *.
  assert (Qabs x == inject_Z (Z.abs m) * 2 ^ k) as Eabs.
  { unfold x. rewrite Qabs_Qmult, (Qabs_pos (2 ^ k)) by lra. reflexivity. }
  assert (1 <= inject_Z (Z.abs m)) as Hm1.
  { change 1 with (inject_Z 1). rewrite <- Zle_Qle. lia. }
  assert (inject_Z (Z.abs m) < 2 ^ 24) as Hm2.
  { rewrite <- inject_Z_pow2 by lia. rewrite <- Zlt_Qlt. done. }
  assert (~ x == 0) as Hx0.
  { intros E. rewrite E in Eabs. change (Qabs 0) with 0 in Eabs. nra. }
  pose proof (Qabs_nonzero_pos x Hx0) as Hpos.
  destruct (ilog2_spec (Qabs x) Hpos) as [L1 _].
  assert (ilog2 (Qabs x) < 24 + k)%Z as He.
  { destruct (Z_lt_le_dec (ilog2 (Qabs x)) (24 + k)) as [|Hge]; [done|].
    pose proof (pow2_le _ _ Hge) as H. rewrite Qpower_plus in H by done. nra. }
  rewrite f32_round_not_overflow by done. eexists. split; [reflexivity|].
  unfold f32_quantum. set (qe := (Z.max (ilog2 (Qabs x)) (-126) - 23)%Z).
  assert (qe <= k)%Z as Hqe by lia.
  pose proof (pow2_pos qe) as Hpq.
  assert (2 ^ k == inject_Z (2 ^ (k - qe)) * 2 ^ qe) as Ek.
  { rewrite inject_Z_pow2 by lia. rewrite <- Qpower_plus by done.
    by replace (k - qe + qe)%Z with k by lia. }
  assert (x / 2 ^ qe == inject_Z (m * 2 ^ (k - qe))) as Exq.
  { unfold x. rewrite Ek, inject_Z_mult. field. lra. }
  rewrite (round_half_even_below_half _ (m * 2 ^ (k - qe))) by (rewrite Exq; lra).
  unfold x. rewrite Ek, inject_Z_mult. ring.
Qed.

(** A positive addend below half a quantum is lost in the sum. *)
Lemma f32_round_absorb (m k : Z) (g : Q) :
  (2 ^ 23 <= m < 2 ^ 24)%Z -> (-149 <= k)%Z ->
  0 <= g -> g < 2 ^ (k - 1) ->
  inject_Z m * 2 ^ k + g < f32_overflow ->
  exists y, f32_round (inject_Z m * 2 ^ k + g) = F32 y /\ y == inject_Z m * 2 ^ k.
Proof.
  intros [Hm1 Hm2] Hk Hg1 Hg2 Hfin. pose proof (pow2_pos k) as Hpk.
  rewrite pow2_pred in Hg2.
  assert (2 ^ (23 + k) == 8388608 * 2 ^ k) as E23 by (by rewrite Qpower_plus).
  assert (2 ^ (24 + k) == 16777216 * 2 ^ k) as E24 by (by rewrite Qpower_plus).
  remember (2 ^ k) as p eqn:Ep.
  assert (2 ^ 23 <= inject_Z m) as Hm1'.
  { rewrite <- inject_Z_pow2 by lia. by rewrite <- Zle_Qle. }
  assert (inject_Z m + 1 <= 2 ^ 24) as Hm2'.
  { rewrite <- inject_Z_pow2 by lia. change 1 with (inject_Z 1).
    rewrite <- inject_Z_plus, <- Zle_Qle. lia. }
  change (2 ^ 23) with 8388608 in Hm1'. change (2 ^ 24) with 16777216 in Hm2'.
  set (x := inject_Z m * p + g) in *.
  assert (0 < inject_Z m * p) as Hmk by (apply Qmult_lt_0_compat; lra).
  assert (0 < x) as Hpos by (unfold x; lra).
  assert (Qabs x == x) as Eabs by (apply Qabs_pos; lra).
  assert (ilog2 (Qabs x) = 23 + k)%Z as He.
  { apply ilog2_unique; rewrite Eabs.
    - rewrite E23. unfold x. clear E23 E24.
      assert (8388608 * p <= inject_Z m * p) by (apply Qmult_le_compat_r; lra).
      lra.
    - replace (23 + k + 1)%Z with (24 + k)%Z by lia. rewrite E24. unfold x. clear E23 E24.
      assert (inject_Z m * p + p <= 16777216 * p) as H.
      { assert (inject_Z m * p + p == (inject_Z m + 1) * p) as -> by ring.
        apply Qmult_le_compat_r; lra. }
      lra. }
  clear E23 E24.
  rewrite f32_round_not_overflow; [|lra|by rewrite Eabs].
  eexists. split; [reflexivity|].
  unfold f32_quantum. rewrite He.
  replace (Z.max (23 + k) (-126) - 23)%Z with k by lia.
  rewrite <- ?Ep.
  rewrite (round_half_even_below_half _ m); [unfold x; try reflexivity| |].
  - apply Qle_shift_div_l; [done|]. unfold x. lra.
  - apply Qlt_shift_div_r; [done|]. unfold x. lra.
Qed.
Lemma round_half_even_comp (y y' : Q) : y == y' -> round_half_even y = round_half_even y'.
Proof.
  intros E. unfold round_half_even. rewrite (Qfloor_comp _ _ E).
  assert (Qcompare (y - inject_Z (Qfloor y')) (1 # 2)
          = Qcompare (y' - inject_Z (Qfloor y')) (1 # 2)) as ->; [|done].
  by rewrite E.
Qed.

Lemma f32_round_comp (x x' : Q) : x == x' -> f32_round x = f32_round x'.
Proof.
  intros E. unfold f32_round.
  assert (Qeq_bool x 0 = Qeq_bool x' 0) as ->.
  { destruct (Qeq_bool x' 0) eqn:E0.
    - apply Qeq_bool_iff. apply Qeq_bool_iff in E0. by rewrite E.
    - destruct (Qeq_bool x 0) eqn:E1; [|done]. apply Qeq_bool_iff in E1.
      apply Qeq_bool_neq in E0. rewrite E in E1. done. }
  destruct (Qeq_bool x' 0) eqn:E0; [done|]. apply Qeq_bool_neq in E0.
  assert (Qabs x == Qabs x') as Eabs by (by rewrite E).
  assert (Qle_bool f32_overflow (Qabs x) = Qle_bool f32_overflow (Qabs x')) as ->.
  { destruct (Qle_bool f32_overflow (Qabs x')) eqn:E1.
    - apply Qle_bool_iff. apply Qle_bool_iff in E1. by rewrite Eabs.
    - destruct (Qle_bool f32_overflow (Qabs x)) eqn:E2; [|done].
      apply Qle_bool_iff in E2. rewrite Eabs in E2. apply Qle_bool_iff in E2. congruence. }
  assert (Qle_bool 0 x = Qle_bool 0 x') as ->.
  { destruct (Qle_bool 0 x') eqn:E1.
    - apply Qle_bool_iff. apply Qle_bool_iff in E1. by rewrite E.
    - destruct (Qle_bool 0 x) eqn:E2; [|done].
      apply Qle_bool_iff in E2. rewrite E in E2. apply Qle_bool_iff in E2. congruence. }
  destruct (Qle_bool f32_overflow (Qabs x')); [done|].
  assert (f32_quantum x = f32_quantum x') as ->.
  { unfold f32_quantum. f_equal. f_equal. f_equal.
    pose proof (Qabs_nonzero_pos x' E0) as Hpos.
    destruct (ilog2_spec (Qabs x') Hpos) as [L1 L2].
    apply ilog2_unique; by rewrite Eabs. }
  f_equal. f_equal. f_equal. apply round_half_even_comp. by rewrite E.
Qed.

Lemma f32_eps_value : f32_eps == 1 # 16777216.
Proof. reflexivity. Qed.

Lemma f32_eta_small : 0 < f32_eta /\ f32_eta <= 1 # 1000000000000.
Proof. split; [apply pow2_pos|by vm_compute]. Qed.

(** A result of magnitude 2 or more keeps three quarters of it, or
    overflows. *)
Lemma f32_round_large (x : Q) :
  2 <= x ->
  match f32_round x with
  | F32 y => x * (3 # 4) <= y
  | F32_inf negative => negative = false
  | F32_nan => False
  end.
Proof.
  intros Hx. destruct (Qlt_le_dec (Qabs x) f32_overflow) as [Hfin|Hinf].
  - destruct (f32_round_finite x Hfin) as (y & -> & [H1 _] & _).
    rewrite Qabs_pos, f32_eps_value in H1 by lra. destruct f32_eta_small as [? ?]. lra.
  - unfold f32_round.
    assert (Qeq_bool x 0 = false) as ->.
    { destruct (Qeq_bool x 0) eqn:E; [|done]. apply Qeq_bool_iff in E. lra. }
    apply Qle_bool_iff in Hinf. rewrite Hinf.
    assert (Qle_bool 0 x = true) as -> by (apply Qle_bool_iff; lra). done.
Qed.

Lemma f32_round_large_neg (x : Q) :
  x <= -2 ->
  match f32_round x with
  | F32 y => y <= x * (3 # 4)
  | F32_inf negative => negative = true
  | F32_nan => False
  end.
Proof.
  intros Hx. destruct (Qlt_le_dec (Qabs x) f32_overflow) as [Hfin|Hinf].
  - destruct (f32_round_finite x Hfin) as (y & -> & [_ H1] & _).
    rewrite Qabs_neg, f32_eps_value in H1 by lra. destruct f32_eta_small as [? ?]. lra.
  - unfold f32_round.
    assert (Qeq_bool x 0 = false) as ->.
    { destruct (Qeq_bool x 0) eqn:E; [|done]. apply Qeq_bool_iff in E. lra. }
    apply Qle_bool_iff in Hinf. rewrite Hinf.
    assert (Qle_bool 0 x = false) as ->; [|done].
    destruct (Qle_bool 0 x) eqn:E; [|done]. apply Qle_bool_iff in E. lra.
Qed.

(** An integer of at most 24 bits is a [float32] number. *)
Lemma f32_round_int (z : Z) (x : Q) :
  x == inject_Z z -> (Z.abs z <= 2 ^ 24)%Z ->
  exists y, f32_round x = F32 y /\ y == inject_Z z.
Proof.
  intros E Hz. rewrite (f32_round_comp _ _ E).
  destruct (decide (Z.abs z = 2 ^ 24)%Z) as [Hmax|Hlt].
  - change (2 ^ 24)%Z with 16777216%Z in Hmax.
    assert (z = 16777216 \/ z = -16777216)%Z as [->| ->] by lia.
    + destruct (f32_round_exact 8388608 1) as (y & Hy & Ey); [done|done|by vm_compute|].
      exists y. split; [|by rewrite Ey]. rewrite <- Hy. by apply f32_round_comp.
    + destruct (f32_round_exact (-8388608) 1) as (y & Hy & Ey); [done|done|by vm_compute|].
      exists y. split; [|by rewrite Ey]. rewrite <- Hy. by apply f32_round_comp.
  - assert (inject_Z z == inject_Z z * 2 ^ 0) as E2 by (change (2 ^ 0) with 1; ring).
    rewrite (f32_round_comp _ _ E2).
    destruct (f32_round_exact z 0) as (y & Hy & Ey).
    + lia.
    + lia.
    + rewrite <- E2. change (Qabs (inject_Z z)) with (inject_Z (Z.abs z)).
      apply Qle_lt_trans with (inject_Z (2 ^ 24)); [rewrite <- Zle_Qle; lia|by vm_compute].
    + exists y. split; [done|]. by rewrite Ey, <- E2.
Qed.
(** *** Floor, ceil and mask in [float32] *)

Lemma Qle_bool_false (x y : Q) : Qle_bool x y = false <-> y < x.
Proof.
  split.
  - intros E. apply Qnot_le_lt. intros H. apply Qle_bool_iff in H. congruence.
  - intros H. destruct (Qle_bool x y) eqn:E; [|done]. apply Qle_bool_iff in E. lra.
Qed.

Lemma Qeq_bool_comp (x x' y y' : Q) : x == x' -> y == y' -> Qeq_bool x y = Qeq_bool x' y'.
Proof.
  intros Ex Ey. destruct (Qeq_bool x' y') eqn:E.
  - apply Qeq_bool_iff. apply Qeq_bool_iff in E. by rewrite Ex, Ey.
  - destruct (Qeq_bool x y) eqn:E'; [|done]. apply Qeq_bool_iff in E'.
    apply Qeq_bool_neq in E. rewrite Ex, Ey in E'. done.
Qed.

Lemma clip_by_value_comp (x x' lo lo' hi hi' : Q) :
  x == x' -> lo == lo' -> hi == hi' ->
  clip_by_value x lo hi == clip_by_value x' lo' hi'.
Proof. intros Ex El Eh. clip_cases; lra. Qed.

Lemma clip32_exact (y d : Q) :
  exists c, f32_clip_by_value (F32 y) (F32 0) (F32 d) = F32 c /\ c == clip_by_value y 0 d.
Proof.
  unfold f32_clip_by_value, f32_minimum, f32_maximum, f32_le.
  destruct (Qle_bool y d) eqn:E1.
  - apply Qle_bool_iff in E1. destruct (Qle_bool y 0) eqn:E2.
    + apply Qle_bool_iff in E2. eexists. split; [reflexivity|]. clip_cases; lra.
    + apply Qle_bool_false in E2. eexists. split; [reflexivity|]. clip_cases; lra.
  - apply Qle_bool_false in E1. destruct (Qle_bool d 0) eqn:E2.
    + apply Qle_bool_iff in E2. eexists. split; [reflexivity|]. clip_cases; lra.
    + apply Qle_bool_false in E2. eexists. split; [reflexivity|]. clip_cases; lra.
Qed.

Lemma clip32_high (a : float32) (d : Q) :
  0 <= d ->
  match a with F32 y => d <= y | F32_inf negative => negative = false | F32_nan => False end ->
  exists c, f32_clip_by_value a (F32 0) (F32 d) = F32 c /\ c == d.
Proof.
  intros Hd Ha. destruct a as [y|[|]|]; try done.
  - destruct (clip32_exact y d) as (c & Hc & Ec). exists c. split; [done|].
    rewrite Ec. clip_cases; lra.
  - unfold f32_clip_by_value, f32_minimum, f32_maximum, f32_le. cbn.
    destruct (Qle_bool d 0) eqn:E.
    + apply Qle_bool_iff in E. eexists. split; [reflexivity|]. lra.
    + eexists. split; [reflexivity|]. lra.
Qed.

Lemma clip32_low (a : float32) (d : Q) :
  0 <= d ->
  match a with F32 y => y <= 0 | F32_inf negative => negative = true | F32_nan => False end ->
  exists c, f32_clip_by_value a (F32 0) (F32 d) = F32 c /\ c == 0.
Proof.
  intros Hd Ha. destruct a as [y|[|]|]; try done.
  - destruct (clip32_exact y d) as (c & Hc & Ec). exists c. split; [done|].
    rewrite Ec. clip_cases; lra.
  - unfold f32_clip_by_value, f32_minimum, f32_maximum, f32_le. cbn.
    eexists. split; [reflexivity|]. lra.
Qed.

Lemma f32_dim_spec (n : nat) :
  (1 <= n <= 2 ^ 23)%nat ->
  exists d, f32_dim_minus_1 n = F32 d /\ d == dim_minus_1 n /\ 0 <= d /\ d <= 8388607.
Proof.
  intros Hn. assert (Z.of_nat n <= 8388608)%Z as Hz.
  { change 8388608%Z with (Z.of_nat (2 ^ 23)). lia. }
  destruct (f32_round_int (Z.of_nat n - 1) (dim_minus_1 n)) as (d & Hd & Ed).
  - reflexivity.
  - change (2 ^ 24)%Z with 16777216%Z. lia.
  - exists d. split_and!; [done|done| |]; rewrite Ed.
    + change 0 with (inject_Z 0). rewrite <- Zle_Qle. lia.
    + change 8388607 with (inject_Z 8388607). rewrite <- Zle_Qle. lia.
Qed.

(** Clamping an integer of any size: the [float32] result is the exact
    one. *)
Lemma clip32_round (x : Q) (z : Z) (n : nat) :
  (1 <= n <= 2 ^ 23)%nat -> x == inject_Z z ->
  exists c, f32_clip_by_value (f32_round x) (F32 0) (f32_dim_minus_1 n) = F32 c /\
            c == clip_by_value (inject_Z z) 0 (dim_minus_1 n).
Proof.
  intros Hn Ex. destruct (f32_dim_spec n Hn) as (d & -> & Ed & Hd0 & Hd1).
  rewrite (f32_round_comp _ _ Ex).
  destruct (Z_le_gt_dec (Z.abs z) (2 ^ 24)) as [Hsmall|Hbig].
  - destruct (f32_round_int z (inject_Z z)) as (y & -> & Ey); [done|done|].
    destruct (clip32_exact y d) as (c & Hc & Ec). exists c. split; [done|].
    rewrite Ec. by apply clip_by_value_comp.
  - change (2 ^ 24)%Z with 16777216%Z in Hbig.
    destruct (Z_le_gt_dec 0 z) as [Hpos|Hneg].
    + assert (16777217 <= inject_Z z) as Hz.
      { change 16777217 with (inject_Z 16777217). rewrite <- Zle_Qle. lia. }
      pose proof (f32_round_large (inject_Z z) ltac:(lra)) as Hl.
      destruct (clip32_high (f32_round (inject_Z z)) d Hd0) as (c & Hc & Ec).
      { destruct (f32_round (inject_Z z)) as [y|neg|]; [lra|done|done]. }
      exists c. split; [done|]. rewrite Ec.
      rewrite (clip_by_value_comp (inject_Z z) (inject_Z z) 0 0 (dim_minus_1 n) d)
        by (done || by symmetry).
      clip_cases; lra.
    + assert (inject_Z z <= -16777217) as Hz.
      { change (-16777217) with (inject_Z (-16777217)). rewrite <- Zle_Qle. lia. }
      pose proof (f32_round_large_neg (inject_Z z) ltac:(lra)) as Hl.
      destruct (clip32_low (f32_round (inject_Z z)) d Hd0) as (c & Hc & Ec).
      { destruct (f32_round (inject_Z z)) as [y|neg|]; [lra|done|done]. }
      exists c. split; [done|]. rewrite Ec.
      rewrite (clip_by_value_comp (inject_Z z) (inject_Z z) 0 0 (dim_minus_1 n) d)
        by (done || by symmetry).
      clip_cases; lra.
Qed.

Lemma floor_clip32_spec (n : nat) (u : Q) :
  (1 <= n <= 2 ^ 23)%nat ->
  exists c, floor_clip32 n (F32 u) = F32 c /\ c == floor_clip n u.
Proof.
  intros Hn. unfold floor_clip32, f32_floor.
  destruct (clip32_round (inject_Z (Qfloor u)) (Qfloor u) n Hn) as (c & Hc & Ec); [done|].
  exists c. split; [done|]. rewrite Ec. reflexivity.
Qed.

Lemma ceil_clip32_spec (n : nat) (u : Q) :
  (1 <= n <= 2 ^ 23)%nat ->
  exists c, ceil_clip32 n (F32 u) = F32 c /\ c == ceil_clip n u.
Proof.
  intros Hn. unfold ceil_clip32, f32_floor. set (z := Qfloor u).
  assert (ceil_clip n u = clip_by_value (inject_Z z + 1) 0 (dim_minus_1 n)) as Eceil
    by reflexivity.
  destruct (Z_le_gt_dec (Z.abs z) 16777215) as [Hsmall|Hbig].
  - destruct (f32_round_int z (inject_Z z)) as (y & -> & Ey);
      [done|change (2 ^ 24)%Z with 16777216%Z; lia|].
    cbn [f32_add].
    destruct (clip32_round (y + 1) (z + 1) n Hn) as (c & Hc & Ec).
    { rewrite Ey, inject_Z_plus. reflexivity. }
    exists c. split; [done|]. rewrite Ec, Eceil, inject_Z_plus. reflexivity.
  - destruct (f32_dim_spec n Hn) as (d & Hdim & Ed & Hd0 & Hd1). rewrite Hdim.
    destruct (Z_le_gt_dec 0 z) as [Hpos|Hneg].
    + assert (16777216 <= inject_Z z) as Hz.
      { change 16777216 with (inject_Z 16777216). rewrite <- Zle_Qle. lia. }
      pose proof (f32_round_large (inject_Z z) ltac:(lra)) as Hl.
      destruct (clip32_high (f32_add (f32_round (inject_Z z)) (F32 1)) d Hd0)
        as (c & Hc & Ec).
      { destruct (f32_round (inject_Z z)) as [y|neg|]; [|by subst neg|done].
        cbn [f32_add]. pose proof (f32_round_large (y + 1) ltac:(lra)) as Hl'.
        destruct (f32_round (y + 1)) as [y'|neg|]; [lra|done|done]. }
      exists c. split; [done|]. rewrite Ec, Eceil.
      rewrite (clip_by_value_comp (inject_Z z + 1) (inject_Z z + 1) 0 0 (dim_minus_1 n) d)
        by (done || by symmetry).
      clip_cases; lra.
    + assert (inject_Z z <= -16777216) as Hz.
      { change (-16777216) with (inject_Z (-16777216)). rewrite <- Zle_Qle. lia. }
      pose proof (f32_round_large_neg (inject_Z z) ltac:(lra)) as Hl.
      destruct (clip32_low (f32_add (f32_round (inject_Z z)) (F32 1)) d Hd0)
        as (c & Hc & Ec).
      { destruct (f32_round (inject_Z z)) as [y|neg|]; [|by subst neg|done].
        cbn [f32_add]. pose proof (f32_round_large_neg (y + 1) ltac:(lra)) as Hl'.
        destruct (f32_round (y + 1)) as [y'|neg|]; [lra|done|done]. }
      exists c. split; [done|]. rewrite Ec, Eceil.
      rewrite (clip_by_value_comp (inject_Z z + 1) (inject_Z z + 1) 0 0 (dim_minus_1 n) d)
        by (done || by symmetry).
      clip_cases; lra.
Qed.

(** The mask that [make_valid_mask] computes in [float32] is the mask of the
    exact clamped floor and ceil. *)
Lemma valid_axis32_exact (n : nat) (u : Q) :
  (1 <= n <= 2 ^ 23)%nat ->
  f32_equal (f32_add (floor_clip32 n (F32 u)) (F32 1)) (ceil_clip32 n (F32 u))
  = tf_equal (floor_clip n u + 1) (ceil_clip n u).
Proof.
  intros Hn. destruct (floor_clip32_spec n u Hn) as (f & -> & Ef).
  destruct (ceil_clip32_spec n u Hn) as (c & -> & Ec).
  cbn [f32_add].
  destruct (f32_round_int (Z.max (Z.min (Qfloor u) (Z.of_nat n - 1)) 0 + 1) (f + 1))
    as (y & -> & Ey).
  - rewrite Ef, floor_clip_int, inject_Z_plus. reflexivity.
  - assert (Z.of_nat n <= 8388608)%Z by (change 8388608%Z with (Z.of_nat (2 ^ 23)); lia).
    change (2 ^ 24)%Z with 16777216%Z. lia.
  - cbn [f32_equal]. unfold tf_equal. apply Qeq_bool_comp; [|done].
    rewrite Ey, inject_Z_plus, <- floor_clip_int. reflexivity.
Qed.

Lemma valid_at32_exact (height width : nat) (u v : Q) :
  (1 <= height <= 2 ^ 23)%nat -> (1 <= width <= 2 ^ 23)%nat ->
  valid_at32 height width (F32 u) (F32 v) = valid_at height width u v.
Proof.
  intros Hh Hw. unfold valid_at32, valid_at.
  by rewrite (valid_axis32_exact width u Hw), (valid_axis32_exact height v Hh).
Qed.
(** *** The weights in [float32] *)

Lemma f32_overflow_big : 100000000000000000000000000000000000000 <= f32_overflow.
Proof. by vm_compute. Qed.

Lemma clip_range (n : nat) (x : Q) :
  (1 <= n <= 2 ^ 23)%nat -> 0 <= clip_by_value x 0 (dim_minus_1 n) <= 8388607.
Proof.
  intros Hn. assert (0 <= dim_minus_1 n <= 8388607) as [H0 H1].
  { unfold dim_minus_1. change 0 with (inject_Z 0). change 8388607 with (inject_Z 8388607).
    rewrite <- !Zle_Qle. change 8388607%Z with (Z.of_nat (2 ^ 23) - 1)%Z. lia. }
  clip_cases; split; lra.
Qed.

(** The difference of a coordinate of magnitude at most [1e18] and a
    clamped position is a number of magnitude at most [2e18]. *)
Lemma f32_diff_bounded (x y : Q) :
  -1000000000000000000 - 8388607 <= x + y <= 1000000000000000000 + 8388607 ->
  exists a, f32_round (x + y) = F32 a /\
            -2000000000000000000 <= a <= 2000000000000000000.
Proof.
  intros [H1 H2]. pose proof f32_overflow_big as Hbig.
  destruct (f32_round_finite (x + y)) as (a & Ha & [E1 E2] & _).
  { apply Qabs_Qlt_condition. split; lra. }
  exists a. split; [done|]. destruct f32_eta_small as [? ?].
  assert (Qabs (x + y) <= 1000000000000000000 + 8388607) as Habs.
  { apply Qabs_Qle_condition. split; lra. }
  pose proof (Qabs_nonneg (x + y)).
  rewrite f32_eps_value in E1, E2. split; lra.
Qed.

Lemma f32_mul_masked (a b : Q) :
  -2000000000000000000 <= a <= 2000000000000000000 ->
  -2000000000000000000 <= b <= 2000000000000000000 ->
  f32_mul (f32_mul (F32 a) (F32 b)) (F32 0) = F32 0.
Proof.
  intros Ha Hb. cbn [f32_mul]. pose proof f32_overflow_big as Hbig.
  destruct (f32_round_finite (a * b)) as (p & -> & _).
  { apply Qabs_Qlt_condition. split; nra. }
  cbn [f32_mul]. unfold f32_round.
  assert (Qeq_bool (p * 0) 0 = true) as ->; [|done].
  apply Qeq_bool_iff. ring.
Qed.

Lemma weight_at32_invalid (height width : nat) (u v : Q) (j : nat) :
  (1 <= height <= 2 ^ 23)%nat -> (1 <= width <= 2 ^ 23)%nat ->
  Qabs u <= 1000000000000000000 -> Qabs v <= 1000000000000000000 ->
  valid_at32 height width (F32 u) (F32 v) = false ->
  weight_at32 height width (F32 u) (F32 v) j = F32 0.
Proof.
  intros Hh Hw Hu Hv Hinv. unfold weight_at32. rewrite Hinv. cbn [f32_cast].
  apply Qabs_Qle_condition in Hu, Hv.
  destruct (floor_clip32_spec width u Hw) as (uf & -> & Euf).
  destruct (ceil_clip32_spec width u Hw) as (uc & -> & Euc).
  destruct (floor_clip32_spec height v Hh) as (vf & -> & Evf).
  destruct (ceil_clip32_spec height v Hh) as (vc & -> & Evc).
  pose proof (clip_range width (tf_floor u) Hw) as Ruf.
  pose proof (clip_range width (tf_floor u + 1) Hw) as Ruc.
  pose proof (clip_range height (tf_floor v) Hh) as Rvf.
  pose proof (clip_range height (tf_floor v + 1) Hh) as Rvc.
  fold (floor_clip width u) in Ruf. fold (ceil_clip width u) in Ruc.
  fold (floor_clip height v) in Rvf. fold (ceil_clip height v) in Rvc.
  rewrite <- Euf in Ruf. rewrite <- Euc in Ruc. rewrite <- Evf in Rvf. rewrite <- Evc in Rvc.
  unfold f32_sub. cbn [f32_neg f32_add].
  destruct (f32_diff_bounded uc (- u)) as (w_uf & -> & ?); [split; lra|].
  destruct (f32_diff_bounded u (- uf)) as (w_uc & -> & ?); [split; lra|].
  destruct (f32_diff_bounded vc (- v)) as (w_vf & -> & ?); [split; lra|].
  destruct (f32_diff_bounded v (- vf)) as (w_vc & -> & ?); [split; lra|].
  destruct j as [|[|[|j]]]; by apply f32_mul_masked.
Qed.

Lemma f32_round_small (x : Q) :
  0 <= x <= 4 ->
  exists y, f32_round x = F32 y /\ 0 <= y /\ x - f32_tol <= y <= x + f32_tol.
Proof.
  intros [H0 H4]. pose proof f32_overflow_big as Hbig.
  destruct (f32_round_finite x) as (y & Hy & [E1 E2] & Hpos & _).
  { rewrite Qabs_pos by done. lra. }
  exists y. split; [done|]. split; [by apply Hpos|].
  rewrite Qabs_pos, f32_eps_value in E1, E2 by done.
  destruct f32_eta_small as [? ?]. unfold f32_tol. split; lra.
Qed.

Lemma f32_weight_error (a c A C : Q) :
  0 <= a <= 1 -> 0 <= c <= 1 -> 0 <= A -> 0 <= C ->
  a - f32_tol <= A <= a + f32_tol -> c - f32_tol <= C <= c + f32_tol ->
  exists W, f32_mul (f32_mul (F32 A) (F32 C)) (F32 1) = F32 W /\ 0 <= W /\
            a * c - 5 * f32_tol <= W <= a * c + 5 * f32_tol.
Proof.
  intros Ha Hc HA HC EA EC. cbn [f32_mul].
  assert (f32_tol == 1 # 4000000) as Etol by reflexivity.
  assert (a * c - 3 * f32_tol <= A * C <= a * c + 3 * f32_tol) as [P1 P2].
  { assert (A * C - a * c == A * (C - c) + c * (A - a)) as E by ring.
    assert (- (2 * f32_tol) <= A * (C - c) <= 2 * f32_tol) as [? ?] by (rewrite Etol; split; nra).
    assert (- f32_tol <= c * (A - a) <= f32_tol) as [? ?] by (rewrite Etol; split; nra).
    split; lra. }
  assert (0 <= A * C) as P0 by nra.
  assert (a * c <= 1) as Pac by nra.
  destruct (f32_round_small (A * C)) as (P & -> & HP0 & HP1 & HP2); [rewrite Etol in *; split; lra|].
  cbn [f32_mul].
  destruct (f32_round_small (P * 1)) as (W & -> & HW0 & HW1 & HW2); [rewrite Etol in *; split; lra|].
  exists W. split_and!; [done|done| |]; lra.
Qed.
Lemma weight_at32_valid (height width : nat) (u v : Q) :
  (1 <= height <= 2 ^ 23)%nat -> (1 <= width <= 2 ^ 23)%nat ->
  valid_at32 height width (F32 u) (F32 v) = true ->
  exists w0 w1 w2 w3,
    weight_at32 height width (F32 u) (F32 v) 0 = F32 w0 /\
    weight_at32 height width (F32 u) (F32 v) 1 = F32 w1 /\
    weight_at32 height width (F32 u) (F32 v) 2 = F32 w2 /\
    weight_at32 height width (F32 u) (F32 v) 3 = F32 w3 /\
    0 <= w0 /\ 0 <= w1 /\ 0 <= w2 /\ 0 <= w3 /\
    1 - (1 # 100000) <= w0 + w1 + w2 + w3 <= 1 + (1 # 100000).
Proof.
  intros Hh Hw Hvalid. unfold weight_at32. rewrite Hvalid. cbn [f32_cast].
  rewrite valid_at32_exact in Hvalid by done.
  apply valid_at_unclamped in Hvalid as [[Fu Cu] [Fv Cv]].
  destruct (floor_clip32_spec width u Hw) as (uf & -> & Euf).
  destruct (ceil_clip32_spec width u Hw) as (uc & -> & Euc).
  destruct (floor_clip32_spec height v Hh) as (vf & -> & Evf).
  destruct (ceil_clip32_spec height v Hh) as (vc & -> & Evc).
  rewrite <- Euf in Fu. rewrite <- Euc in Cu. rewrite <- Evf in Fv. rewrite <- Evc in Cv.
  pose proof (tf_floor_le u). pose proof (tf_floor_lt u).
  pose proof (tf_floor_le v). pose proof (tf_floor_lt v).
  unfold f32_sub. cbn [f32_neg f32_add].
  destruct (f32_round_small (uc + - u)) as (w_uf & -> & ? & ? & ?); [split; lra|].
  destruct (f32_round_small (u + - uf)) as (w_uc & -> & ? & ? & ?); [split; lra|].
  destruct (f32_round_small (vc + - v)) as (w_vf & -> & ? & ? & ?); [split; lra|].
  destruct (f32_round_small (v + - vf)) as (w_vc & -> & ? & ? & ?); [split; lra|].
  set (a := tf_floor u + 1 - u). set (b := u - tf_floor u).
  set (c := tf_floor v + 1 - v). set (d := v - tf_floor v).
  assert (0 <= a <= 1 /\ 0 <= b <= 1 /\ 0 <= c <= 1 /\ 0 <= d <= 1) as (Ha & Hb & Hc & Hd)
    by (unfold a, b, c, d; split_and!; lra).
  destruct (f32_weight_error a c w_uf w_vf) as (w0 & -> & P0 & L0 & U0);
    [done|done|done|done|unfold a; split; lra|unfold c; split; lra|].
  destruct (f32_weight_error a d w_uf w_vc) as (w1 & -> & P1 & L1 & U1);
    [done|done|done|done|unfold a; split; lra|unfold d; split; lra|].
  destruct (f32_weight_error b c w_uc w_vf) as (w2 & -> & P2 & L2 & U2);
    [done|done|done|done|unfold b; split; lra|unfold c; split; lra|].
  destruct (f32_weight_error b d w_uc w_vc) as (w3 & -> & P3 & L3 & U3);
    [done|done|done|done|unfold b; split; lra|unfold d; split; lra|].
  exists w0, w1, w2, w3. split_and!; try done.
  - assert (a * c + a * d + b * c + b * d == 1) as E by (unfold a, b, c, d; ring).
    unfold f32_tol in *. lra.
  - assert (a * c + a * d + b * c + b * d == 1) as E by (unfold a, b, c, d; ring).
    unfold f32_tol in *. lra.
Qed.
(** *** The perspective divide in [float32] *)

Lemma f32_guard_value : f32_round scale_eps = F32 (14411519 # 144115188075855872).
Proof. by vm_compute. Qed.

(** The guard is lost in the sum with a scale of [2 ^ -9] or more. *)
Lemma f32_guard_absorbed (m k : Z) :
  (2 ^ 23 <= m < 2 ^ 24)%Z -> (-32 <= k <= 103)%Z ->
  exists y, f32_add (F32 (inject_Z m * 2 ^ k)) (f32_round scale_eps) = F32 y /\
            y == inject_Z m * 2 ^ k.
Proof.
  intros Hm Hk. rewrite f32_guard_value. cbn [f32_add].
  apply f32_round_absorb; [done|lia|done| |].
  - apply Qlt_le_trans with (2 ^ (-32 - 1)); [by vm_compute|]. apply pow2_le. lia.
  - assert (inject_Z m * 2 ^ k <= 2 ^ 24 * 2 ^ 103) as H.
    { pose proof (pow2_pos k). pose proof (pow2_le k 103 ltac:(lia)).
      assert (0 <= inject_Z m <= 2 ^ 24) as [? ?].
      { change 0 with (inject_Z 0). rewrite <- (inject_Z_pow2 24) by lia.
        rewrite <- !Zle_Qle. lia. }
      apply Qmult_le_compat_nonneg; split; lra. }
    apply Qle_lt_trans with (2 ^ 24 * 2 ^ 103 + (14411519 # 144115188075855872));
      [lra|by vm_compute].
Qed.

Lemma cam2pixel_divide32_exact (m k : Z) (c : nat) (x : Q) :
  (2 ^ 23 <= m < 2 ^ 24)%Z -> (-32 <= k <= 103)%Z -> (c <= 2 ^ 23)%nat ->
  x == inject_Z (Z.of_nat c) * (inject_Z m * 2 ^ k) ->
  exists y, cam2pixel_divide32 (F32 x) (F32 (inject_Z m * 2 ^ k)) = F32 y /\
            y == inject_Z (Z.of_nat c).
Proof.
  intros Hm Hk Hc Ex. unfold cam2pixel_divide32.
  destruct (f32_guard_absorbed m k Hm Hk) as (s & -> & Es).
  assert (0 < inject_Z m * 2 ^ k) as Hpos.
  { apply Qmult_lt_0_compat; [|apply pow2_pos].
    change 0 with (inject_Z 0). rewrite <- Zlt_Qlt. lia. }
  cbn [f32_div].
  assert (Qeq_bool s 0 = false) as ->.
  { destruct (Qeq_bool s 0) eqn:E; [|done]. apply Qeq_bool_iff in E. lra. }
  apply (f32_round_int (Z.of_nat c)).
  - rewrite Ex, Es. apply Qdiv_mult_l. intros E. rewrite E in Hpos. lra.
  - assert (Z.of_nat c <= 8388608)%Z by (change 8388608%Z with (Z.of_nat (2 ^ 23)); lia).
    change (2 ^ 24)%Z with 16777216%Z. lia.
Qed.
